(** * vachan-api: translation assistance core ([app/crud/nlp_crud.py])

    A shallow embedding of the tokenizer, the draft/meta splicer, the
    suggestion trie (learning and lookup), the auto-translator, the progress
    metric and the JSON alignment export, followed by the properties of the
    written specification stated against that embedding.

    Conventions of the embedding:
    - a Python [str] is the list of its Unicode code points ([N]), so that
      [len], slicing and [find] count what Python counts;
    - Python integers are [Z]; Python floats are IEEE binary64 ([PrimFloat]);
    - a raised exception is the [Raise] outcome of the [result] type;
    - a [dict] is an association list in insertion order, since the code
      iterates over its dictionaries and sorts them stably;
    - [pygtrie.StringTrie] is a tree whose children keep insertion order. *)

From Stdlib Require Import String Ascii.
From Stdlib Require Import List ZArith NArith Bool Lia.
From Stdlib Require Import PrimFloat Uint63.
Import ListNotations.

Set Implicit Arguments.
Local Set Warnings "-register-all".
Local Open Scope Z_scope.

(** ** Python strings *)

Module PyStr.

Definition char := N.
Definition str := list char.

Fixpoint bytes (s : string) : list N :=
  match s with
  | EmptyString => []
  | String a r => N_of_ascii a :: bytes r
  end.

(** UTF-8 decoding of the bytes of a literal, used only to write Python
    string literals (ASCII or Devanagari) in the statements below. *)
Fixpoint utf8_decode (bs : list N) : str :=
  match bs with
  | [] => []
  | b0 :: r0 =>
    if (b0 <? 0x80)%N then b0 :: utf8_decode r0
    else if (b0 <? 0xE0)%N then
      match r0 with
      | b1 :: r1 => ((b0 - 0xC0) * 0x40 + (b1 - 0x80))%N :: utf8_decode r1
      | _ => []
      end
    else if (b0 <? 0xF0)%N then
      match r0 with
      | b1 :: b2 :: r2 =>
        ((b0 - 0xE0) * 0x1000 + (b1 - 0x80) * 0x40 + (b2 - 0x80))%N
          :: utf8_decode r2
      | _ => []
      end
    else
      match r0 with
      | b1 :: b2 :: b3 :: r3 =>
        ((b0 - 0xF0) * 0x40000 + (b1 - 0x80) * 0x1000
         + (b2 - 0x80) * 0x40 + (b3 - 0x80))%N :: utf8_decode r3
      | _ => []
      end
  end.

Definition py (s : string) : str := utf8_decode (bytes s).

Definition len {A} (l : list A) : Z := Z.of_nat (length l).

Fixpoint str_eqb (a b : str) : bool :=
  match a, b with
  | [], [] => true
  | x :: a', y :: b' => (x =? y)%N && str_eqb a' b'
  | _, _ => false
  end.

(** [x in l] for a list of strings. *)
Definition str_in (x : str) (l : list str) : bool := existsb (str_eqb x) l.

(** [s.startswith(p)] *)
Fixpoint startswith (s p : str) : bool :=
  match p, s with
  | [], _ => true
  | x :: p', y :: s' => (x =? y)%N && startswith s' p'
  | _ :: _, [] => false
  end.

(** Index normalisation of a slice bound: negative bounds count from the
    end, and every bound is clamped to [0, len]. *)
Definition clamp_index (n i : Z) : Z :=
  if i <? 0 then Z.max (i + n) 0 else Z.min i n.

(** [l[lo:hi]]; [None] is an omitted bound. *)
Definition slice {A} (l : list A) (lo hi : option Z) : list A :=
  let n := len l in
  let a := match lo with None => 0 | Some i => clamp_index n i end in
  let b := match hi with None => n | Some i => clamp_index n i end in
  firstn (Z.to_nat (b - a)) (skipn (Z.to_nat a) l).

Notation "l <[ a ':' b ]>" := (slice l (Some a) (Some b))
  (at level 1, a at level 60, b at level 60, left associativity,
   format "l <[ a ':' b ]>").
Notation "l <[ ':' b ]>" := (slice l None (Some b))
  (at level 1, b at level 60, left associativity, format "l <[ ':' b ]>").
Notation "l <[ a ':' ]>" := (slice l (Some a) None)
  (at level 1, a at level 60, left associativity, format "l <[ a ':' ]>").

(** [str.isspace] on one code point. *)
Definition isspace (c : char) : bool :=
  ((9 <=? c) && (c <=? 13) || (28 <=? c) && (c <=? 32)
   || (c =? 0x85) || (c =? 0xA0) || (c =? 0x1680)
   || (0x2000 <=? c) && (c <=? 0x200A)
   || (c =? 0x2028) || (c =? 0x2029) || (c =? 0x202F)
   || (c =? 0x205F) || (c =? 0x3000))%N.

Fixpoint split_aux (cur : str) (s : str) : list str :=
  match s with
  | [] => match cur with [] => [] | _ => [cur] end
  | c :: r =>
    if isspace c then
      match cur with
      | [] => split_aux [] r
      | _ => cur :: split_aux [] r
      end
    else split_aux (cur ++ [c]) r
  end.

(** [s.split()] *)
Definition split (s : str) : list str := split_aux [] s.

Fixpoint lstrip (s : str) : str :=
  match s with
  | c :: r => if isspace c then lstrip r else s
  | [] => []
  end.

(** [s.strip()] *)
Definition strip (s : str) : str := rev (lstrip (rev (lstrip s))).

Fixpoint split_on_aux (sep : char) (cur : str) (s : str) : list str :=
  match s with
  | [] => [cur]
  | c :: r =>
    if (c =? sep)%N then cur :: split_on_aux sep [] r
    else split_on_aux sep (cur ++ [c]) r
  end.

(** [s.split(sep)] for a one-character separator. *)
Definition split_on (sep : char) (s : str) : list str := split_on_aux sep [] s.

(** [sep.join(words)] *)
Fixpoint join (sep : str) (words : list str) : str :=
  match words with
  | [] => []
  | [w] => w
  | w :: ws => w ++ sep ++ join sep ws
  end.

Fixpoint replace_aux (old new : str) (skip : nat) (s : str) : str :=
  match s with
  | [] => []
  | c :: r =>
    match skip with
    | S k => replace_aux old new k r
    | O =>
      if startswith s old then new ++ replace_aux old new (length old - 1) r
      else c :: replace_aux old new 0 r
    end
  end.

(** [s.replace(old, new)] for a non-empty [old], as the code calls it. *)
Definition replace (s old new : str) : str := replace_aux old new 0 s.

Fixpoint find_at (s sub : str) (i : nat) : option nat :=
  if startswith s sub then Some i
  else match s with
       | [] => None
       | _ :: s' => find_at s' sub (S i)
       end.

(** [s.find(sub, start)] for [start >= 0]; [None] is Python's [-1]. *)
Definition find (s sub : str) (start : nat) : option nat :=
  if (start <=? length s)%nat then find_at (skipn start s) sub start
  else None.

(** [s.index(c)] for a character, [None] when it is absent ([c in s]). *)
Fixpoint index_char (c : char) (s : str) : option nat :=
  match s with
  | [] => None
  | x :: r => if (x =? c)%N then Some O else option_map S (index_char c r)
  end.

(** [re.sub(r'[cls]+', repl, s)]: every maximal run of class characters
    becomes one [repl]. *)
Fixpoint re_sub_runs (cls : char -> bool) (repl : str) (in_run : bool)
    (s : str) : str :=
  match s with
  | [] => []
  | c :: r =>
    if cls c then
      if in_run then re_sub_runs cls repl true r
      else repl ++ re_sub_runs cls repl true r
    else c :: re_sub_runs cls repl false r
  end.

(** [re.split(r'[cls]+', s)] *)
Fixpoint re_split_aux (cls : char -> bool) (cur : str) (in_run : bool)
    (s : str) : list str :=
  match s with
  | [] => [cur]
  | c :: r =>
    if cls c then
      if in_run then re_split_aux cls [] true r
      else cur :: re_split_aux cls [] true r
    else re_split_aux cls (cur ++ [c]) false r
  end.

Definition re_split (cls : char -> bool) (s : str) : list str :=
  re_split_aux cls [] false s.

End PyStr.
Import PyStr.

(** ** Exceptions

    The exceptions of Python that the module can raise, [ReError] being
    [re.error], and two outcomes of the model alone: [NonTermination],
    when the fuel of a loop runs out, and [Unsupported], when a pattern is
    outside the regular expressions that the model parses. *)

Inductive error :=
| NotAvailableException
| TypeException
| TypeError
| UnboundLocalError
| KeyError
| NameError
| IndexError
| ValueError
| ZeroDivisionError
| NonTermination
| ReError
| Unsupported.

Inductive result (A : Type) :=
| Ok (a : A)
| Raise (e : error).
Arguments Ok {A} a.
Arguments Raise {A} e.

Definition bind {A B} (r : result A) (k : A -> result B) : result B :=
  match r with
  | Ok a => k a
  | Raise e => Raise e
  end.

Notation "x <- r ;; k" := (bind r (fun x => k))
  (at level 61, r at next level, right associativity).
Notation "' p <- r ;; k" := (bind r (fun p => k))
  (at level 61, p pattern, r at next level, right associativity).

(** ** Character classes of [re]

    The module builds its patterns as ['[' + ''.join(punctuations) + ']'],
    so the joined text is parsed by [re] as the body of a character class:
    a leading [^] negates, [x-y] is a range, a closing bracket is a member
    only as the first item, and a backslash starts an escape.  [ReError] is
    [re.error].  The model parses the bodies whose closing bracket is the
    one the module appends and whose escapes stand for one character; for
    the others ([\d], [\x41], a bracket that closes the class early, ...)
    it stops with [Unsupported], which says nothing of the program. *)

Inductive class_item :=
| Literal (c : char)
| Range (lo hi : char).

(** A compiled class: whether it is negated, and its items. *)
Definition char_class : Type := bool * list class_item.

Definition item_matches (c : char) (item : class_item) : bool :=
  match item with
  | Literal x => (c =? x)%N
  | Range lo hi => ((lo <=? c) && (c <=? hi))%N
  end.

Definition class_matches (cls : char_class) (c : char) : bool :=
  xorb (fst cls) (existsb (item_matches c) (snd cls)).

(** [_class_escape] for the character after a backslash: the escapes of
    control characters, an error for the other ASCII letters and for the
    digits 8 and 9, and the character itself otherwise.  Categories and
    numeric escapes are left out. *)
Definition class_escape (c : char) : result char :=
  if (c =? 97)%N then Ok 7%N            (* \a *)
  else if (c =? 98)%N then Ok 8%N       (* \b *)
  else if (c =? 102)%N then Ok 12%N     (* \f *)
  else if (c =? 110)%N then Ok 10%N     (* \n *)
  else if (c =? 114)%N then Ok 13%N     (* \r *)
  else if (c =? 116)%N then Ok 9%N      (* \t *)
  else if (c =? 118)%N then Ok 11%N     (* \v *)
  else if existsb (N.eqb c) (py "dDsSwWxuUN01234567") then Raise Unsupported
  else if ((65 <=? c) && (c <=? 90) || (97 <=? c) && (c <=? 122)
           || (56 <=? c) && (c <=? 57))%N
  then Raise ReError
  else Ok c.

(** Where the parser of a class stands: before an item, after a
    backslash, after a character that may open a range, after the hyphen
    of a range, and after a backslash there. *)
Inductive class_state :=
| Fresh
| Escaped
| Have (code1 : char)
| Dash (code1 : char)
| DashEscaped (code1 : char).

Inductive class_step_result :=
| Next (items : list class_item) (st : class_state)
| Close (items : list class_item)
| Fail (e : error).

Definition right_bracket : char := 93%N.
Definition backslash : char := 92%N.
Definition hyphen : char := 45%N.
Definition caret : char := 94%N.

(** [this = sourceget()] and the tests on it. *)
Definition fresh_step (items : list class_item) (this : char)
    : class_step_result :=
  if (this =? right_bracket)%N && negb (match items with
                                        | [] => true
                                        | _ => false
                                        end)
  then Close items
  else if (this =? backslash)%N then Next items Escaped
  else Next items (Have this).

(** [RANGE, (lo, hi)], refused when [hi < lo]. *)
Definition range_step (items : list class_item) (lo hi : char)
    : class_step_result :=
  if (hi <? lo)%N then Fail ReError
  else Next (items ++ [Range lo hi]) Fresh.

Definition class_step (items : list class_item) (st : class_state)
    (x : char) : class_step_result :=
  match st with
  | Fresh => fresh_step items x
  | Escaped =>
    match class_escape x with
    | Ok code1 => Next items (Have code1)
    | Raise e => Fail e
    end
  | Have code1 =>
    if (x =? hyphen)%N then Next items (Dash code1)
    else fresh_step (items ++ [Literal code1]) x
  | Dash code1 =>
    if (x =? right_bracket)%N
    then Close (items ++ [Literal code1; Literal hyphen])
    else if (x =? backslash)%N then Next items (DashEscaped code1)
    else range_step items code1 x
  | DashEscaped code1 =>
    match class_escape x with
    | Ok code2 => range_step items code1 code2
    | Raise e => Fail e
    end
  end.

(** The loop over the pattern after its opening bracket (and [^]).  The
    pattern that ends inside the class is an unterminated set; the class
    that closes before the last bracket is followed by more pattern. *)
Fixpoint class_loop (items : list class_item) (st : class_state)
    (pattern : str) : result (list class_item) :=
  match pattern with
  | [] => Raise ReError
  | x :: rest =>
    match class_step items st x with
    | Next items st => class_loop items st rest
    | Close items =>
      match rest with
      | [] => Ok items
      | _ => Raise Unsupported
      end
    | Fail e => Raise e
    end
  end.

(** [re.compile('[' + ''.join(punctuations) + ']')]; the pattern of
    [tokenize], which has a [+] after the class, compiles in the same
    cases. *)
Definition compile_class (punctuations : list char) : result char_class :=
  let '(negate, body) :=
    match punctuations with
    | c :: rest => if (c =? caret)%N then (true, rest)
                   else (false, punctuations)
    | [] => (false, [])
    end in
  items <- class_loop [] Fresh (body ++ [right_bracket]) ;;
  Ok (negate, items).

(** ** Token replacement: [replace_token] *)

Definition offset := (Z * Z)%type.
Definition segment := (offset * offset * str)%type.

Definition src_of (m : segment) : offset := fst (fst m).
Definition dst_of (m : segment) : offset := snd (fst m).
Definition status_of (m : segment) : str := snd m.

Definition untranslated : str := py "untranslated".
Definition suggestion : str := py "suggestion".
Definition confirmed : str := py "confirmed".

(** [len(set(range(s,e)).intersection(range(a,b))) > 0] *)
Definition intersects (token_offset tkn_offset : offset) : bool :=
  Z.max (fst token_offset) (fst tkn_offset)
  <? Z.min (snd token_offset) (snd tkn_offset).

(** An entry of [updated_meta].  The replacement entry holds the list object
    [translation_offset] itself, which the loop keeps mutating: its target
    range is [None] here and is read from the final [translation_offset]
    when the function returns. *)
Definition pending := (offset * option offset * str)%type.

Record rt_state := mk_rt {
  updated_draft : str;
  updated_meta : list pending;
  translation_offset : option Z * option Z;
  offset_diff : option Z   (* [None]: the local is not bound yet *)
}.

Section ReplaceToken.

Variables (source : str) (token_offset : offset) (translation : str)
          (draft : option str) (tag : str).

Definition draft_slice (r : offset) : result str :=
  match draft with
  | Some d => Ok (d<[fst r : snd r]>)
  | None => Raise TypeError
  end.

(** The first [if]/[elif]/[else] of an overlapping segment: where the token
    begins. *)
Definition rt_begin (st : rt_state) (tkn_offset trans_offset : offset)
    : rt_state :=
  if fst token_offset =? fst tkn_offset then
    mk_rt (updated_draft st ++ translation) (updated_meta st)
          (Some (fst trans_offset), snd (translation_offset st))
          (offset_diff st)
  else if fst token_offset >? fst tkn_offset then
    let new_seg_len := fst token_offset - fst tkn_offset in
    mk_rt (updated_draft st ++ source<[fst tkn_offset : fst token_offset]>
             ++ translation)
          (updated_meta st
             ++ [((fst tkn_offset, fst token_offset),
                  Some (fst trans_offset, fst trans_offset + new_seg_len),
                  untranslated)])
          (Some (fst trans_offset + new_seg_len),
           snd (translation_offset st))
          (offset_diff st)
  else st.

(** The second [if]/[elif]/[else]: where the token ends. *)
Definition rt_end (st : rt_state) (tkn_offset trans_offset : offset)
    : result rt_state :=
  let trans_length := len translation in
  if snd token_offset =? snd tkn_offset then
    match fst (translation_offset st) with
    | None => Raise TypeError
    | Some t0 =>
      let t1 := t0 + trans_length in
      Ok (mk_rt (updated_draft st)
                (updated_meta st ++ [(token_offset, None, tag)])
                (Some t0, Some t1)
                (Some (t1 - snd trans_offset)))
    end
  else if snd token_offset <? snd tkn_offset then
    let trailing_seg := source<[snd token_offset : snd tkn_offset]> in
    match fst (translation_offset st) with
    | None => Raise TypeError
    | Some t0 =>
      let t1 := t0 + trans_length in
      Ok (mk_rt (updated_draft st ++ trailing_seg)
                (updated_meta st
                   ++ [(token_offset, None, tag);
                       ((snd token_offset, snd tkn_offset),
                        Some (t1, t1 + len trailing_seg), untranslated)])
                (Some t0, Some t1)
                (Some (t1 + len trailing_seg - snd trans_offset)))
    end
  else Ok st.

(** One iteration of [for meta in draft_meta]. *)
Definition rt_step (st : rt_state) (meta : segment) : result rt_state :=
  let tkn_offset := src_of meta in
  let trans_offset := dst_of meta in
  let status := status_of meta in
  if intersects token_offset tkn_offset then
    rt_end (rt_begin st tkn_offset trans_offset) tkn_offset trans_offset
  else if snd tkn_offset <? snd token_offset then
    piece <- draft_slice trans_offset ;;
    Ok (mk_rt (updated_draft st ++ piece)
              (updated_meta st ++ [(tkn_offset, Some trans_offset, status)])
              (translation_offset st) (offset_diff st))
  else
    piece <- draft_slice trans_offset ;;
    match offset_diff st with
    | None => Raise UnboundLocalError
    | Some d =>
      Ok (mk_rt (updated_draft st ++ piece)
                (updated_meta st
                   ++ [(tkn_offset,
                        Some (fst trans_offset + d, snd trans_offset + d),
                        status)])
                (translation_offset st) (offset_diff st))
    end.

Fixpoint rt_loop (st : rt_state) (draft_meta : list segment)
    : result rt_state :=
  match draft_meta with
  | [] => Ok st
  | meta :: rest => st' <- rt_step st meta ;; rt_loop st' rest
  end.

End ReplaceToken.

(** Reading the entries of [updated_meta] once the loop is over.  An entry
    that holds [translation_offset] exists only when both of its cells are
    set ([rt_loop_shared_is_set] below), so the [0] of an unset cell is
    never read. *)
Definition resolve (t : option Z * option Z) (p : pending) : segment :=
  match p with
  | (src, Some dst, status) => (src, dst, status)
  | (src, None, status) =>
    (src, (match fst t with Some a => a | None => 0 end,
           match snd t with Some b => b | None => 0 end), status)
  end.

Definition rt_init : rt_state := mk_rt [] [] (None, None) None.

Definition replace_token (source : str) (token_offset : offset)
    (translation : str) (draft : option str)
    (draft_meta : option (list segment)) (tag : str)
    : result (str * list segment) :=
  let '(draft, draft_meta) :=
    match draft_meta with
    | None | Some [] =>
      (Some source, [((0, len source), (0, len source), untranslated)])
    | Some m => (draft, m)
    end in
  st <- rt_loop source token_offset translation draft tag rt_init draft_meta ;;
  Ok (updated_draft st,
      map (resolve (translation_offset st)) (updated_meta st)).

(** ** Dictionaries and sorting *)

Fixpoint dict_get {V} (k : str) (d : list (str * V)) : option V :=
  match d with
  | [] => None
  | (k', v) :: r => if str_eqb k k' then Some v else dict_get k r
  end.

(** [d[k] = v]: an existing key keeps its place, a new one goes last. *)
Fixpoint dict_set {V} (k : str) (v : V) (d : list (str * V))
    : list (str * V) :=
  match d with
  | [] => [(k, v)]
  | (k', v') :: r =>
    if str_eqb k k' then (k', v) :: r else (k', v') :: dict_set k v r
  end.

Section Sorted.

Variables (A : Type) (key_lt : A -> A -> bool).

Fixpoint insert_desc (x : A) (l : list A) : list A :=
  match l with
  | [] => [x]
  | y :: r => if key_lt x y then y :: insert_desc x r else x :: l
  end.

(** [sorted(l, key=..., reverse=True)]: stable, greatest key first;
    [key_lt x y] compares the keys of [x] and [y]. *)
Definition sorted_desc (l : list A) : list A := fold_right insert_desc [] l.

End Sorted.

(** ** [pygtrie.StringTrie]

    The library is not part of the repository.  It is embedded from its
    documented behaviour: a key is split at the separator into a path, a
    node holds an optional value and its children in insertion order, and
    iteration under a prefix is pre-order. *)

Module Pygtrie.

Inductive node (V : Type) :=
| Node (value : option V) (children : list (str * node V)).

Definition empty {V} : node V := Node None [].

Definition value_of {V} (n : node V) : option V :=
  match n with Node v _ => v end.

Definition children_of {V} (n : node V) : list (str * node V) :=
  match n with Node _ ch => ch end.

Definition separator : char := 47%N.   (* '/' *)

Definition path_from_key (key : str) : list str := split_on separator key.
Definition key_from_path (path : list str) : str := join [separator] path.

Fixpoint update_child {V} (step : str) (f : node V -> node V)
    (ch : list (str * node V)) : list (str * node V) :=
  match ch with
  | [] => [(step, f empty)]
  | (k, c) :: r =>
    if str_eqb step k then (k, f c) :: r else (k, c) :: update_child step f r
  end.

Fixpoint set_path {V} (path : list str) (v : V) (n : node V) : node V :=
  match path with
  | [] => Node (Some v) (children_of n)
  | step :: rest =>
    Node (value_of n) (update_child step (set_path rest v) (children_of n))
  end.

Fixpoint get_node {V} (path : list str) (n : node V) : option (node V) :=
  match path with
  | [] => Some n
  | step :: rest =>
    match dict_get step (children_of n) with
    | Some c => get_node rest c
    | None => None
    end
  end.

Fixpoint values_under {V} (n : node V) : list V :=
  match n with
  | Node v ch =>
    match v with Some x => [x] | None => [] end
    ++ flat_map (fun kc => values_under (snd kc)) ch
  end.

(** The prefixes of [path] that carry a value, shortest first, each with
    the number of steps taken. *)
Fixpoint longest_on {V} (path : list str) (n : node V) (taken : nat)
    (best : option nat) : option nat :=
  let best' := match value_of n with Some _ => Some taken | None => best end in
  match path with
  | [] => best'
  | step :: rest =>
    match dict_get step (children_of n) with
    | Some c => longest_on rest c (S taken) best'
    | None => best'
    end
  end.

Section StringTrie.

Variable V : Type.

(** [t[key] = v] *)
Definition setitem (t : node V) (key : str) (v : V) : node V :=
  set_path (path_from_key key) v t.

(** [t[key]] *)
Definition getitem (t : node V) (key : str) : result V :=
  match get_node (path_from_key key) t with
  | Some (Node (Some v) _) => Ok v
  | _ => Raise KeyError
  end.

Definition has_key (t : node V) (key : str) : bool :=
  match get_node (path_from_key key) t with
  | Some (Node (Some _) _) => true
  | _ => false
  end.

Definition has_subtrie (t : node V) (key : str) : bool :=
  match get_node (path_from_key key) t with
  | Some (Node _ (_ :: _)) => true
  | _ => false
  end.

(** [t.values(prefix)] *)
Definition values (t : node V) (prefix : str) : result (list V) :=
  match get_node (path_from_key prefix) t with
  | Some n => Ok (values_under n)
  | None => Raise KeyError
  end.

(** [t.longest_prefix(key).key]; [None] is the key of the empty step. *)
Definition longest_prefix_key (t : node V) (key : str) : option str :=
  let path := path_from_key key in
  match longest_on path t 0 None with
  | Some k => Some (key_from_path (firstn k path))
  | None => None
  end.

End StringTrie.

End Pygtrie.

(** ** Tokenization *)

Record stopwords := mk_stopwords {
  prepositions : list str;
  postpositions : list str
}.

(** What the code takes from [crud.utils], a module of the repository that
    is not among the sources: the default tables. *)
Record utils_module := mk_utils {
  utils_punctuations : list char;
  utils_numbers : list char;
  utils_stopwords : str -> stopwords
}.

(** The rows the code reads from the store. *)
Record Session := mk_session {
  translation_memory_tokens : str -> list str
}.

Definition space : str := [32%N].
Definition sentinel : str := py "###".

Definition build_memory_trie (translation_memory : list str)
    : Pygtrie.node Z :=
  fold_left
    (fun memory_trie token =>
       let key := re_sub_runs isspace [Pygtrie.separator] false token in
       Pygtrie.setitem memory_trie key 0)
    translation_memory Pygtrie.empty.

Inductive phrase_state := pre | post.

Fixpoint find_phrases_loop (stop_words : stopwords) (words : list str)
    (phrases : list str) (current_phrase : str) (state : phrase_state)
    : list str :=
  match words with
  | [] => phrases ++ [strip current_phrase]
  | word :: rest =>
    match state with
    | pre =>
      if str_in word (prepositions stop_words) then
        find_phrases_loop stop_words rest phrases
          (current_phrase ++ space ++ word) pre
      else
        find_phrases_loop stop_words rest phrases
          (current_phrase ++ space ++ word) post
    | post =>
      if str_in word (postpositions stop_words) then
        find_phrases_loop stop_words rest phrases
          (current_phrase ++ space ++ word) post
      else
        let phrases := phrases ++ [strip current_phrase] in
        if str_in word (prepositions stop_words) then
          find_phrases_loop stop_words rest phrases word pre
        else
          find_phrases_loop stop_words rest phrases word post
    end
  end.

Definition find_phrases (text : str) (stop_words : stopwords)
    (include_phrases : bool) : list str :=
  let words := split text in
  if negb include_phrases then words
  else find_phrases_loop stop_words words [] [] pre.

(** [new_chunks[-1] += piece] *)
Fixpoint append_to_last (new_chunks : list str) (piece : str) : list str :=
  match new_chunks with
  | [] => []
  | [c] => [c ++ piece]
  | c :: r => c :: append_to_last r piece
  end.

(** The [while] loop that consumes one chunk.  Every iteration shortens
    [temp] unless the matched key is empty, in which case the Python loop
    does not end; [fuel] is the length of the chunk. *)
Fixpoint memory_loop (memory_trie : Pygtrie.node Z) (fuel : nat) (temp : str)
    (new_chunks : list str) : result (list str) :=
  match temp with
  | [] => Ok new_chunks
  | _ :: _ =>
    match fuel with
    | O => Raise NonTermination
    | S fuel =>
      let key := join [Pygtrie.separator] (split temp) in
      match Pygtrie.longest_prefix_key memory_trie key with
      | Some lngst_key =>
        let new_chunks :=
          new_chunks
            ++ [sentinel ++ replace lngst_key [Pygtrie.separator] space] in
        let temp := temp<[len lngst_key :]> in
        memory_loop memory_trie fuel temp (new_chunks ++ [[]])
      | None =>
        match index_char 32%N temp with
        | Some indx =>
          let indx := Z.of_nat indx in
          memory_loop memory_trie fuel temp<[indx + 1 :]>
            (append_to_last new_chunks temp<[: indx + 1]>)
        | None => Ok (append_to_last new_chunks temp)
        end
      end
    end
  end.

Fixpoint memory_chunks (memory_trie : Pygtrie.node Z) (chunks : list str)
    (updated_chunks : list str) : result (list str) :=
  match chunks with
  | [] => Ok updated_chunks
  | chunk :: rest =>
    new_chunks <- memory_loop memory_trie (length chunk) chunk [[]] ;;
    memory_chunks memory_trie rest (updated_chunks ++ new_chunks)
  end.

Record occurrence := mk_occurrence {
  occ_sentenceId : Z;
  occ_offset : offset
}.

Record token_info := mk_token_info {
  occurrences : list occurrence;
  translations : list str
}.

Record sentence_input := mk_sentence_input {
  in_sentenceId : Z;
  in_sentence : str
}.

(** The [for phrase in phrases] loop that locates every phrase in the
    sentence and records the occurrence. *)
Fixpoint record_phrases (sent : sentence_input) (include_stopwords : bool)
    (sw_list : list str) (phrases : list str) (start : nat)
    (unique_tokens : list (str * token_info))
    : result (list (str * token_info)) :=
  match phrases with
  | [] => Ok unique_tokens
  | phrase :: rest =>
    if str_eqb (strip phrase) [] then
      record_phrases sent include_stopwords sw_list rest start unique_tokens
    else if negb include_stopwords && str_in phrase sw_list then
      record_phrases sent include_stopwords sw_list rest start unique_tokens
    else
      match find (in_sentence sent) phrase start with
      | None => Raise NotAvailableException
      | Some offset =>
        let start := S offset in
        let occ := mk_occurrence (in_sentenceId sent)
                     (Z.of_nat offset, Z.of_nat offset + len phrase) in
        let unique_tokens :=
          match dict_get phrase unique_tokens with
          | None => dict_set phrase (mk_token_info [occ] []) unique_tokens
          | Some info =>
            dict_set phrase
              (mk_token_info (occurrences info ++ [occ]) (translations info))
              unique_tokens
          end in
        record_phrases sent include_stopwords sw_list rest start unique_tokens
      end
  end.

Definition is_newline (c : char) : bool := ((c =? 10) || (c =? 13))%N.

Section Tokenize.

Variables (db_ : Session) (utils : utils_module).

(** The phrases of one sentence, before they are located in it. *)
Definition sentence_phrases (memory_trie : option (Pygtrie.node Z))
    (punctuations : list char) (stop_words : stopwords)
    (include_phrases : bool) (sent : sentence_input) : result (list str) :=
  let text := re_sub_runs is_newline space false (in_sentence sent) in
  cls <- compile_class punctuations ;;
  let chunks := map strip (re_split (class_matches cls) text) in
  chunks <-
    match memory_trie with
    | Some memory_trie =>
      updated_chunks <- memory_chunks memory_trie chunks [] ;;
      Ok (map strip
            (filter (fun chk => negb (str_eqb (strip chk) []))
               updated_chunks))
    | None => Ok chunks
    end ;;
  Ok (flat_map
        (fun chunk =>
           if startswith chunk sentinel then [replace chunk sentinel []]
           else find_phrases chunk stop_words include_phrases)
        chunks).

Fixpoint tokenize_loop (memory_trie : option (Pygtrie.node Z))
    (punctuations : list char) (stop_words : stopwords)
    (include_phrases include_stopwords : bool)
    (sent_list : list sentence_input)
    (unique_tokens : list (str * token_info))
    : result (list (str * token_info)) :=
  match sent_list with
  | [] => Ok unique_tokens
  | sent :: rest =>
    phrases <- sentence_phrases memory_trie punctuations stop_words
                 include_phrases sent ;;
    let sw_list := prepositions stop_words ++ postpositions stop_words in
    unique_tokens <- record_phrases sent include_stopwords sw_list phrases 0
                       unique_tokens ;;
    tokenize_loop memory_trie punctuations stop_words include_phrases
      include_stopwords rest unique_tokens
  end.

Definition tokenize (src_lang : str) (sent_list : list sentence_input)
    (use_translation_memory include_phrases include_stopwords : bool)
    (punctuations : option (list char)) (stop_words : option stopwords)
    : result (list (str * token_info)) :=
  let stop_words :=
    match stop_words with
    | None => utils_stopwords utils src_lang
    | Some sw => sw
    end in
  let punctuations :=
    match punctuations with
    | None => utils_punctuations utils ++ utils_numbers utils
    | Some p => p
    end in
  let memory_trie :=
    if use_translation_memory then
      Some (build_memory_trie (translation_memory_tokens db_ src_lang))
    else None in
  tokenize_loop memory_trie punctuations stop_words include_phrases
    include_stopwords sent_list [].

End Tokenize.

(** ** Context extraction *)

Definition extract_context (token : str) (offset : offset) (sentence : str)
    (window_size : Z) (punctuations : list char) : result (Z * list str) :=
  punct_pattern <- compile_class punctuations ;;
  let front := sentence<[: fst offset]> in
  let rear := sentence<[snd offset :]> in
  let front := filter (fun c => negb (class_matches punct_pattern c)) front in
  let rear := filter (fun c => negb (class_matches punct_pattern c)) rear in
  let front := split front in
  let rear := split rear in
  (* [len(front) >= window_size/2], a comparison with a float *)
  let front :=
    if window_size <=? 2 * len front then front<[- (window_size / 2) :]>
    else front in
  let rear :=
    if window_size <=? 2 * len rear then rear<[: (window_size + 1) / 2]>
    else rear in
  let index := len front in
  let context := front ++ [token] ++ rear in
  Ok (index, context).

(** ** Suggestion trie: key enumeration *)

Definition by_len_lt (x y : str) : bool := len x <? len y.

(** The closing loop of [form_trie_keys]: the leading keys of [sorted_keys]
    until the first one shorter than its predecessor. *)
Fixpoint take_longest (sorted_keys : list str) (prev_len : Z) : list str :=
  match sorted_keys with
  | [] => []
  | res :: rest =>
    if len res <? prev_len then []
    else res :: take_longest rest (len res)
  end.

Definition finish_keys (keys : list str) (only_longest : bool) : list str :=
  let sorted_keys := sorted_desc by_len_lt keys in
  if negb only_longest then sorted_keys
  else take_longest sorted_keys 0.

Definition left_mark : str := py "/L:".
Definition right_mark : str := py "/R:".

(** [form_trie_keys], by recursion on the two context lists: every call
    pops the head of each non-empty list and recurses on copies of what is
    left.  [rec] is the function on the popped lists. *)
Definition form_trie_keys_body (rec : str -> list str -> bool -> list str)
    (prefix : str) (a b : option str) (prev_keys : list str)
    (only_longest : bool) : list str :=
  let keys := prev_keys in
  let keys :=
    match a with
    | Some a =>
      let key_left := prefix ++ a in
      rec key_left (keys ++ [key_left]) only_longest
    | None => keys
    end in
  let keys :=
    match b with
    | Some b =>
      let key_right := prefix ++ b in
      rec key_right (keys ++ [key_right]) only_longest
    | None => keys
    end in
  let keys :=
    match a, b with
    | Some a, Some b =>
      let key_both_1 := prefix ++ a ++ b in
      let key_both_2 := prefix ++ b ++ a in
      let keys := keys ++ [key_both_1] ++ [key_both_2] in
      let keys := rec key_both_1 keys only_longest in
      rec key_both_2 keys only_longest
    | _, _ => keys
    end in
  finish_keys keys only_longest.

Fixpoint form_trie_keys_rec (to_left : list str)
    : list str -> str -> list str -> bool -> list str :=
  fix on_right (to_right : list str)
      : str -> list str -> bool -> list str :=
    fun prefix prev_keys only_longest =>
      match to_left, to_right with
      | [], [] =>
        finish_keys prev_keys only_longest
      | l :: to_left', [] =>
        form_trie_keys_body (form_trie_keys_rec to_left' [])
          prefix (Some (left_mark ++ l)) None prev_keys only_longest
      | [], r :: to_right' =>
        form_trie_keys_body (on_right to_right')
          prefix None (Some (right_mark ++ r)) prev_keys only_longest
      | l :: to_left', r :: to_right' =>
        form_trie_keys_body (form_trie_keys_rec to_left' to_right')
          prefix (Some (left_mark ++ l)) (Some (right_mark ++ r))
          prev_keys only_longest
      end.

Definition form_trie_keys (prefix : str) (to_left to_right : list str)
    (prev_keys : list str) (only_longest : bool) : list str :=
  form_trie_keys_rec to_left to_right prefix prev_keys only_longest.

(** ** Suggestion trie: learning *)

(** The first field of a training sample: the token, or its index. *)
Inductive token_ref :=
| Token (token : str)
| Index (index : Z).

(** [l[i]] *)
Definition list_getitem {A} (l : list A) (i : Z) : result A :=
  let j := if i <? 0 then i + len l else i in
  if j <? 0 then Raise IndexError
  else match nth_error l (Z.to_nat j) with
       | Some x => Ok x
       | None => Raise IndexError
       end.

(** [l.index(x)] *)
Fixpoint list_index (x : str) (l : list str) : result Z :=
  match l with
  | [] => Raise ValueError
  | y :: r => if str_eqb y x then Ok 0 else i <- list_index x r ;; Ok (i + 1)
  end.

(** Resolving a sample to [(token, token_index)]. *)
Definition resolve_token (ref : token_ref) (context : list str)
    : result (str * Z) :=
  match ref with
  | Token token => token_index <- list_index token context ;;
                   Ok (token, token_index)
  | Index token_index => token <- list_getitem context token_index ;;
                         Ok (token, token_index)
  end.

(** [[context[i] for i in range(index-1, -1, -1)]], for an index at which
    [context] has an element. *)
Definition context_to_left (context : list str) (index : Z) : list str :=
  rev (firstn (Z.to_nat index) context).

Definition float_of_Z (z : Z) : float := PrimFloat.of_uint63 (Uint63.of_Z z).

(** [a / b] on two integers: the correctly rounded quotient.  The
    embedding converts through [Uint63], which is exact for the naturals
    below [2^53] that the code divides (counts and lengths). *)
Definition true_div (a b : Z) : result float :=
  if b =? 0 then Raise ZeroDivisionError
  else Ok (PrimFloat.div (float_of_Z a) (float_of_Z b)).

Definition senses := list (str * float).
Definition suggestion_trie := Pygtrie.node senses.

(** The body of [for key in keys]; [1/no_of_keys] is computed where the
    code computes it. *)
Definition learn_key (translation : str) (no_of_keys : Z)
    (t : suggestion_trie) (key : str) : result suggestion_trie :=
  if Pygtrie.has_key t key then
    value <- Pygtrie.getitem t key ;;
    weight <- true_div 1 no_of_keys ;;
    let value :=
      match dict_get translation value with
      | Some w => dict_set translation (PrimFloat.add w weight) value
      | None => dict_set translation weight value
      end in
    Ok (Pygtrie.setitem t key value)
  else
    weight <- true_div 1 no_of_keys ;;
    Ok (Pygtrie.setitem t key [(translation, weight)]).

Fixpoint learn_keys (translation : str) (no_of_keys : Z)
    (t : suggestion_trie) (keys : list str) : result suggestion_trie :=
  match keys with
  | [] => Ok t
  | key :: rest =>
    t <- learn_key translation no_of_keys t key ;;
    learn_keys translation no_of_keys t rest
  end.

Definition sample := (token_ref * list str * str)%type.

Definition sample_keys (item : sample) : result (list str) :=
  let '(ref, context, _) := item in
  '(token, token_index) <- resolve_token ref context ;;
  let to_left := context_to_left context token_index in
  let to_right := context<[token_index + 1 :]> in
  Ok (form_trie_keys token to_left to_right [token] true).

Fixpoint build_trie_loop (t : suggestion_trie) (items : list sample)
    : result suggestion_trie :=
  match items with
  | [] => Ok t
  | item :: rest =>
    let translation := snd item in
    keys <- sample_keys item ;;
    let no_of_keys := len keys in
    t <- learn_keys translation no_of_keys t keys ;;
    build_trie_loop t rest
  end.

Definition build_trie (token_context__trans_list : list sample)
    : result suggestion_trie :=
  build_trie_loop Pygtrie.empty token_context__trans_list.

(** ** Suggestion lookup *)

Definition float_of_level (level : Z) : float := float_of_Z level.

(** [for sense in nod]: the scores and the total after one node. *)
Fixpoint score_senses (level : Z) (nod : senses)
    (trans : senses) (total : float) : senses * float :=
  match nod with
  | [] => (trans, total)
  | (sense, w) :: rest =>
    let gain := PrimFloat.mul (PrimFloat.mul w (float_of_level level))
                  (float_of_level level) in
    let trans :=
      match dict_get sense trans with
      | Some old => dict_set sense (PrimFloat.add old gain) trans
      | None => dict_set sense gain trans
      end in
    score_senses level rest trans (PrimFloat.add total w)
  end.

Fixpoint score_nodes (level : Z) (nodes : list senses) (trans : senses)
    (total : float) : senses * float :=
  match nodes with
  | [] => (trans, total)
  | nod :: rest =>
    let '(trans, total) := score_senses level nod trans total in
    score_nodes level rest trans total
  end.

Fixpoint score_keys (tree : suggestion_trie) (keys : list str)
    (trans : senses) (total : float) : result (senses * float) :=
  match keys with
  | [] => Ok (trans, total)
  | key :: rest =>
    if Pygtrie.has_subtrie tree key || Pygtrie.has_key tree key then
      nodes <- Pygtrie.values tree key ;;
      let level := len (split_on Pygtrie.separator key) in
      let '(trans, total) := score_nodes level nodes trans total in
      score_keys tree rest trans total
    else score_keys tree rest trans total
  end.

Definition by_score_lt (x y : str * float) : bool :=
  PrimFloat.ltb (snd x) (snd y).

(** [x / total] on floats. *)
Definition float_div (x total : float) : result float :=
  if PrimFloat.eqb total 0 then Raise ZeroDivisionError
  else Ok (PrimFloat.div x total).

Fixpoint normalise (sorted_trans : senses) (total : float) : result senses :=
  match sorted_trans with
  | [] => Ok []
  | (sense, score) :: rest =>
    s <- float_div score total ;;
    r <- normalise rest total ;;
    Ok ((sense, s) :: r)
  end.

(** The arguments [db_], [source_lang] and [target_lang] of the Python
    function are not used by it and are left out. *)
Definition get_translation_suggestion (index : token_ref)
    (context : list str) (tree : suggestion_trie) : result senses :=
  '(word, index) <-
    match index with
    | Index i => word <- list_getitem context i ;; Ok (word, i)
    | Token word => i <- list_index word context ;; Ok (word, i)
    end ;;
  let to_left := context_to_left context index in
  let to_right := context<[index + 1 :]> in
  let keys := form_trie_keys word to_left to_right [word] false in
  '(trans, total) <- score_keys tree keys [] 0%float ;;
  let sorted_trans := sorted_desc by_score_lt trans in
  normalise sorted_trans total.

(** ** Auto-translation *)

Record language := mk_language {
  code : str;
  language_name : str
}.

(** A row of the drafts table; [draft] and [draftMeta] may be null. *)
Record draft_row := mk_row {
  sentenceId : Z;
  surrogateId : str;
  sentence : str;
  draft : option str;
  draftMeta : option (list segment)
}.

(** The three ways [auto_translate] obtains its trie.  The module-level
    dictionary [suggestion_trie_in_mem] is a parameter; [file_exists] is the
    answer of [os.path.exists].  The cached trie is read under the key
    ['model'], and the branch that loads the file calls [json], a name the
    module does not import. *)
Definition load_suggestion_trie
    (suggestion_trie_in_mem : list (str * suggestion_trie))
    (file_exists : bool) (source_lang : language) : result suggestion_trie :=
  match dict_get (code source_lang) suggestion_trie_in_mem with
  | Some _ =>
    match dict_get (py "model") suggestion_trie_in_mem with
    | Some sugg_trie => Ok sugg_trie
    | None => Raise KeyError
    end
  | None =>
    if file_exists then Raise NameError else Ok Pygtrie.empty
  end.

Section AutoTranslate.

Variables (db_ : Session) (utils : utils_module).
Variable sugg_trie : suggestion_trie.

(** The body of [for occurence in tokens[token]['occurrences']]. *)
Definition translate_occurrence (sent : draft_row) (token : str)
    (occurence : occurrence) : result draft_row :=
  let offset := occ_offset occurence in
  '(index, context) <-
    extract_context token offset (sentence sent) 5
      (utils_punctuations utils ++ utils_numbers utils) ;;
  suggestions <- get_translation_suggestion (Index index) context sugg_trie ;;
  match suggestions with
  | (top, _) :: _ =>
    '(new_draft, meta) <-
      replace_token (sentence sent) offset top (draft sent) (draftMeta sent)
        suggestion ;;
    Ok (mk_row (sentenceId sent) (surrogateId sent) (sentence sent)
          (Some new_draft) (Some meta))
  | [] =>
    match draft sent with
    | None | Some [] =>
      let offset := (0, len (sentence sent)) in
      Ok (mk_row (sentenceId sent) (surrogateId sent) (sentence sent)
            (Some (sentence sent)) (Some [(offset, offset, untranslated)]))
    | Some _ => Ok sent
    end
  end.

Fixpoint translate_occurrences (sent : draft_row) (token : str)
    (occs : list occurrence) : result draft_row :=
  match occs with
  | [] => Ok sent
  | occurence :: rest =>
    sent <- translate_occurrence sent token occurence ;;
    translate_occurrences sent token rest
  end.

Fixpoint translate_tokens (sent : draft_row)
    (tokens : list (str * token_info)) : result draft_row :=
  match tokens with
  | [] => Ok sent
  | (token, info) :: rest =>
    sent <- translate_occurrences sent token (occurrences info) ;;
    translate_tokens sent rest
  end.

Fixpoint translate_sentences (src_lang : str)
    (punctuations : option (list char)) (stop_words : option stopwords)
    (sentence_list : list draft_row) : result (list draft_row) :=
  match sentence_list with
  | [] => Ok []
  | sent :: rest =>
    tokens <- tokenize db_ utils src_lang
                [mk_sentence_input (sentenceId sent) (sentence sent)]
                true true true punctuations stop_words ;;
    sent <- translate_tokens sent tokens ;;
    rest <- translate_sentences src_lang punctuations stop_words rest ;;
    Ok (sent :: rest)
  end.

End AutoTranslate.

Definition auto_translate (db_ : Session) (utils : utils_module)
    (suggestion_trie_in_mem : list (str * suggestion_trie))
    (file_exists : bool)
    (sentence_list : list draft_row) (source_lang target_lang : language)
    (punctuations : option (list char)) (stop_words : option stopwords)
    : result (list draft_row) :=
  sugg_trie <- load_suggestion_trie suggestion_trie_in_mem file_exists
                 source_lang ;;
  (* [if punctuations:] passes a non-empty list only *)
  let punctuations :=
    match punctuations with
    | Some (_ :: _) => punctuations
    | _ => None
    end in
  translate_sentences db_ utils sugg_trie (code source_lang) punctuations
    stop_words sentence_list.

(** ** Progress *)

Record progress := mk_progress {
  progress_confirmed : float;
  progress_suggestion : float;
  progress_untranslated : float
}.

(** The three running lengths after the segments of one row. *)
Fixpoint count_segments (segments : list segment) (acc : Z * Z * Z)
    : Z * Z * Z :=
  match segments with
  | [] => acc
  | segment :: rest =>
    let '(confirmed_length, suggestions_length, untranslated_length) := acc in
    let token_len := snd (src_of segment) - fst (src_of segment) in
    if token_len <=? 1 then count_segments rest acc
    else if str_eqb (status_of segment) confirmed then
      count_segments rest
        (confirmed_length + token_len, suggestions_length,
         untranslated_length)
    else if str_eqb (status_of segment) suggestion then
      count_segments rest
        (confirmed_length, suggestions_length + token_len,
         untranslated_length)
    else
      count_segments rest
        (confirmed_length, suggestions_length,
         untranslated_length + token_len)
  end.

Fixpoint count_rows (draft_rows : list draft_row) (acc : Z * Z * Z)
    : result (Z * Z * Z) :=
  match draft_rows with
  | [] => Ok acc
  | row :: rest =>
    match draftMeta row with
    | None => Raise TypeError
    | Some segments => count_rows rest (count_segments segments acc)
    end
  end.

Record translation_project := mk_project {
  projectId : Z;
  projectName : str
}.

(** [project_row] and [draft_rows] are what the two queries of the function
    return for its arguments. *)
Definition obtain_agmt_progress (project_row : option translation_project)
    (draft_rows : list draft_row) : result progress :=
  match project_row with
  | None => Raise NotAvailableException
  | Some _ =>
    '(confirmed_length, suggestions_length, untranslated_length) <-
      count_rows draft_rows (0, 0, 0) ;;
    let total_length :=
      confirmed_length + suggestions_length + untranslated_length in
    c <- true_div confirmed_length total_length ;;
    s <- true_div suggestions_length total_length ;;
    u <- true_div untranslated_length total_length ;;
    Ok (mk_progress c s u)
  end.

(** ** JSON alignment export *)

Inductive json :=
| JNone
| JBool (b : bool)
| JInt (z : Z)
| JFloat (f : float)
| JStr (s : str)
| JList (l : list json)
| JDict (d : list (str * json)).

(** The dictionary [algmt] of one draft-meta entry. *)
Definition alignment_entry (i : Z) (meta : segment) : list (str * json) :=
  let algmt := [(py "r0", JList [JInt i]);
                (py "r1", JList [JInt i]);
                (py "status", JStr (status_of meta))] in
  if str_eqb (status_of meta) confirmed then
    dict_set (py "verfied") (JBool true) (dict_set (py "score") (JInt 1) algmt)
  else if str_eqb (status_of meta) suggestion then
    dict_set (py "verified") (JBool false)
      (dict_set (py "score") (JFloat 0.5) algmt)
  else
    dict_set (py "verified") (JBool false)
      (dict_set (py "score") (JInt 0) algmt).

(** [for i, meta in enumerate(row.draftMeta)]: the source tokens, the
    target tokens and the alignments collected so far.  Slicing a null
    draft is a [TypeError]. *)
Fixpoint export_segments (row_sentence : str) (row_draft : option str)
    (i : Z) (metas : list segment) (acc : list json * list json * list json)
    : result (list json * list json * list json) :=
  match metas with
  | [] => Ok acc
  | meta :: rest =>
    let '(r0_tokens, r1_tokens, alignments) := acc in
    let src_token :=
      row_sentence<[fst (src_of meta) : snd (src_of meta)]> in
    match row_draft with
    | None => Raise TypeError
    | Some d =>
      let trg_token := d<[fst (dst_of meta) : snd (dst_of meta)]> in
      export_segments row_sentence row_draft (i + 1) rest
        (r0_tokens ++ [JStr src_token], r1_tokens ++ [JStr trg_token],
         alignments ++ [JDict (alignment_entry i meta)])
    end
  end.

Definition resource_obj (text : json) (tokens : list json)
    (context_id : str) : json :=
  JDict [(py "text", text);
         (py "tokens", JList tokens);
         (py "metadata", JDict [(py "contextId", JStr context_id)])].

Definition export_row (row : draft_row) : result json :=
  match draftMeta row with
  | None => Raise TypeError
  | Some metas =>
    '(r0_tokens, r1_tokens, alignments) <-
      export_segments (sentence row) (draft row) 0 metas ([], [], []) ;;
    let draft_text :=
      match draft row with Some d => JStr d | None => JNone end in
    Ok (JDict
          [(py "resources",
            JDict [(py "r0",
                    resource_obj (JStr (sentence row)) r0_tokens
                      (surrogateId row));
                   (py "r1",
                    resource_obj draft_text r1_tokens (surrogateId row))]);
           (py "alignments", JList alignments)])
  end.

Fixpoint export_rows (sentence_list : list draft_row) : result (list json) :=
  match sentence_list with
  | [] => Ok []
  | row :: rest =>
    row_obj <- export_row row ;;
    segs <- export_rows rest ;;
    Ok (row_obj :: segs)
  end.

(** The output dictionary has the key [metadata]; the two language branches
    index it with [metaData]. *)
Definition export_to_json (source_lang target_lang : option language)
    (sentence_list : list draft_row) (last_modified : json) : result json :=
  match source_lang, target_lang with
  | Some _, _ | _, Some _ => Raise KeyError
  | None, None =>
    segs <- export_rows sentence_list ;;
    Ok (JDict
          [(py "metadata",
            JDict [(py "resources",
                    JDict [(py "r0", JDict []); (py "r1", JDict [])]);
                   (py "modified", last_modified)]);
           (py "segments", JList segs)])
  end.

(** ** Vocabulary of the statements and scenario data *)

(** [chain a rs b]: the ranges [rs] are ordered and adjacent, and run from
    [a] to [b]. *)
Fixpoint chain (a : Z) (rs : list offset) (b : Z) : Prop :=
  match rs with
  | [] => a = b
  | r :: rest => fst r = a /\ a <= snd r /\ chain (snd r) rest b
  end.

(** The draft-meta invariant of the data model: the source ranges partition
    the sentence and the target ranges partition the draft. *)
Definition covers (source draft : str) (meta : list segment) : Prop :=
  chain 0 (map src_of meta) (len source)
  /\ chain 0 (map dst_of meta) (len draft).

Definition dst_slices (d : str) (meta : list segment) : list str :=
  map (fun m => d<[fst (dst_of m) : snd (dst_of m)]>) meta.

(** How [updated_meta] holds a segment copied unchanged, and one whose
    target range is moved by [delta]. *)
Definition lit (m : segment) : pending :=
  (src_of m, Some (dst_of m), status_of m).

Definition shifted (delta : Z) (m : segment) : pending :=
  (src_of m, Some (fst (dst_of m) + delta, snd (dst_of m) + delta),
   status_of m).

(** Whenever [updated_meta] holds the list object [translation_offset],
    both of its cells hold integers. *)
Definition shared_is_set (st : rt_state) : Prop :=
  forall src status, In (src, None, status) (updated_meta st) ->
  exists t0 t1, translation_offset st = (Some t0, Some t1).

(** The entries written for the part of the segment before the token and
    for the part after it. *)
Definition leading (s a c : Z) : list pending :=
  if s =? a then []
  else [((a, s), Some (c, c + (s - a)), untranslated)].

Definition trailing (e b t1 : Z) : list pending :=
  if e =? b then []
  else [((e, b), Some (t1, t1 + (b - e)), untranslated)].

(** Every recorded occurrence points at its token in a sentence of the
    input list. *)
Definition round_trip (sent_list : list sentence_input)
    (tokens : list (str * token_info)) : Prop :=
  forall token info occ,
    In (token, info) tokens -> In occ (occurrences info) ->
    exists sent,
      In sent sent_list
      /\ in_sentenceId sent = occ_sentenceId occ
      /\ (in_sentence sent)<[fst (occ_offset occ) : snd (occ_offset occ)]>
         = token.

(** The sentence and the stopwords of the first scenario. *)
Definition fresh_sentence : str := py "जीवन के वचन को देखो".
Definition fresh_stopwords : stopwords :=
  mk_stopwords [py "के"] [py "को"].

(** Tables and a store to run scenarios with: ASCII punctuation and the
    danda, the digits, no default stopwords, an empty translation memory. *)
Definition scenario_utils : utils_module :=
  mk_utils (py ",.;:!?।") (py "0123456789") (fun _ => mk_stopwords [] []).
Definition empty_store : Session := mk_session (fun _ => []).

Definition token_names (r : result (list (str * token_info)))
    : result (list str) :=
  tokens <- r ;; Ok (map fst tokens).

(** The training sample of the fifth scenario and its two keys. *)
Definition abc_context : list str := [py "a"; py "b"; py "c"].
Definition abc_sample : sample := (Index 1, abc_context, py "B").
Definition key_left_right : str := py "b/L:a/R:c".
Definition key_right_left : str := py "b/R:c/L:a".

(** The trie that holds ["B"] with weight 0.5 under the two keys and
    nothing else. *)
Definition learned_trie : suggestion_trie :=
  Pygtrie.setitem
    (Pygtrie.setitem Pygtrie.empty key_left_right [(py "B", 0.5%float)])
    key_right_left [(py "B", 0.5%float)].

Definition english : language := mk_language (py "en") (py "English").
Definition hindi : language := mk_language (py "hi") (py "Hindi").

(** A sentence whose middle word the user has confirmed as ["X"], and the
    cache holding the learned trie. *)
Definition confirmed_row : draft_row :=
  mk_row 1 (py "gen,1,1") (py "a b c") (Some (py "a X c"))
    (Some [((0, 2), (0, 2), untranslated); ((2, 3), (2, 3), confirmed);
           ((3, 5), (3, 5), untranslated)]).

Definition loaded_cache : list (str * suggestion_trie) :=
  [(py "en", learned_trie); (py "model", learned_trie)].

(** A sentence whose only token the user has confirmed as the empty
    string. *)
Definition emptied_row : draft_row :=
  mk_row 2 (py "gen,1,2") (py "abc") (Some [])
    (Some [((0, 3), (0, 0), confirmed)]).

(** * Further definitions *)

(** ** Vocabulary of the further statements on the splicer *)

(** A segment whose target range is moved by [delta]. *)
Definition shift_segment (delta : Z) (m : segment) : segment :=
  (src_of m, (fst (dst_of m) + delta, snd (dst_of m) + delta), status_of m).

(** The untranslated part of the segment [[a, b)] that precedes a token
    starting at [s], the target range starting at [c]; empty when the token
    starts with the segment. *)
Definition prefix_segment (s a c : Z) : list segment :=
  if s =? a then [] else [((a, s), (c, c + (s - a)), untranslated)].

(** The untranslated part that follows a token ending at [e], the target
    range starting at [t1]; empty when the token ends with the segment. *)
Definition suffix_segment (e b t1 : Z) : list segment :=
  if e =? b then [] else [((e, b), (t1, t1 + (b - e)), untranslated)].

(** ** Vocabulary of the further statements on the tokenizer *)

(** A word as [str.split] returns it: not empty and free of whitespace. *)
Definition is_word (w : str) : Prop :=
  w <> [] /\ Forall (fun c => isspace c = false) w.

(** [Q] holds of every recorded occurrence of every token. *)
Definition each_occurrence (Q : str -> occurrence -> Prop)
    (tokens : list (str * token_info)) : Prop :=
  forall token info occ,
    In (token, info) tokens -> In occ (occurrences info) -> Q token occ.

(** The stopwords [tokenize] works with. *)
Definition effective_stopwords (utils : utils_module) (src_lang : str)
    (stop_words : option stopwords) : stopwords :=
  match stop_words with
  | None => utils_stopwords utils src_lang
  | Some sw => sw
  end.

(** No token is blank, every token occurs, and no token is a stopword when
    stopwords are excluded. *)
Definition proper_tokens (include_stopwords : bool) (sw : stopwords)
    (tokens : list (str * token_info)) : Prop :=
  forall token info, In (token, info) tokens ->
    occurrences info <> []
    /\ strip token <> []
    /\ (include_stopwords = false ->
        str_in token (prepositions sw ++ postpositions sw) = false).

(** The offset of [occ] is a range, as long as [token], of a sentence of
    the list that has the recorded id. *)
Definition occurrence_in_range (sent_list : list sentence_input)
    (token : str) (occ : occurrence) : Prop :=
  exists sent,
    In sent sent_list
    /\ in_sentenceId sent = occ_sentenceId occ
    /\ 0 <= fst (occ_offset occ)
    /\ snd (occ_offset occ) = fst (occ_offset occ) + len token
    /\ snd (occ_offset occ) <= len (in_sentence sent).

(** ** Vocabulary of the further statements on the suggestion trie *)

(** Every key is at least as long as those after it. *)
Fixpoint desc_len (l : list str) : Prop :=
  match l with
  | [] => True
  | x :: r => (forall y, In y r -> len y <= len x) /\ desc_len r
  end.

(** All keys have one length. *)
Definition same_len (l : list str) : Prop :=
  forall k1 k2, In k1 l -> In k2 l -> len k1 = len k2.

(** The key under which [build_memory_trie] files a token. *)
Definition memory_key (token : str) : str :=
  re_sub_runs isspace [Pygtrie.separator] false token.

(** A text whose last character, if any, is not whitespace. *)
Definition ends_word (s : str) : Prop :=
  match rev s with
  | [] => True
  | c :: _ => isspace c = false
  end.

(** The node at [path] carries a value. *)
Definition has_value {V} (path : list str) (n : Pygtrie.node V) : Prop :=
  exists v ch, Pygtrie.get_node path n = Some (Pygtrie.Node (Some v) ch).

(** ** Training data from drafts *)

Section TrainingData.

Variable utils : utils_module.

(** [for meta in row.draftMeta] of [get_training_data_from_drafts]. *)
Fixpoint training_data_of_row (source : str) (window_size : Z)
    (metas : list segment) (training_data : list (Z * list str))
    : result (list (Z * list str)) :=
  match metas with
  | [] => Ok training_data
  | meta :: rest =>
    if str_eqb (status_of meta) confirmed then
      let token := source<[fst (src_of meta) : snd (src_of meta)]> in
      '(index, context) <-
        extract_context token (src_of meta) source window_size
          (utils_punctuations utils ++ utils_numbers utils) ;;
      training_data_of_row source window_size rest
        (training_data ++ [(index, context)])
    else training_data_of_row source window_size rest training_data
  end.

Fixpoint training_data_loop (sentence_list : list draft_row)
    (window_size : Z) (training_data : list (Z * list str))
    : result (list (Z * list str)) :=
  match sentence_list with
  | [] => Ok training_data
  | row :: rest =>
    match draftMeta row with
    | None => Raise TypeError
    | Some metas =>
      training_data <- training_data_of_row (sentence row) window_size metas
                         training_data ;;
      training_data_loop rest window_size training_data
    end
  end.

Definition get_training_data_from_drafts (sentence_list : list draft_row)
    (window_size : Z) : result (list (Z * list str)) :=
  training_data_loop sentence_list window_size [].

End TrainingData.

(** ** Plain exports of [obtain_draft] *)

Definition comma : str := py ",".
Definition line_feed : str := [10%N].
Definition full_stop : str := py ".".

(** [a + b] where [b] may be [None]. *)
Definition concat_draft (a : str) (b : option str) : result str :=
  match b with
  | Some d => Ok (a ++ d)
  | None => Raise TypeError
  end.

(** The branch [doc_type == TranslationDocumentType.CSV]. *)
Fixpoint obtain_draft_csv (sentence_list : list draft_row) (result_ : str)
    : result str :=
  match sentence_list with
  | [] => Ok result_
  | sent :: rest =>
    line <- concat_draft (surrogateId sent ++ comma ++ sentence sent ++ comma)
              (draft sent) ;;
    obtain_draft_csv rest (result_ ++ line ++ line_feed)
  end.

(** The loop of the branch [doc_type == TranslationDocumentType.TEXT];
    [prev_id] is [None] before the first sentence. *)
Fixpoint obtain_draft_text_loop (punct_pattern : char_class)
    (sentence_list : list draft_row) (result_ : str) (prev_id : option Z)
    : result str :=
  match sentence_list with
  | [] => Ok result_
  | sent :: rest =>
    let result_ :=
      match prev_id with
      | Some p => if sentenceId sent - p >? 1 then result_ ++ line_feed
                  else result_
      | None => result_
      end in
    result_ <- concat_draft result_ (draft sent) ;;
    last <- list_getitem (match draft sent with Some d => d | None => [] end)
              (-1) ;;
    let result_ :=
      if negb (class_matches punct_pattern last) then result_ ++ full_stop
      else result_ in
    obtain_draft_text_loop punct_pattern rest (result_ ++ space)
      (Some (sentenceId sent))
  end.

Definition obtain_draft_text (utils : utils_module)
    (sentence_list : list draft_row) : result str :=
  punct_pattern <- compile_class
                     (utils_punctuations utils ++ utils_numbers utils) ;;
  obtain_draft_text_loop punct_pattern sentence_list [] None.

(** ** Vocabulary of the further statements on progress and exports *)

(** The text of a JSON string. *)
Definition json_text (j : json) : str :=
  match j with
  | JStr s => s
  | _ => []
  end.

(** Number of confirmed segments of a row; 0 for a null meta. *)
Definition confirmed_segments (row : draft_row) : list segment :=
  match draftMeta row with
  | Some metas => filter (fun m => str_eqb (status_of m) confirmed) metas
  | None => []
  end.

(** The sample [(index, context)] names the source text of a confirmed
    segment of one of the rows. *)
Definition sample_of_confirmed (sentence_list : list draft_row)
    (item : Z * list str) : Prop :=
  exists row seg,
    In row sentence_list /\ In seg (confirmed_segments row)
    /\ list_getitem (snd item) (fst item)
       = Ok (sentence row)<[fst (src_of seg) : snd (src_of seg)]>.

(** Every draft is a non-empty string. *)
Definition drafts_written (sentence_list : list draft_row) : Prop :=
  Forall (fun row => exists d, draft row = Some d /\ d <> []) sentence_list.

(** ** Selecting and suggesting: [obtain_agmt_source],
    [agmt_suggest_translations] *)

(** A project row, with the language rows it refers to and its JSON
    metadata, a dictionary or null. *)
Record project := mk_project_row {
  project_source_lang_id : Z;
  project_target_lang_id : Z;
  project_sourceLanguage : language;
  project_targetLanguage : language;
  project_metaData : option (list (str * json))
}.

(** A row of the translation memory: its [translations] map a translation
    to its ["frequency"]. *)
Record memory_row := mk_memory_row {
  mem_source_lang_id : Z;
  mem_target_lang_id : Z;
  mem_token : str;
  mem_translations : list (str * Z);
  mem_metaData : option json
}.

(** The tables these functions use: the project of an id, the draft rows
    of a project in the order the store returns them, the id of a book
    code, and the translation memory. *)
Record Store := mk_store {
  store_project : Z -> option project;
  store_drafts : Z -> list draft_row;
  store_bookId : str -> option Z;
  store_memory : list memory_row
}.

(** [book_filters]: the id ranges of the books, or the first code that is
    not in the store. *)
Fixpoint book_ranges (db_ : Store) (books : list str)
    : result (list (Z * Z)) :=
  match books with
  | [] => Ok []
  | buk :: rest =>
    match store_bookId db_ buk with
    | None => Raise NotAvailableException
    | Some book_id =>
      ranges <- book_ranges db_ rest ;;
      Ok ((book_id * 1000000, book_id * 1000000 + 999999) :: ranges)
    end
  end.

(** [x.between(a, b)] *)
Definition between (x a b : Z) : bool := (a <=? x) && (x <=? b).

(** The rows [sentence_query.all()] of [obtain_agmt_source], which the
    function returns as they are when [with_draft] is set. *)
Definition obtain_agmt_source (db_ : Store) (project_id : Z)
    (books : list str) (sentence_id_list sentence_id_range : list Z)
    : result (list draft_row) :=
  let rows := store_drafts db_ project_id in
  match books with
  | _ :: _ =>
    ranges <- book_ranges db_ books ;;
    Ok (filter
          (fun row =>
             existsb (fun r => between (sentenceId row) (fst r) (snd r))
               ranges)
          rows)
  | [] =>
    match sentence_id_range with
    | _ :: _ =>
      lo <- list_getitem sentence_id_range 0 ;;
      hi <- list_getitem sentence_id_range 1 ;;
      Ok (filter (fun row => between (sentenceId row) lo hi) rows)
    | [] =>
      match sentence_id_list with
      | _ :: _ =>
        Ok (filter
              (fun row => existsb (Z.eqb (sentenceId row)) sentence_id_list)
              rows)
      | [] => Ok rows
      end
    end
  end.

(** Exceptions of the functions below: those of [error], and the
    [AttributeError] of reading an attribute that a [dict] does not
    have. *)
Inductive exception :=
| Known (e : error)
| AttributeError.

Inductive outcome (A : Type) :=
| Returns (a : A)
| Raises (x : exception).
Arguments Returns {A} a.
Arguments Raises {A} x.

Definition of_result {A} (r : result A) : outcome A :=
  match r with
  | Ok a => Returns a
  | Raise e => Raises (Known e)
  end.

(** [if meta[2] == "suggestion": row.draftMeta[i][2] = "confirmed"] *)
Definition confirm_segment (meta : segment) : segment :=
  if str_eqb (status_of meta) suggestion
  then (src_of meta, dst_of meta, confirmed)
  else meta.

Definition confirm_row (row : draft_row) : result draft_row :=
  match draftMeta row with
  | None => Raise TypeError
  | Some metas =>
    Ok (mk_row (sentenceId row) (surrogateId row) (sentence row) (draft row)
          (Some (map confirm_segment metas)))
  end.

Fixpoint confirm_rows (draft_rows : list draft_row)
    : result (list draft_row) :=
  match draft_rows with
  | [] => Ok []
  | row :: rest =>
    row <- confirm_row row ;;
    rest <- confirm_rows rest ;;
    Ok (row :: rest)
  end.

Definition dict_has {V} (k : str) (d : list (str * V)) : bool :=
  match dict_get k d with Some _ => true | None => false end.

(** [agmt_suggest_translations].  The call of [obtain_agmt_source] passes
    [sentence_id_range] and [sentence_id_list] by position, in the order
    opposite to that of its parameters.  [memory] is the view of the same
    database that [tokenize] reads. *)
Definition agmt_suggest_translations (db_ : Store) (memory : Session)
    (utils : utils_module)
    (suggestion_trie_in_mem : list (str * suggestion_trie))
    (file_exists : bool) (project_id : Z) (books : list str)
    (sentence_id_range sentence_id_list : list Z) (confirm_all : bool)
    : outcome (list draft_row) :=
  match store_project db_ project_id with
  | None => Raises (Known NotAvailableException)
  | Some project_row =>
    match obtain_agmt_source db_ project_id books sentence_id_range
            sentence_id_list with
    | Raise e => Raises (Known e)
    | Ok draft_rows =>
      if confirm_all then of_result (confirm_rows draft_rows)
      else
        match project_metaData project_row with
        | None => Raises (Known TypeError)
        | Some metaData =>
          if dict_has (py "stopwords") metaData then Raises AttributeError
          else if dict_has (py "punctuations") metaData
          then Raises AttributeError
          else
            of_result
              (auto_translate memory utils suggestion_trie_in_mem
                 file_exists draft_rows (project_sourceLanguage project_row)
                 (project_targetLanguage project_row) None None)
        end
    end
  end.

(** ** Vocabulary of the further statements on suggesting *)

(** [row'] is [row] with its suggestions confirmed: same sentence and
    draft, same ranges, no segment tagged [suggestion], and every other
    segment as it was. *)
Definition confirmed_version (row row' : draft_row) : Prop :=
  sentenceId row' = sentenceId row
  /\ sentence row' = sentence row
  /\ draft row' = draft row
  /\ exists metas metas',
       draftMeta row = Some metas /\ draftMeta row' = Some metas'
       /\ map src_of metas' = map src_of metas
       /\ map dst_of metas' = map dst_of metas
       /\ Forall (fun m => status_of m <> suggestion) metas'
       /\ Forall2 (fun m m' =>
            (status_of m <> suggestion -> m' = m)
            /\ (status_of m = suggestion -> status_of m' = confirmed))
            metas metas'.

(** A store to run the statements on suggesting with: project 1 has three
    sentences, the second of which holds a suggestion; project 2 has
    stopwords in its metadata. *)
Definition suggested_row : draft_row :=
  mk_row 11 (py "gen,1,11") (py "a b c") (Some (py "a X c"))
    (Some [((0, 2), (0, 2), untranslated); ((2, 3), (2, 3), suggestion);
           ((3, 5), (3, 5), untranslated)]).

Definition accepted_row : draft_row :=
  mk_row 11 (py "gen,1,11") (py "a b c") (Some (py "a X c"))
    (Some [((0, 2), (0, 2), untranslated); ((2, 3), (2, 3), confirmed);
           ((3, 5), (3, 5), untranslated)]).

Definition numbered_row (id : Z) : draft_row :=
  mk_row id (py "gen,1") (py "abc") (Some (py "abc"))
    (Some [((0, 3), (0, 3), untranslated)]).

Definition scenario_db : Store :=
  mk_store
    (fun project_id =>
       if project_id =? 1 then Some (mk_project_row 1 2 english hindi None)
       else if project_id =? 2
       then Some (mk_project_row 1 2 english hindi
                    (Some [(py "stopwords", JDict [])]))
       else None)
    (fun project_id =>
       if project_id =? 1
       then [numbered_row 10; suggested_row; numbered_row 12]
       else [])
    (fun _ => None)
    [].

(** A store whose projects have empty metadata and the same three
    sentences. *)
Definition plain_db : Store :=
  mk_store
    (fun _ => Some (mk_project_row 1 2 english hindi (Some [])))
    (fun _ => [numbered_row 10; suggested_row; numbered_row 12])
    (fun _ => None)
    [].

(** ** Saving translations: [save_agmt_translations] *)

(** A token of the request: the token, its translation, and the
    occurrences to replace. *)
Record token_translation := mk_token_translation {
  tt_token : str;
  tt_translation : str;
  tt_occurrences : list occurrence
}.

(** [query(TranslationDraft).filter(sentenceId == id).first()] on the rows
    of the project, and the assignment to the row it returns. *)
Definition find_row (id : Z) (rows : list draft_row) : option draft_row :=
  List.find (fun row => sentenceId row =? id) rows.

Fixpoint update_row (id : Z) (new_row : draft_row) (rows : list draft_row)
    : list draft_row :=
  match rows with
  | [] => []
  | row :: rest =>
    if sentenceId row =? id then new_row :: rest
    else row :: update_row id new_row rest
  end.

(** [for occur in token.occurrences].  [db_content] lists the rows by
    their sentence id: the rows are the objects of the session, one for
    each sentence id queried. *)
Fixpoint save_occurrences (translation : str) (occs : list occurrence)
    (rows : list draft_row) (db_content : list Z)
    : result (list draft_row * list Z) :=
  match occs with
  | [] => Ok (rows, db_content)
  | occur :: rest =>
    match find_row (occ_sentenceId occur) rows with
    | None => Raise NotAvailableException
    | Some draft_row =>
      '(draft, meta) <- replace_token (sentence draft_row) (occ_offset occur)
                          translation (draft draft_row)
                          (draftMeta draft_row) confirmed ;;
      let draft_row :=
        mk_row (sentenceId draft_row) (surrogateId draft_row)
          (sentence draft_row) (Some draft) (Some meta) in
      save_occurrences translation rest
        (update_row (occ_sentenceId occur) draft_row rows)
        (db_content ++ [occ_sentenceId occur])
    end
  end.

(** The memory rows of a token between two languages, and those of the
    token in the source language. *)
Definition same_entry (src trg : Z) (token : str) (r : memory_row) : bool :=
  (mem_source_lang_id r =? src) && (mem_target_lang_id r =? trg)
  && str_eqb (mem_token r) token.

Definition same_source (src : Z) (token : str) (r : memory_row) : bool :=
  (mem_source_lang_id r =? src) && str_eqb (mem_token r) token.

(** The [else] branch of [if not memory_row]: the first row of the entry
    with the translation counted [n] more times; [None] when the entry has
    no row. *)
Fixpoint count_translation (src trg : Z) (token translation : str) (n : Z)
    (memory : list memory_row) : option (list memory_row) :=
  match memory with
  | [] => None
  | memory_row :: rest =>
    if same_entry src trg token memory_row then
      let frequency :=
        match dict_get translation (mem_translations memory_row) with
        | None => n
        | Some old_freq => old_freq + n
        end in
      Some (mk_memory_row (mem_source_lang_id memory_row)
              (mem_target_lang_id memory_row) (mem_token memory_row)
              (dict_set translation frequency (mem_translations memory_row))
              (mem_metaData memory_row)
            :: rest)
    else
      match count_translation src trg token translation n rest with
      | Some rest' => Some (memory_row :: rest')
      | None => None
      end
  end.

(** The block [if use_data:]. *)
Definition update_memory (src trg : Z) (token translation : str) (n : Z)
    (memory : list memory_row) : list memory_row :=
  match count_translation src trg token translation n memory with
  | Some memory' => memory'
  | None =>
    let metaData :=
      match List.find (same_source src token) memory with
      | Some other_lang => mem_metaData other_lang
      | None => None
      end in
    memory ++ [mk_memory_row src trg token [(translation, n)] metaData]
  end.

(** [for token in token_translations] *)
Fixpoint save_tokens (src trg : Z) (use_data : bool)
    (token_translations : list token_translation)
    (rows : list draft_row) (memory : list memory_row) (db_content : list Z)
    : result (list draft_row * list memory_row * list Z) :=
  match token_translations with
  | [] => Ok (rows, memory, db_content)
  | token :: rest =>
    '(rows, db_content) <- save_occurrences (tt_translation token)
                             (tt_occurrences token) rows db_content ;;
    let memory :=
      if use_data
      then update_memory src trg (tt_token token) (tt_translation token)
             (len (tt_occurrences token)) memory
      else memory in
    save_tokens src trg use_data rest rows memory db_content
  end.

(** The truth value of a JSON value. *)
Definition json_truth (v : json) : bool :=
  match v with
  | JNone => false
  | JBool b => b
  | JInt z => negb (z =? 0)
  | JFloat f => negb (PrimFloat.eqb f 0%float)
  | JStr s => match s with [] => false | _ => true end
  | JList l => match l with [] => false | _ => true end
  | JDict d => match d with [] => false | _ => true end
  end.

Definition use_data_for_learning (project_row : project) : bool :=
  match project_metaData project_row with
  | None => true
  | Some metaData =>
    match dict_get (py "useDataForLearning") metaData with
    | Some use_data => json_truth use_data
    | None => true
    end
  end.

(** [sorted(set(db_content), key=lambda x: x.sentenceId)]: the rows of a
    set have different sentence ids. *)
Fixpoint insert_id (id : Z) (ids : list Z) : list Z :=
  match ids with
  | [] => [id]
  | x :: rest =>
    if id <? x then id :: ids
    else if id =? x then ids
    else x :: insert_id id rest
  end.

Definition sorted_set (ids : list Z) : list Z :=
  fold_right insert_id [] ids.

Definition rows_of (rows : list draft_row) (ids : list Z) : list draft_row :=
  flat_map (fun id => match find_row id rows with
                      | Some row => [row]
                      | None => []
                      end) ids.

(** [save_agmt_translations]: the store it leaves and the value it
    returns.  The user id, which the function only copies into the rows,
    is left out. *)
Definition save_agmt_translations (db_ : Store) (project_id : Z)
    (token_translations : list token_translation) (return_drafts : bool)
    : result (Store * option (list draft_row)) :=
  match store_project db_ project_id with
  | None => Raise NotAvailableException
  | Some project_row =>
    '(rows, memory, db_content) <-
        save_tokens (project_source_lang_id project_row)
          (project_target_lang_id project_row)
          (use_data_for_learning project_row) token_translations
          (store_drafts db_ project_id) (store_memory db_) [] ;;
    let db' :=
      mk_store (store_project db_)
        (fun p => if p =? project_id then rows else store_drafts db_ p)
        (store_bookId db_) memory in
    Ok (db', if return_drafts
             then Some (rows_of rows (sorted_set db_content))
             else None)
  end.

(** ** Vocabulary of the statements on saving *)

(** The replacements a request asks for, in the order they are made. *)
Definition requested (token_translations : list token_translation)
    : list (Z * offset * str) :=
  flat_map
    (fun token =>
       map (fun occur =>
              (occ_sentenceId occur, occ_offset occur, tt_translation token))
         (tt_occurrences token))
    token_translations.

(** A range that is not empty and lies inside a segment; two ranges that
    do not meet. *)
Definition inside (t : offset) (m : segment) : Prop :=
  fst (src_of m) <= fst t /\ fst t < snd t /\ snd t <= snd (src_of m).

Definition apart (t t' : offset) : Prop :=
  snd t <= fst t' \/ snd t' <= fst t.

(** The draft and meta [replace_token] works on for a row: those of a
    fresh sentence when the row has no meta. *)
Definition effective (row : draft_row) : option (str * list segment) :=
  match draftMeta row with
  | None | Some [] =>
    Some (sentence row,
          [((0, len (sentence row)), (0, len (sentence row)), untranslated)])
  | Some meta =>
    match draft row with
    | Some d => Some (d, meta)
    | None => None
    end
  end.

(** A replacement that can be made on the rows: its sentence is there,
    the meta of the row covers sentence and draft, and the range lies
    inside one of its segments. *)
Definition applicable (rows : list draft_row) (req : Z * offset * str)
    : Prop :=
  let '(id, t, _) := req in
  exists row d meta,
    find_row id rows = Some row /\ effective row = Some (d, meta)
    /\ covers (sentence row) d meta
    /\ exists m, In m meta /\ inside t m.

(** No two replacements of one sentence meet. *)
Definition separate (reqs : list (Z * offset * str)) : Prop :=
  ForallOrdPairs
    (fun r r' => fst (fst r) = fst (fst r') ->
                 apart (snd (fst r)) (snd (fst r')))
    reqs.

(** A replacement that the rows show: the meta of its sentence covers
    sentence and draft, and has a confirmed segment on the range whose
    part of the draft is the translation. *)
Definition translated (rows : list draft_row) (req : Z * offset * str)
    : Prop :=
  let '(id, t, translation) := req in
  exists row d meta,
    find_row id rows = Some row /\ draft row = Some d
    /\ draftMeta row = Some meta /\ covers (sentence row) d meta
    /\ exists m, In m meta /\ src_of m = t /\ status_of m = confirmed
         /\ d<[fst (dst_of m) : snd (dst_of m)]> = translation.

(** The frequency the memory holds for a translation of a token. *)
Definition frequency (src trg : Z) (token translation : str)
    (memory : list memory_row) : Z :=
  match List.find (same_entry src trg token) memory with
  | Some r =>
    match dict_get translation (mem_translations r) with
    | Some f => f
    | None => 0
    end
  | None => 0
  end.

(** How often a request translates [token] as [translation]. *)
Definition times_requested (token translation : str)
    (token_translations : list token_translation) : Z :=
  fold_right
    (fun tt acc =>
       if str_eqb (tt_token tt) token
          && str_eqb (tt_translation tt) translation
       then len (tt_occurrences tt) + acc else acc)
    0 token_translations.

(** The state of a batch of replacements: those still to make can be made
    and do not meet; those made show in the rows, and none of them meets
    one still to make. *)
Definition clear_of (reqs : list (Z * offset * str)) (r : Z * offset * str)
    : Prop :=
  Forall (fun r' => fst (fst r) = fst (fst r') ->
                    apart (snd (fst r)) (snd (fst r')))
    reqs.

Definition batch_state (rows : list draft_row)
    (done pend : list (Z * offset * str)) : Prop :=
  Forall (applicable rows) pend /\ separate pend
  /\ Forall (translated rows) done
  /\ Forall (fun r => fst (snd (fst r)) < snd (snd (fst r))
                      /\ clear_of pend r) done.

Definition same_members (ids ids' : list Z) : Prop :=
  forall id, In id ids <-> In id ids'.

(** Sentence ids in strictly ascending order. *)
Fixpoint increasing (ids : list Z) : Prop :=
  match ids with
  | [] => True
  | id :: rest => Forall (Z.lt id) rest /\ increasing rest
  end.

(** A request on the first project of the scenario store, and what saving
    it leaves and returns. *)
Definition scenario_request : list token_translation :=
  [mk_token_translation (py "a") (py "A") [mk_occurrence 11 (0, 1)];
   mk_token_translation (py "c") (py "C")
     [mk_occurrence 11 (4, 5); mk_occurrence 10 (2, 3)]].

Definition scenario_saved : Store * option (list draft_row) :=
  match save_agmt_translations scenario_db 1 scenario_request true with
  | Ok saved => saved
  | Raise _ => (scenario_db, None)
  end.

Definition scenario_saved_rows : list draft_row :=
  match snd scenario_saved with
  | Some rows => rows
  | None => []
  end.

(** ** Replacing in given sentences: [replace_bulk_tokens] *)

(** A dictionary with integer keys: [d.get(k)] and [d[k] = v]. *)
Fixpoint int_dict_get {V} (k : Z) (d : list (Z * V)) : option V :=
  match d with
  | [] => None
  | (k', v) :: r => if k =? k' then Some v else int_dict_get k r
  end.

Fixpoint int_dict_set {V} (k : Z) (v : V) (d : list (Z * V))
    : list (Z * V) :=
  match d with
  | [] => [(k, v)]
  | (k', v') :: r =>
    if k =? k' then (k', v) :: r else (k', v') :: int_dict_set k v r
  end.

(** [for occur in token.occurrences]: the subscript raises [KeyError] for
    a sentence id that is not a key, and the test [if not draft_row] that
    follows it is never true of a sentence object. *)
Fixpoint bulk_occurrences (translation : str) (occs : list occurrence)
    (updated_sentences : list (Z * draft_row))
    : result (list (Z * draft_row)) :=
  match occs with
  | [] => Ok updated_sentences
  | occur :: rest =>
    match int_dict_get (occ_sentenceId occur) updated_sentences with
    | None => Raise KeyError
    | Some draft_row =>
      '(draft, meta) <- replace_token (sentence draft_row) (occ_offset occur)
                          translation (draft draft_row)
                          (draftMeta draft_row) confirmed ;;
      let draft_row :=
        mk_row (sentenceId draft_row) (surrogateId draft_row)
          (sentence draft_row) (Some draft) (Some meta) in
      bulk_occurrences translation rest
        (int_dict_set (occ_sentenceId occur) draft_row updated_sentences)
    end
  end.

(** [for token in token_translations]; [target] is the language row found
    for [trg_code], if any, and [target.languageId] is read in the block
    [if use_data:]. *)
Fixpoint bulk_tokens (source : Z) (target : option Z) (use_data : bool)
    (token_translations : list token_translation)
    (updated_sentences : list (Z * draft_row)) (memory : list memory_row)
    : outcome (list (Z * draft_row) * list memory_row) :=
  match token_translations with
  | [] => Returns (updated_sentences, memory)
  | token :: rest =>
    match bulk_occurrences (tt_translation token) (tt_occurrences token)
            updated_sentences with
    | Raise e => Raises (Known e)
    | Ok updated_sentences =>
      if use_data then
        match target with
        | None => Raises AttributeError
        | Some trg =>
          bulk_tokens source target use_data rest updated_sentences
            (update_memory source trg (tt_token token)
               (tt_translation token) (len (tt_occurrences token)) memory)
        end
      else bulk_tokens source target use_data rest updated_sentences memory
    end
  end.

(** [replace_bulk_tokens]: the sentences it returns and the translation
    memory it leaves.  [language_id] is the id of the language row of a
    code; both tests before the loop are on [source]. *)
Definition replace_bulk_tokens (language_id : str -> option Z)
    (memory : list memory_row) (sentence_list : list draft_row)
    (token_translations : list token_translation) (src_code trg_code : str)
    (use_data : bool) : outcome (list draft_row * list memory_row) :=
  match language_id src_code with
  | None => Raises (Known NotAvailableException)
  | Some source =>
    let target := language_id trg_code in
    let updated_sentences :=
      fold_left (fun d sent => int_dict_set (sentenceId sent) sent d)
        sentence_list [] in
    match bulk_tokens source target use_data token_translations
            updated_sentences memory with
    | Returns (updated_sentences, memory) =>
      Returns (map snd updated_sentences, memory)
    | Raises x => Raises x
    end
  end.

(** ** Vocabulary of the statements on replacing in given sentences *)

(** The ids of a list in the order of their first occurrences, those in
    [seen] left out. *)
Fixpoint first_ids (ids seen : list Z) : list Z :=
  match ids with
  | [] => []
  | id :: rest =>
    if existsb (Z.eqb id) seen then first_ids rest seen
    else id :: first_ids rest (id :: seen)
  end.

(** The last sentence of a list with a given id. *)
Definition last_with_id (id : Z) (sentence_list : list draft_row)
    : option draft_row :=
  find_row id (rev sentence_list).

(** The ways [replace_bulk_tokens] fails once the source language is
    found. *)
Definition bulk_failure (target : option Z) (use_data : bool)
    (x : exception) : Prop :=
  x = Known KeyError \/ x = Known TypeError \/ x = Known UnboundLocalError
  \/ (x = AttributeError /\ target = None /\ use_data = true).

(** The languages of a store that has English only. *)
Definition scenario_languages (code : str) : option Z :=
  if str_eqb code (py "en") then Some 1 else None.

(** * Properties *)

Unset Implicit Arguments.

(** ** Strings and slices *)

Lemma str_eqb_eq (a b : str) : str_eqb a b = true <-> a = b.
Proof.
  revert b; induction a as [|x a IH]; intros [|y b]; simpl;
    try (split; [discriminate | congruence]); try tauto.
  rewrite andb_true_iff, N.eqb_eq, IH. split.
  - intros [-> ->]; reflexivity.
  - intros H; injection H; auto.
Qed.

(** The primitives on small inputs, with the values Python gives. *)

Example re_split_edges :
  re_split (fun c => str_in [c] [py ","; py "."]) (py ",a..b,")
  = [[]; py "a"; py "b"; []]
  /\ re_split (fun c => str_in [c] [py ","; py "."]) [] = [[]]
  /\ re_split (fun c => str_in [c] [py ","; py "."]) (py "ab") = [py "ab"].
Proof. repeat split. Qed.

Example split_and_strip :
  split (py " a  b ") = [py "a"; py "b"]
  /\ strip (py "  a b ") = py "a b"
  /\ split_on 47%N (py "a//b") = [py "a"; []; py "b"]
  /\ split_on 47%N [] = [[]]
  /\ join (py "/") [py "a"; py "b"; py "c"] = py "a/b/c".
Proof. repeat split. Qed.

Example find_and_replace :
  find (py "abcabc") (py "bc") 2 = Some 4%nat
  /\ find (py "abc") [] 3 = Some 3%nat
  /\ find (py "abc") [] 4 = None
  /\ find (py "abc") (py "abcd") 0 = None
  /\ replace (py "####x") (py "###") [] = py "#x"
  /\ re_sub_runs isspace (py "/") false (py " a   b c ") = py "/a/b/c/".
Proof. repeat split. Qed.

Example slices :
  [1; 2; 3; 4]<[-2 :]> = [3; 4]
  /\ [1; 2; 3; 4]<[0 :]> = [1; 2; 3; 4]
  /\ [1; 2; 3; 4]<[: 3]> = [1; 2; 3]
  /\ [1; 2; 3; 4]<[5 :]> = []
  /\ [1; 2; 3; 4]<[-10 : 2]> = [1; 2]
  /\ (py "abcdef")<[4 : 2]> = [].
Proof. repeat split. Qed.

Example sorted_is_stable :
  sorted_desc by_len_lt
    [py "b"; py "b/L:a"; py "b/R:c"; py "b/L:a/R:c"; py "b/R:c/L:a"]
  = [py "b/L:a/R:c"; py "b/R:c/L:a"; py "b/L:a"; py "b/R:c"; py "b"].
Proof. reflexivity. Qed.

Section SliceFacts.

Context {A : Type}.
Implicit Types l : list A.

Lemma len_app l1 l2 : len (l1 ++ l2) = len l1 + len l2.
Proof. unfold len; rewrite length_app; lia. Qed.

Lemma len_nonneg l : 0 <= len l.
Proof. unfold len; lia. Qed.

Lemma firstn_plus (n m : nat) l :
  firstn (n + m) l = firstn n l ++ firstn m (skipn n l).
Proof.
  revert l; induction n as [|n IH]; intros l; simpl.
  - reflexivity.
  - destruct l as [|x l]; simpl.
    + now rewrite firstn_nil.
    + now rewrite IH.
Qed.

Lemma slice_in_range l a b :
  0 <= a -> a <= b -> b <= len l ->
  l<[a : b]> = firstn (Z.to_nat (b - a)) (skipn (Z.to_nat a) l).
Proof.
  intros Ha Hab Hb. unfold slice, clamp_index.
  destruct (Z.ltb_spec a 0); [lia|].
  destruct (Z.ltb_spec b 0); [lia|].
  rewrite !Z.min_l by lia. reflexivity.
Qed.

Lemma slice_empty l a : l<[a : a]> = [].
Proof. unfold slice. now rewrite Z.sub_diag. Qed.

Lemma len_slice l a b :
  0 <= a -> a <= b -> b <= len l -> len l<[a : b]> = b - a.
Proof.
  intros Ha Hab Hb. rewrite slice_in_range by assumption.
  unfold len in *. rewrite length_firstn, length_skipn. lia.
Qed.

Lemma slice_adjacent l a b c :
  0 <= a -> a <= b -> b <= c -> c <= len l ->
  l<[a : b]> ++ l<[b : c]> = l<[a : c]>.
Proof.
  intros Ha Hab Hbc Hc. rewrite !slice_in_range by lia.
  replace (Z.to_nat (c - a)) with (Z.to_nat (b - a) + Z.to_nat (c - b))%nat
    by lia.
  rewrite firstn_plus, skipn_skipn.
  replace (Z.to_nat (b - a) + Z.to_nat a)%nat with (Z.to_nat b) by lia.
  reflexivity.
Qed.

Lemma slice_all l : l<[0 : len l]> = l.
Proof.
  rewrite slice_in_range by (pose proof (len_nonneg l); lia).
  unfold len. simpl. rewrite Z.sub_0_r, Nat2Z.id. apply firstn_all.
Qed.

End SliceFacts.

(** ** Contiguous segmentations *)

Lemma chain_le rs : forall a b, chain a rs b -> a <= b.
Proof.
  induction rs as [|r rs IH]; simpl; intros a b H.
  - lia.
  - destruct H as (_ & H1 & H2). apply IH in H2. lia.
Qed.

Lemma chain_app rs1 : forall rs2 a c,
  chain a (rs1 ++ rs2) c <-> exists b, chain a rs1 b /\ chain b rs2 c.
Proof.
  induction rs1 as [|r rs1 IH]; simpl; intros rs2 a c.
  - split.
    + intros H; exists a; auto.
    + intros (b & -> & H); exact H.
  - rewrite IH. split.
    + intros (H1 & H2 & b & H3 & H4). exists b. auto.
    + intros (b & (H1 & H2 & H3) & H4). eauto.
Qed.

Lemma chain_bounds rs : forall a b r,
  chain a rs b -> In r rs -> a <= fst r /\ fst r <= snd r /\ snd r <= b.
Proof.
  induction rs as [|r0 rs IH]; simpl; intros a b r H Hin.
  - contradiction.
  - destruct H as (H1 & H2 & H3). destruct Hin as [<- | Hin].
    + apply chain_le in H3. lia.
    + destruct (IH _ _ _ H3 Hin). lia.
Qed.

Lemma chain_shift rs : forall a b d,
  chain a rs b ->
  chain (a + d) (map (fun r => (fst r + d, snd r + d)) rs) (b + d).
Proof.
  induction rs as [|r rs IH]; simpl; intros a b d H.
  - lia.
  - destruct H as (H1 & H2 & H3). repeat split; try lia. now apply IH.
Qed.

Lemma chain_slices {A} (d : list A) rs : forall a b,
  chain a rs b -> 0 <= a -> b <= len d ->
  concat (map (fun r => d<[fst r : snd r]>) rs) = d<[a : b]>.
Proof.
  induction rs as [|r rs IH]; simpl; intros a b H Ha Hb.
  - subst. now rewrite slice_empty.
  - destruct H as (H1 & H2 & H3). pose proof (chain_le _ _ _ H3).
    rewrite (IH _ _ H3) by lia. rewrite H1. apply slice_adjacent; lia.
Qed.

(** ** The splicer *)

Lemma resolve_lit t m : resolve t (lit m) = m.
Proof. destruct m as [[src dst] status]; reflexivity. Qed.

Lemma map_resolve_lit t meta : map (resolve t) (map lit meta) = meta.
Proof.
  induction meta as [|m meta IH]; [reflexivity|].
  change (resolve t (lit m) :: map (resolve t) (map lit meta) = m :: meta).
  now rewrite resolve_lit, IH.
Qed.

Lemma intersects_spec (s e a b : Z) :
  intersects (s, e) (a, b) = true <-> exists x, s <= x < e /\ a <= x < b.
Proof.
  unfold intersects; simpl. rewrite Z.ltb_lt. split.
  - intros H. exists (Z.max s a). lia.
  - intros (x & H1 & H2). lia.
Qed.

Section SplicerFacts.

Variables (source : str) (s e : Z) (translation : str) (d : str) (tag : str).

Ltac seg_cases m :=
  destruct m as [[[a b] [c c']] status];
  unfold src_of, dst_of, status_of, intersects in *; simpl in *.

(** Segments that end at or before the token's start are copied. *)
Lemma rt_loop_before : forall front st,
  s < e ->
  (forall m, In m front -> snd (src_of m) <= s) ->
  rt_loop source (s, e) translation (Some d) tag st front
  = Ok (mk_rt (updated_draft st ++ concat (dst_slices d front))
              (updated_meta st ++ map lit front)
              (translation_offset st) (offset_diff st)).
Proof.
  induction front as [|m front IH]; intros st Hse Hfront; simpl.
  - rewrite !app_nil_r. destruct st; reflexivity.
  - assert (Hm : snd (src_of m) <= s) by (apply Hfront; left; reflexivity).
    unfold rt_step. seg_cases m.
    replace (Z.max s a <? Z.min e b) with false
      by (symmetry; apply Z.ltb_ge; lia).
    replace (b <? e) with true by (symmetry; apply Z.ltb_lt; lia).
    simpl. rewrite IH by (auto; intros; apply Hfront; right; assumption).
    simpl. unfold lit, src_of, dst_of, status_of. simpl.
    rewrite <- !app_assoc. reflexivity.
Qed.

(** Segments that start at or after the token's end are copied with their
    target range moved by the recorded [offset_diff]. *)
Lemma rt_loop_after : forall back st delta,
  offset_diff st = Some delta ->
  (forall m, In m back ->
     e <= fst (src_of m) /\ fst (src_of m) <= snd (src_of m)) ->
  rt_loop source (s, e) translation (Some d) tag st back
  = Ok (mk_rt (updated_draft st ++ concat (dst_slices d back))
              (updated_meta st ++ map (shifted delta) back)
              (translation_offset st) (offset_diff st)).
Proof.
  induction back as [|m back IH]; intros st delta Hd Hback; simpl.
  - rewrite !app_nil_r. destruct st; reflexivity.
  - destruct (Hback m (or_introl eq_refl)) as [Hm1 Hm2].
    unfold rt_step. seg_cases m.
    replace (Z.max s a <? Z.min e b) with false
      by (symmetry; apply Z.ltb_ge; lia).
    replace (b <? e) with false by (symmetry; apply Z.ltb_ge; lia).
    simpl. rewrite Hd. simpl.
    rewrite (IH _ delta) by (auto; intros; apply Hback; right; assumption).
    simpl. unfold shifted, src_of, dst_of, status_of. simpl.
    rewrite <- !app_assoc. reflexivity.
Qed.

(** The segment that contains the token is split around it. *)
Lemma rt_step_inside st a b c c' status :
  0 <= a -> a <= s -> s < e -> e <= b -> b <= len source ->
  let t0 := c + (s - a) in
  let t1 := t0 + len translation in
  rt_step source (s, e) translation (Some d) tag st ((a, b), (c, c'), status)
  = Ok (mk_rt (updated_draft st ++ source<[a : s]> ++ translation
                 ++ source<[e : b]>)
              (updated_meta st ++ leading s a c ++ [((s, e), None, tag)]
                 ++ trailing e b t1)
              (Some t0, Some t1)
              (Some (t1 + (b - e) - c'))).
Proof.
  intros Ha Has Hse Heb Hb t0 t1. subst t0 t1.
  unfold rt_step, src_of, dst_of, status_of, intersects; simpl.
  replace (Z.max s a <? Z.min e b) with true
    by (symmetry; apply Z.ltb_lt; lia).
  unfold rt_begin, rt_end, leading, trailing; simpl.
  destruct (Z.eqb_spec s a) as [->|Hne]; simpl.
  - rewrite slice_empty, Z.sub_diag, Z.add_0_r. simpl.
    destruct (Z.eqb_spec e b) as [->|Hne']; simpl.
    + rewrite slice_empty, Z.sub_diag, Z.add_0_r, !app_nil_r.
      reflexivity.
    + replace (e <? b) with true by (symmetry; apply Z.ltb_lt; lia).
      rewrite len_slice by lia. rewrite <- !app_assoc. reflexivity.
  - replace (s >? a) with true by (symmetry; apply Z.gtb_lt; lia).
    simpl.
    destruct (Z.eqb_spec e b) as [->|Hne']; simpl.
    + rewrite slice_empty, Z.sub_diag, Z.add_0_r, !app_nil_r.
      rewrite <- !app_assoc. reflexivity.
    + replace (e <? b) with true by (symmetry; apply Z.ltb_lt; lia).
      rewrite len_slice by lia. rewrite <- !app_assoc. reflexivity.
Qed.

End SplicerFacts.

(** [resolve] never reads an unset cell: the replacement entry is appended
    only after both cells of [translation_offset] are written, and no later
    step unsets them. *)
Lemma rt_step_shared_is_set source tok translation draft tag st m st' :
  shared_is_set st ->
  rt_step source tok translation draft tag st m = Ok st' ->
  shared_is_set st'.
Proof.
  intros Hst. unfold rt_step.
  assert (Hcopy : forall piece dst st1,
            updated_meta st1 = updated_meta st ++ [(src_of m, Some dst, piece)] ->
            translation_offset st1 = translation_offset st ->
            shared_is_set st1).
  { intros piece dst st1 Hm Ht src status Hin. rewrite Hm in Hin.
    apply in_app_or in Hin. destruct Hin as [Hin | [Hin | []]];
      [|discriminate]. rewrite Ht. eapply Hst; exact Hin. }
  destruct (intersects tok (src_of m)).
  - assert (Hbegin : shared_is_set
              (rt_begin source tok translation st (src_of m) (dst_of m))).
    { unfold rt_begin.
      destruct (fst tok =? fst (src_of m)).
      - intros src status Hin. simpl in *.
        destruct (Hst _ _ Hin) as (t0 & t1 & ->). simpl. eauto.
      - destruct (fst tok >? fst (src_of m)); [|exact Hst].
        intros src status Hin. simpl in *.
        apply in_app_or in Hin. destruct Hin as [Hin | [Hin | []]];
          [|discriminate].
        destruct (Hst _ _ Hin) as (t0 & t1 & ->). simpl. eauto. }
    unfold rt_end.
    destruct (snd tok =? snd (src_of m)).
    + destruct (fst (translation_offset _)); [|discriminate].
      intros [= <-] src status _. simpl. eauto.
    + destruct (snd tok <? snd (src_of m)).
      * destruct (fst (translation_offset _)); [|discriminate].
        intros [= <-] src status _. simpl. eauto.
      * intros [= <-]. exact Hbegin.
  - destruct (snd (src_of m) <? snd tok).
    + destruct (draft_slice draft (dst_of m)); simpl; [|discriminate].
      intros [= <-]. eapply Hcopy; reflexivity.
    + destruct (draft_slice draft (dst_of m)); simpl; [|discriminate].
      destruct (offset_diff st); [|discriminate].
      intros [= <-]. eapply Hcopy; reflexivity.
Qed.

Lemma rt_loop_shared_is_set source tok translation draft tag :
  forall meta st st',
  shared_is_set st ->
  rt_loop source tok translation draft tag st meta = Ok st' ->
  shared_is_set st'.
Proof.
  induction meta as [|m meta IH]; intros st st' Hst; simpl.
  - intros [= <-]. exact Hst.
  - destruct (rt_step source tok translation draft tag st m) as [st1|] eqn:E;
      simpl; [|discriminate].
    apply IH. eapply rt_step_shared_is_set; eauto.
Qed.

Lemma bind_ok {A B} (r : result A) (k : A -> result B) (a : A) :
  r = Ok a -> bind r k = k a.
Proof. intros ->; reflexivity. Qed.

Lemma rt_loop_app source tok translation draft tag l1 : forall l2 st,
  rt_loop source tok translation draft tag st (l1 ++ l2)
  = (st' <- rt_loop source tok translation draft tag st l1 ;;
     rt_loop source tok translation draft tag st' l2).
Proof.
  induction l1 as [|m l1 IH]; intros l2 st; simpl; [reflexivity|].
  destruct (rt_step source tok translation draft tag st m); simpl; auto.
Qed.

Lemma replace_token_nonempty source tok translation draft meta tag :
  meta <> [] ->
  replace_token source tok translation draft (Some meta) tag
  = (st <- rt_loop source tok translation draft tag rt_init meta ;;
     Ok (updated_draft st,
         map (resolve (translation_offset st)) (updated_meta st))).
Proof. destruct meta; [congruence | reflexivity]. Qed.

Lemma dst_slices_chain (d : str) meta :
  dst_slices d meta = map (fun r => d<[fst r : snd r]>) (map dst_of meta).
Proof. unfold dst_slices. now rewrite map_map. Qed.

Lemma leading_src t s a c :
  a <= s -> chain a (map src_of (map (resolve t) (leading s a c))) s.
Proof.
  intros H. unfold leading. destruct (Z.eqb_spec s a); simpl; lia.
Qed.

Lemma leading_dst t s a c :
  a <= s ->
  chain c (map dst_of (map (resolve t) (leading s a c))) (c + (s - a)).
Proof.
  intros H. unfold leading. destruct (Z.eqb_spec s a); simpl; lia.
Qed.

Lemma trailing_src t e b t1 :
  e <= b -> chain e (map src_of (map (resolve t) (trailing e b t1))) b.
Proof.
  intros H. unfold trailing. destruct (Z.eqb_spec e b); simpl; lia.
Qed.

Lemma trailing_dst t e b t1 :
  e <= b ->
  chain t1 (map dst_of (map (resolve t) (trailing e b t1))) (t1 + (b - e)).
Proof.
  intros H. unfold trailing. destruct (Z.eqb_spec e b); simpl; lia.
Qed.

Lemma shifted_src t delta back :
  map src_of (map (resolve t) (map (shifted delta) back)) = map src_of back.
Proof.
  rewrite !map_map. apply map_ext. intros [[src dst] status]. reflexivity.
Qed.

Lemma shifted_dst t delta back :
  map dst_of (map (resolve t) (map (shifted delta) back))
  = map (fun r => (fst r + delta, snd r + delta)) (map dst_of back).
Proof.
  rewrite !map_map. apply map_ext. intros [[src dst] status]. reflexivity.
Qed.

(** The state in which the loop ends when the token lies inside the segment
    [((a, b), (c, c'), status)] of a covering meta. *)
Lemma rt_loop_covering source translation tag d s e
    (front back : list segment) a b c c' status :
  covers source d (front ++ ((a, b), (c, c'), status) :: back) ->
  a <= s -> s < e -> e <= b ->
  let t0 := c + (s - a) in
  let t1 := t0 + len translation in
  let delta := t1 + (b - e) - c' in
  rt_loop source (s, e) translation (Some d) tag rt_init
    (front ++ ((a, b), (c, c'), status) :: back)
  = Ok (mk_rt (d<[0 : c]> ++ source<[a : s]> ++ translation
                 ++ source<[e : b]> ++ d<[c' : len d]>)
              (map lit front ++ leading s a c ++ [((s, e), None, tag)]
                 ++ trailing e b t1 ++ map (shifted delta) back)
              (Some t0, Some t1) (Some delta)).
Proof.
  intros [Hsrc Hdst] Has Hse Heb t0 t1 delta.
  rewrite map_app in Hsrc, Hdst. simpl in Hsrc, Hdst.
  apply chain_app in Hsrc. destruct Hsrc as (x & Hs1 & Hs2 & Hs3 & Hs4).
  apply chain_app in Hdst. destruct Hdst as (y & Hd1 & Hd2 & Hd3 & Hd4).
  change (a = x) in Hs2. change (x <= b) in Hs3.
  change (chain b (map src_of back) (len source)) in Hs4.
  change (c = y) in Hd2. change (y <= c') in Hd3.
  change (chain c' (map dst_of back) (len d)) in Hd4. subst x y.
  pose proof (chain_le _ _ _ Hs1). pose proof (chain_le _ _ _ Hs4).
  pose proof (chain_le _ _ _ Hd1). pose proof (chain_le _ _ _ Hd4).
  rewrite rt_loop_app, rt_loop_before; trivial.
  2:{ intros m Hm.
      destruct (chain_bounds _ _ _ (src_of m) Hs1 (in_map src_of _ _ Hm)).
      lia. }
  simpl. rewrite rt_step_inside by lia. simpl.
  rewrite rt_loop_after with (delta := delta); [|reflexivity|].
  2:{ intros m Hm.
      destruct (chain_bounds _ _ _ (src_of m) Hs4 (in_map src_of _ _ Hm)).
      lia. }
  simpl. f_equal. f_equal.
  - rewrite !dst_slices_chain.
    rewrite (chain_slices d _ _ _ Hd1), (chain_slices d _ _ _ Hd4) by lia.
    rewrite <- !app_assoc. reflexivity.
  - rewrite <- !app_assoc. reflexivity.
Qed.

(** C1. With one untranslated segment covering the source, replacing a
    token that lies strictly inside it ([0 < s], [e < len source]; a token
    is a non-empty range, [s < e]) returns exactly three parts: the
    untranslated prefix [0, s), the replacement mapped to
    [s, s + len translation) under the given tag, and the untranslated
    suffix moved by the change of length. *)
Theorem replace_token_inside_single_segment
    (source translation tag draft : str) (s e : Z) :
  0 < s -> s < e -> e < len source ->
  replace_token source (s, e) translation (Some draft)
    (Some [((0, len source), (0, len source), untranslated)]) tag
  = Ok (source<[0 : s]> ++ translation ++ source<[e : len source]>,
        [((0, s), (0, s), untranslated);
         ((s, e), (s, s + len translation), tag);
         ((e, len source),
          (s + len translation, s + len translation + (len source - e)),
          untranslated)]).
Proof.
  intros H0s Hse Hen. unfold replace_token. simpl.
  rewrite rt_step_inside by lia. simpl.
  unfold leading, trailing.
  destruct (Z.eqb_spec s 0); [lia|].
  destruct (Z.eqb_spec e (len source)); [lia|].
  simpl. rewrite !Z.sub_0_r. reflexivity.
Qed.

(** The literal scenario of C1: ["abc def ghi"], replacing [4,7] with
    ["WORD"]. *)
Lemma replace_token_word_scenario :
  replace_token (py "abc def ghi") (4, 7) (py "WORD")
    (Some (py "abc def ghi")) (Some [((0, 11), (0, 11), untranslated)])
    confirmed
  = Ok (py "abc WORD ghi",
        [((0, 4), (0, 4), untranslated); ((4, 7), (4, 8), confirmed);
         ((7, 11), (8, 12), untranslated)]).
Proof.
  exact (replace_token_inside_single_segment (py "abc def ghi") (py "WORD")
           confirmed (py "abc def ghi") 4 7 eq_refl eq_refl eq_refl).
Defined.

(** C2. When the meta covers source and draft and the token lies inside a
    segment of it, the call succeeds, the returned meta covers the source
    and the returned draft, and the returned draft is the concatenation of
    its target slices in segment order. *)
Theorem replace_token_keeps_coverage
    (source translation tag draft : str) (meta : list segment)
    (seg : segment) (s e : Z) :
  covers source draft meta ->
  In seg meta ->
  fst (src_of seg) <= s -> s < e -> e <= snd (src_of seg) ->
  exists new_draft new_meta,
    replace_token source (s, e) translation (Some draft) (Some meta) tag
    = Ok (new_draft, new_meta)
    /\ covers source new_draft new_meta
    /\ concat (dst_slices new_draft new_meta) = new_draft.
Proof.
  intros Hcov Hin Has Hse Heb.
  destruct (in_split _ _ Hin) as (front & back & ->).
  destruct seg as [[[a b] [c c']] status].
  unfold src_of in Has, Heb; simpl in Has, Heb.
  rewrite replace_token_nonempty by (destruct front; discriminate).
  pose proof (rt_loop_covering source translation tag draft s e front back
                a b c c' status Hcov Has Hse Heb) as Hloop.
  cbv zeta in Hloop.
  destruct Hcov as [Hsrc Hdst].
  rewrite map_app in Hsrc, Hdst. simpl in Hsrc, Hdst.
  apply chain_app in Hsrc. destruct Hsrc as (x & Hs1 & Hs2 & Hs3 & Hs4).
  apply chain_app in Hdst. destruct Hdst as (y & Hd1 & Hd2 & Hd3 & Hd4).
  change (a = x) in Hs2. change (x <= b) in Hs3.
  change (chain b (map src_of back) (len source)) in Hs4.
  change (c = y) in Hd2. change (y <= c') in Hd3.
  change (chain c' (map dst_of back) (len draft)) in Hd4. subst x y.
  pose proof (chain_le _ _ _ Hs1). pose proof (chain_le _ _ _ Hs4).
  pose proof (chain_le _ _ _ Hd1). pose proof (chain_le _ _ _ Hd4).
  set (t0 := c + (s - a)). set (t1 := t0 + len translation).
  set (delta := t1 + (b - e) - c').
  eexists; eexists. split; [erewrite bind_ok by exact Hloop; reflexivity|].
  cbn [updated_draft updated_meta translation_offset]. clear Hloop.
  fold t0 t1 delta.
  assert (Hlen : len (draft<[0 : c]> ++ source<[a : s]> ++ translation
                        ++ source<[e : b]> ++ draft<[c' : len draft]>)
                 = len draft + delta).
  { rewrite !len_app, !len_slice by lia. subst delta t1 t0. lia. }
  assert (Hcov' : covers source
            (draft<[0 : c]> ++ source<[a : s]> ++ translation
               ++ source<[e : b]> ++ draft<[c' : len draft]>)
            (map (resolve (Some t0, Some t1))
               (map lit front ++ leading s a c ++ [((s, e), None, tag)]
                  ++ trailing e b t1 ++ map (shifted delta) back))).
  { split.
    - rewrite !map_app, map_resolve_lit, shifted_src.
      apply chain_app. exists a. split; [assumption|].
      apply chain_app. exists s. split; [apply leading_src; lia|].
      simpl. unfold src_of at 1 2; simpl. repeat split; try lia.
      apply chain_app. exists b. split; [apply trailing_src; lia|].
      assumption.
    - rewrite Hlen.
      rewrite !map_app, map_resolve_lit, shifted_dst.
      apply chain_app. exists c. split; [assumption|].
      apply chain_app. exists t0. split; [apply leading_dst; lia|].
      simpl. unfold dst_of at 1 2; simpl.
      pose proof (len_nonneg translation).
      repeat split; try (subst t1; lia).
      apply chain_app. exists (t1 + (b - e)).
      split; [apply trailing_dst; lia|].
      replace (t1 + (b - e)) with (c' + delta) by (subst delta; lia).
      apply chain_shift. assumption. }
  split; [exact Hcov'|].
  destruct Hcov' as [_ Hdst'].
  rewrite dst_slices_chain.
  rewrite (chain_slices _ _ _ _ Hdst') by lia.
  apply slice_all.
Qed.

(** A call in the situation of C2: the meta left by a first replacement,
    and a token inside its last segment. *)
Lemma replace_token_keeps_coverage_scenario :
  exists new_draft new_meta,
    replace_token (py "abc def ghi") (8, 11) (py "JKLM")
      (Some (py "abc XYZ ghi"))
      (Some [((0, 4), (0, 4), untranslated); ((4, 7), (4, 7), confirmed);
             ((7, 11), (7, 11), untranslated)]) confirmed
    = Ok (new_draft, new_meta)
    /\ covers (py "abc def ghi") new_draft new_meta
    /\ concat (dst_slices new_draft new_meta) = new_draft.
Proof.
  apply (replace_token_keeps_coverage (py "abc def ghi") (py "JKLM")
           confirmed (py "abc XYZ ghi") _ ((7, 11), (7, 11), untranslated)).
  - unfold covers; simpl. repeat split; try reflexivity; lia.
  - simpl; auto.
  - simpl; lia.
  - lia.
  - simpl; lia.
Defined.

(** Without any overlapping segment [offset_diff] is never bound: segments
    ending before the token's end are copied, and the first other segment
    stops the call. *)
Lemma rt_loop_without_overlap source tok translation d tag :
  forall meta st,
  offset_diff st = None ->
  (forall m, In m meta -> intersects tok (src_of m) = false) ->
  rt_loop source tok translation (Some d) tag st meta
  = if forallb (fun m => snd (src_of m) <? snd tok) meta
    then Ok (mk_rt (updated_draft st ++ concat (dst_slices d meta))
                   (updated_meta st ++ map lit meta)
                   (translation_offset st) None)
    else Raise UnboundLocalError.
Proof.
  induction meta as [|m meta IH]; intros st Hd Hno; simpl.
  - rewrite !app_nil_r. destruct st; simpl in *; subst; reflexivity.
  - unfold rt_step. rewrite (Hno m (or_introl eq_refl)).
    destruct (snd (src_of m) <? snd tok); simpl.
    + rewrite IH by (auto; intros; apply Hno; right; assumption).
      simpl. destruct (forallb _ meta); [|reflexivity].
      rewrite <- !app_assoc. reflexivity.
    + rewrite Hd. reflexivity.
Qed.

(** C8, as the code has it.  When no segment of a non-empty meta overlaps
    the token, the call fails (on the unbound [offset_diff]) exactly when
    some segment ends at or after the token's end; when every segment ends
    before it, the call returns the target slices of the draft and the meta
    as they were, without the edit. *)
Theorem replace_token_without_overlap
    (source translation tag d : str) (tok : offset) (meta : list segment) :
  meta <> [] ->
  (forall m, In m meta -> intersects tok (src_of m) = false) ->
  replace_token source tok translation (Some d) (Some meta) tag
  = if forallb (fun m => snd (src_of m) <? snd tok) meta
    then Ok (concat (dst_slices d meta), meta)
    else Raise UnboundLocalError.
Proof.
  intros Hne Hno. rewrite replace_token_nonempty by assumption.
  rewrite rt_loop_without_overlap by (auto; reflexivity).
  destruct (forallb _ meta); [|reflexivity].
  simpl. now rewrite map_resolve_lit.
Qed.

(** An empty token inside the only segment: no overlap, and the call
    fails. *)
Lemma replace_token_empty_token_scenario :
  replace_token (py "abc def ghi") (5, 5) (py "XYZ") (Some (py "abc def ghi"))
    (Some [((0, 11), (0, 11), untranslated)]) confirmed
  = Raise UnboundLocalError.
Proof.
  refine (replace_token_without_overlap (py "abc def ghi") (py "XYZ")
            confirmed (py "abc def ghi") (5, 5)
            [((0, 11), (0, 11), untranslated)] _ _).
  - discriminate.
  - intros m [<- | []]. reflexivity.
Defined.

(** C8 fails as stated: a token past the end of the sentence overlaps no
    segment, and the call returns draft and meta unchanged. *)
Lemma replace_token_past_end_is_silent :
  (forall m, In m [((0, 11), (0, 11), untranslated)] ->
     intersects (20, 25) (src_of m) = false)
  /\ replace_token (py "abc def ghi") (20, 25) (py "XYZ")
       (Some (py "abc def ghi")) (Some [((0, 11), (0, 11), untranslated)])
       confirmed
     = Ok (py "abc def ghi", [((0, 11), (0, 11), untranslated)]).
Proof.
  split.
  - intros m [<- | []]. reflexivity.
  - vm_compute. reflexivity.
Qed.

(** ** The tokenizer *)

Lemma startswith_firstn : forall p s,
  startswith s p = true -> firstn (length p) s = p.
Proof.
  induction p as [|x p IH]; intros [|y s]; simpl; try discriminate; auto.
  rewrite andb_true_iff, N.eqb_eq. intros [-> H]. now rewrite IH.
Qed.

Lemma startswith_length p s :
  startswith s p = true -> (length p <= length s)%nat.
Proof.
  intros H. apply startswith_firstn in H.
  rewrite <- H at 1. rewrite length_firstn. lia.
Qed.

Lemma find_at_sound sub : forall s i off,
  find_at s sub i = Some off ->
  exists k, off = (i + k)%nat /\ (k <= length s)%nat
            /\ startswith (skipn k s) sub = true.
Proof.
  induction s as [|x s IH]; intros i off.
  - destruct sub; simpl; [|discriminate].
    intros [= <-]. exists 0%nat. simpl. auto with arith.
  - change (find_at (x :: s) sub i)
      with (if startswith (x :: s) sub then Some i
            else find_at s sub (S i)).
    destruct (startswith (x :: s) sub) eqn:E.
    + intros [= <-]. exists 0%nat. split; [lia|]. split; [simpl; lia|].
      exact E.
    + intros H. apply IH in H. destruct H as (k & -> & Hk & Hs).
      exists (S k). split; [lia|]. split; [simpl; lia|]. exact Hs.
Qed.

(** What [find] returns is where the phrase stands. *)
Lemma find_sound (s sub : str) (start off : nat) :
  find s sub start = Some off ->
  s<[Z.of_nat off : Z.of_nat off + len sub]> = sub.
Proof.
  unfold find. destruct (Nat.leb_spec start (length s)) as [Hle|];
    [|discriminate].
  intros H. apply find_at_sound in H. destruct H as (k & -> & Hk & Hs).
  rewrite skipn_skipn in Hs. rewrite length_skipn in Hk.
  pose proof (startswith_length _ _ Hs) as Hlen.
  rewrite length_skipn in Hlen.
  rewrite slice_in_range; unfold len; try lia.
  replace (Z.to_nat (Z.of_nat (start + k) + Z.of_nat (length sub)
                     - Z.of_nat (start + k))) with (length sub) by lia.
  rewrite Nat2Z.id. replace (start + k)%nat with (k + start)%nat by lia.
  now apply startswith_firstn.
Qed.

Lemma In_dict_set {V} (k : str) (v : V) : forall d k' v',
  In (k', v') (dict_set k v d) -> (k' = k /\ v' = v) \/ In (k', v') d.
Proof.
  induction d as [|[k0 v0] d IH]; intros k' v'; simpl.
  - intros [[= <- <-] | []]. auto.
  - destruct (str_eqb k k0) eqn:E; simpl.
    + apply str_eqb_eq in E. subst k0.
      intros [[= <- <-] | H]; auto.
    + intros [H | H]; auto. apply IH in H. tauto.
Qed.

Lemma dict_get_In {V} (k : str) (v : V) : forall d,
  dict_get k d = Some v -> In (k, v) d.
Proof.
  induction d as [|[k0 v0] d IH]; simpl; [discriminate|].
  destruct (str_eqb k k0) eqn:E.
  - apply str_eqb_eq in E. intros [= <-]. subst. auto.
  - auto.
Qed.

Lemma record_phrases_round_trip sents sent include_stopwords sw_list :
  In sent sents ->
  forall phrases start tokens tokens',
  round_trip sents tokens ->
  record_phrases sent include_stopwords sw_list phrases start tokens
  = Ok tokens' ->
  round_trip sents tokens'.
Proof.
  intros Hsent. induction phrases as [|phrase rest IH];
    intros start tokens tokens' Hrt; simpl.
  - intros [= <-]. exact Hrt.
  - destruct (str_eqb (strip phrase) []); [apply IH; exact Hrt|].
    destruct (negb include_stopwords && str_in phrase sw_list);
      [apply IH; exact Hrt|].
    destruct (find (in_sentence sent) phrase start) as [off|] eqn:Hfind;
      [|discriminate].
    apply IH. clear IH.
    assert (Hocc : forall occ,
              occ = mk_occurrence (in_sentenceId sent)
                      (Z.of_nat off, Z.of_nat off + len phrase) ->
              exists sent0, In sent0 sents
                /\ in_sentenceId sent0 = occ_sentenceId occ
                /\ (in_sentence sent0)<[fst (occ_offset occ)
                                        : snd (occ_offset occ)]> = phrase).
    { intros occ ->. exists sent. simpl. repeat split; trivial.
      now apply find_sound with (start := start). }
    intros token info occ Hin Hocc_in.
    destruct (dict_get phrase tokens) as [old|] eqn:Hget.
    + apply In_dict_set in Hin. destruct Hin as [[-> ->] | Hin].
      * simpl in Hocc_in. apply in_app_or in Hocc_in.
        destruct Hocc_in as [Hold | [<- | []]].
        -- apply (Hrt phrase old occ); [now apply dict_get_In | exact Hold].
        -- now apply Hocc.
      * now apply (Hrt token info occ).
    + apply In_dict_set in Hin. destruct Hin as [[-> ->] | Hin].
      * simpl in Hocc_in. destruct Hocc_in as [<- | []]. now apply Hocc.
      * now apply (Hrt token info occ).
Qed.

Lemma tokenize_loop_round_trip memory_trie punctuations stop_words
    include_phrases include_stopwords sents :
  forall sent_list tokens tokens',
  incl sent_list sents ->
  round_trip sents tokens ->
  tokenize_loop memory_trie punctuations stop_words include_phrases
    include_stopwords sent_list tokens = Ok tokens' ->
  round_trip sents tokens'.
Proof.
  induction sent_list as [|sent rest IH]; intros tokens tokens' Hincl Hrt;
    simpl.
  - intros [= <-]. exact Hrt.
  - destruct (sentence_phrases memory_trie punctuations stop_words
                include_phrases sent) as [phrases|]; simpl; [|discriminate].
    destruct (record_phrases sent include_stopwords
                (prepositions stop_words ++ postpositions stop_words)
                phrases 0 tokens) as [tokens1|] eqn:Hrec; simpl;
      [|discriminate].
    apply IH.
    + intros x Hx. apply Hincl. right. exact Hx.
    + eapply record_phrases_round_trip; [|exact Hrt|exact Hrec].
      apply Hincl. left. reflexivity.
Qed.

(** C7. Whenever [tokenize] returns, each occurrence it recorded for a
    token spans exactly that token in the sentence it names. *)
Theorem tokenize_round_trip
    (db_ : Session) (utils : utils_module) (src_lang : str)
    (sent_list : list sentence_input)
    (use_translation_memory include_phrases include_stopwords : bool)
    (punctuations : option (list char)) (stop_words : option stopwords)
    (tokens : list (str * token_info)) :
  tokenize db_ utils src_lang sent_list use_translation_memory
    include_phrases include_stopwords punctuations stop_words = Ok tokens ->
  round_trip sent_list tokens.
Proof.
  unfold tokenize. intros H.
  eapply tokenize_loop_round_trip; [apply incl_refl| |exact H].
  intros token info occ [].
Qed.

Example fresh_sentence_code_points :
  fresh_sentence
  = [0x91C; 0x940; 0x935; 0x928; 0x20; 0x915; 0x947; 0x20; 0x935; 0x91A;
     0x928; 0x20; 0x915; 0x94B; 0x20; 0x926; 0x947; 0x916; 0x94B]%N.
Proof. reflexivity. Qed.

(** The character classes of [re]: a range, a negation, a bracket as the
    first member, a trailing hyphen, an escaped bracket; the empty body, a
    reversed range and an escaped letter, which [re] refuses; and a class
    that closes early and a category, which the model does not cover. *)
Example compile_class_cases :
  compile_class (py "!-z") = Ok (false, [Range 33%N 122%N])
  /\ compile_class (py "^ab") = Ok (true, [Literal 97%N; Literal 98%N])
  /\ compile_class (py "]a") = Ok (false, [Literal 93%N; Literal 97%N])
  /\ compile_class (py "a-") = Ok (false, [Literal 97%N; Literal 45%N])
  /\ compile_class (py "\]") = Ok (false, [Literal 93%N])
  /\ compile_class [] = Raise ReError
  /\ compile_class (py "^") = Raise ReError
  /\ compile_class (py "z-a") = Raise ReError
  /\ compile_class (py "\q") = Raise ReError
  /\ compile_class (py "a]b") = Raise Unsupported
  /\ compile_class (py "\d") = Raise Unsupported.
Proof. repeat split; reflexivity. Qed.

(** [tokenize] with punctuations that form a range over the letters of the
    sentence finds no token; with no punctuations at all it fails, unless
    there is no sentence to split. *)
Example tokenize_punctuation_classes :
  tokenize empty_store scenario_utils (py "hi")
    [mk_sentence_input 1 fresh_sentence] false true false
    (Some (py "!-॥")) (Some fresh_stopwords) = Ok []
  /\ tokenize empty_store scenario_utils (py "hi")
       [mk_sentence_input 1 fresh_sentence] false true false
       (Some []) (Some fresh_stopwords) = Raise ReError
  /\ tokenize empty_store scenario_utils (py "hi") [] false true false
       (Some []) (Some fresh_stopwords) = Ok [].
Proof. repeat split; vm_compute; reflexivity. Qed.

(** [extract_context] fails when the class does not compile. *)
Example extract_context_without_class :
  extract_context (py "d") (6, 7) (py "a b c d e f g h") 5 [] = Raise ReError
  /\ extract_context (py "d") (6, 7) (py "a b c d e f g h") 5 (py "!-z")
     = Ok (0, [py "d"]).
Proof. split; vm_compute; reflexivity. Qed.

Lemma re_split_aux_no_class (cls : char -> bool) : forall s cur,
  (forall c, In c s -> cls c = false) ->
  re_split_aux cls cur false s = [cur ++ s].
Proof.
  induction s as [|c s IH]; intros cur H; simpl.
  - now rewrite app_nil_r.
  - rewrite (H c) by (left; reflexivity).
    rewrite IH by (intros; apply H; right; assumption).
    now rewrite <- app_assoc.
Qed.

Lemma re_split_no_class (cls : char -> bool) (s : str) :
  (forall c, In c s -> cls c = false) -> re_split cls s = [s].
Proof. intros H. unfold re_split. now rewrite re_split_aux_no_class. Qed.

(** C4, as the code has it.  When the punctuations, joined between
    square brackets, compile to a character class that matches no
    character of the sentence, the fresh sentence yields three tokens: the
    content word "जीवन" alone, then "के वचन को" (preposition, content
    word, postposition), then "देखो". *)
Theorem tokenize_fresh_sentence
    (db_ : Session) (utils : utils_module) (src_lang : str) (id : Z)
    (punctuations : option (list char)) (cls : char_class) :
  compile_class (match punctuations with
                 | Some p => p
                 | None => utils_punctuations utils ++ utils_numbers utils
                 end) = Ok cls ->
  (forall c, In c fresh_sentence -> class_matches cls c = false) ->
  tokenize db_ utils src_lang [mk_sentence_input id fresh_sentence]
    false true false punctuations (Some fresh_stopwords)
  = Ok [(py "जीवन", mk_token_info [mk_occurrence id (0, 4)] []);
        (py "के वचन को", mk_token_info [mk_occurrence id (5, 14)] []);
        (py "देखो", mk_token_info [mk_occurrence id (15, 19)] [])].
Proof.
  intros Hcls Hpunct. unfold tokenize, tokenize_loop, sentence_phrases.
  cbn [in_sentence]. rewrite Hcls. cbn [bind].
  replace (re_sub_runs is_newline space false fresh_sentence)
    with fresh_sentence by (vm_compute; reflexivity).
  rewrite re_split_no_class by exact Hpunct.
  vm_compute. reflexivity.
Qed.

Lemma tokenize_fresh_sentence_scenario :
  tokenize empty_store scenario_utils (py "hi")
    [mk_sentence_input 1 fresh_sentence] false true false None
    (Some fresh_stopwords)
  = Ok [(py "जीवन", mk_token_info [mk_occurrence 1 (0, 4)] []);
        (py "के वचन को", mk_token_info [mk_occurrence 1 (5, 14)] []);
        (py "देखो", mk_token_info [mk_occurrence 1 (15, 19)] [])].
Proof.
  apply (tokenize_fresh_sentence empty_store scenario_utils (py "hi") 1 None
           (false, map Literal (py ",.;:!?।0123456789"))).
  - vm_compute. reflexivity.
  - intros c H. vm_compute in H.
    repeat (destruct H as [<- | H]; [reflexivity|]). contradiction.
Defined.

(** C4 fails as stated: the tokens are not the two phrases
    "जीवन के वचन को" and "देखो". *)
Lemma tokenize_fresh_sentence_not_two_tokens :
  token_names
    (tokenize empty_store scenario_utils (py "hi")
       [mk_sentence_input 1 fresh_sentence] false true false None
       (Some fresh_stopwords))
  <> Ok [py "जीवन के वचन को"; py "देखो"].
Proof. vm_compute. discriminate. Qed.

(** An instance of C7: the occurrences of the fresh sentence. *)
Lemma tokenize_round_trip_scenario :
  round_trip [mk_sentence_input 1 fresh_sentence]
    [(py "जीवन", mk_token_info [mk_occurrence 1 (0, 4)] []);
     (py "के वचन को", mk_token_info [mk_occurrence 1 (5, 14)] []);
     (py "देखो", mk_token_info [mk_occurrence 1 (15, 19)] [])].
Proof.
  apply (tokenize_round_trip empty_store scenario_utils (py "hi")
           [mk_sentence_input 1 fresh_sentence] false true false None
           (Some fresh_stopwords)).
  vm_compute. reflexivity.
Defined.

(** ** The suggestion trie *)

(** C5. The sample [(1, ["a","b","c"], "B")] has exactly the two longest
    keys [b/L:a/R:c] and [b/R:c/L:a], and training on it stores ["B"] with
    weight [1/2] under each of them. *)
Theorem build_trie_single_sample :
  sample_keys abc_sample = Ok [key_left_right; key_right_left]
  /\ build_trie [abc_sample] = Ok learned_trie
  /\ Pygtrie.getitem learned_trie key_left_right = Ok [(py "B", 0.5%float)]
  /\ Pygtrie.getitem learned_trie key_right_left = Ok [(py "B", 0.5%float)].
Proof. repeat split; vm_compute; reflexivity. Qed.

(** C6, as the code has it.  Looking the same context up scores ["B"] under
    all five keys of the token, each weight multiplied by the square of the
    key's depth, and divides by the sum of the weights met:
    [(2 * 0.5 * 9 + 2 * 0.5 * 4 + 2 * 0.5 * 1) / 3 = 14 / 3]. *)
Theorem lookup_after_single_sample :
  (t <- build_trie [abc_sample] ;;
   get_translation_suggestion (Index 1) abc_context t)
  = Ok [(py "B", (14 / 3)%float)].
Proof. vm_compute. reflexivity. Qed.

(** C6 fails as stated: the score of the lone candidate is not 1.0. *)
Lemma lookup_after_single_sample_not_one :
  (t <- build_trie [abc_sample] ;;
   get_translation_suggestion (Index 1) abc_context t)
  <> Ok [(py "B", 1%float)].
Proof.
  intros H.
  apply (f_equal (fun r => match r with
                           | Ok ((_, score) :: _) => PrimFloat.eqb score 1
                           | _ => false
                           end)) in H.
  vm_compute in H. discriminate H.
Qed.

(** ** Auto-translation and confirmed segments *)

Example emptied_row_from_replace_token :
  replace_token (py "abc") (0, 3) [] (Some (py "abc"))
    (Some [((0, 3), (0, 3), untranslated)]) confirmed
  = Ok ([], [((0, 3), (0, 0), confirmed)]).
Proof. vm_compute. reflexivity. Qed.

(** C3 does not hold of the code.  With a trie that suggests ["B"] for the
    confirmed word, [auto_translate] replaces the confirmed text ["X"] and
    retags the segment [suggestion]; with no trie at all, a sentence whose
    confirmed draft is empty is reset to one untranslated segment. *)
Theorem auto_translate_overwrites_confirmed :
  auto_translate empty_store scenario_utils loaded_cache false
    [confirmed_row] english hindi None None
  = Ok [mk_row 1 (py "gen,1,1") (py "a b c") (Some (py "a B c"))
          (Some [((0, 2), (0, 2), untranslated);
                 ((2, 3), (2, 3), suggestion);
                 ((3, 5), (3, 5), untranslated)])]
  /\ auto_translate empty_store scenario_utils [] false
       [emptied_row] english hindi None None
     = Ok [mk_row 2 (py "gen,1,2") (py "abc") (Some (py "abc"))
             (Some [((0, 3), (0, 3), untranslated)])].
Proof. split; vm_compute; reflexivity. Qed.

(** ** Progress *)

Lemma count_segments_short : forall segments acc,
  (forall seg, In seg segments ->
     snd (src_of seg) - fst (src_of seg) <= 1) ->
  count_segments segments acc = acc.
Proof.
  induction segments as [|seg rest IH]; intros [[c s] u] H; simpl;
    [reflexivity|].
  replace (snd (src_of seg) - fst (src_of seg) <=? 1) with true
    by (symmetry; apply Z.leb_le; apply H; left; reflexivity).
  apply IH. intros; apply H; right; assumption.
Qed.

Lemma count_rows_short : forall draft_rows acc,
  (forall row, In row draft_rows ->
     exists segments, draftMeta row = Some segments
       /\ forall seg, In seg segments ->
            snd (src_of seg) - fst (src_of seg) <= 1) ->
  count_rows draft_rows acc = Ok acc.
Proof.
  induction draft_rows as [|row rest IH]; intros acc H; simpl;
    [reflexivity|].
  destruct (H row (or_introl eq_refl)) as (segments & -> & Hshort).
  rewrite count_segments_short by exact Hshort.
  apply IH. intros; apply H; right; assumption.
Qed.

(** C10. For a project that exists and rows whose segments all have a
    source length of at most 1 (no rows and no segments included), the
    filtered total is 0 and the first division fails. *)
Theorem progress_divides_by_zero
    (project_row : translation_project) (draft_rows : list draft_row) :
  (forall row, In row draft_rows ->
     exists segments, draftMeta row = Some segments
       /\ forall seg, In seg segments ->
            snd (src_of seg) - fst (src_of seg) <= 1) ->
  obtain_agmt_progress (Some project_row) draft_rows
  = Raise ZeroDivisionError.
Proof.
  intros H. unfold obtain_agmt_progress.
  rewrite count_rows_short by exact H. reflexivity.
Qed.

(** A one-character sentence, confirmed: the progress of its project
    cannot be computed. *)
Lemma progress_of_one_character_row :
  obtain_agmt_progress (Some (mk_project 1 (py "demo")))
    [mk_row 1 (py "gen,1,1") (py "a") (Some (py "b"))
       (Some [((0, 1), (0, 1), confirmed)])]
  = Raise ZeroDivisionError.
Proof.
  apply progress_divides_by_zero.
  intros row [<- | []]. eexists. split; [reflexivity|].
  intros seg [<- | []]. simpl. lia.
Defined.

(** ** JSON alignment export *)

(** C9 does not hold of the code for confirmed segments: the entry of a
    confirmed segment has score 1, but its flag is stored under the key
    [verfied], and the entry has no key [verified]. *)
Theorem export_confirmed_alignment :
  export_to_json None None
    [mk_row 1 (py "gen,1,1") (py "abc") (Some (py "XYZ"))
       (Some [((0, 3), (0, 3), confirmed)])] JNone
  = Ok (JDict
          [(py "metadata",
            JDict [(py "resources",
                    JDict [(py "r0", JDict []); (py "r1", JDict [])]);
                   (py "modified", JNone)]);
           (py "segments",
            JList
              [JDict
                 [(py "resources",
                   JDict
                     [(py "r0",
                       resource_obj (JStr (py "abc")) [JStr (py "abc")]
                         (py "gen,1,1"));
                      (py "r1",
                       resource_obj (JStr (py "XYZ")) [JStr (py "XYZ")]
                         (py "gen,1,1"))]);
                  (py "alignments",
                   JList
                     [JDict [(py "r0", JList [JInt 0]);
                             (py "r1", JList [JInt 0]);
                             (py "status", JStr confirmed);
                             (py "score", JInt 1);
                             (py "verfied", JBool true)]])]])])
  /\ dict_get (py "verified")
       (alignment_entry 0 ((0, 3), (0, 3), confirmed)) = None.
Proof. split; vm_compute; reflexivity. Qed.

(** ** The fuel of the memory loop *)

(** A chunk whose loop ends within some fuel ends the same way with more:
    the bound only cuts off the runs in which Python would not return. *)
Lemma memory_loop_more_fuel (memory_trie : Pygtrie.node Z) :
  forall fuel temp new_chunks r,
  memory_loop memory_trie fuel temp new_chunks = Ok r ->
  forall fuel', (fuel <= fuel')%nat ->
  memory_loop memory_trie fuel' temp new_chunks = Ok r.
Proof.
  induction fuel as [|fuel IH]; intros temp new_chunks r H fuel' Hle.
  - destruct temp; simpl in H; [|discriminate].
    destruct fuel'; exact H.
  - destruct fuel' as [|fuel']; [lia|].
    destruct temp as [|c temp]; [exact H|].
    cbn [memory_loop] in *.
    destruct (Pygtrie.longest_prefix_key memory_trie
                (join [Pygtrie.separator] (split (c :: temp)))).
    + apply IH with (fuel' := fuel') in H; [exact H | lia].
    + destruct (index_char 32%N (c :: temp)); [|exact H].
      apply IH with (fuel' := fuel') in H; [exact H | lia].
Qed.

(** * Further properties *)

(** ** The splicer: locality, boundaries and misuse *)

Lemma resolve_leading t s a c :
  map (resolve t) (leading s a c) = prefix_segment s a c.
Proof. unfold leading, prefix_segment. destruct (s =? a); reflexivity. Qed.

Lemma resolve_trailing t e b t1 :
  map (resolve t) (trailing e b t1) = suffix_segment e b t1.
Proof. unfold trailing, suffix_segment. destruct (e =? b); reflexivity. Qed.

Lemma resolve_shifted t delta back :
  map (resolve t) (map (shifted delta) back)
  = map (shift_segment delta) back.
Proof.
  rewrite map_map. apply map_ext. intros [[src dst] status]. reflexivity.
Qed.

(** What a replacement inside a segment returns. *)
Lemma replace_token_spliced
    (source translation tag d : str) (front back : list segment)
    (a b c c' : Z) (status : str) (s e : Z) :
  covers source d (front ++ ((a, b), (c, c'), status) :: back) ->
  a <= s -> s < e -> e <= b ->
  replace_token source (s, e) translation (Some d)
    (Some (front ++ ((a, b), (c, c'), status) :: back)) tag
  = Ok (d<[0 : c]> ++ source<[a : s]> ++ translation
          ++ source<[e : b]> ++ d<[c' : len d]>,
        front ++ prefix_segment s a c
          ++ [((s, e), (c + (s - a), c + (s - a) + len translation), tag)]
          ++ suffix_segment e b (c + (s - a) + len translation)
          ++ map (shift_segment
                    (c + (s - a) + len translation + (b - e) - c')) back).
Proof.
  intros Hcov Has Hse Heb.
  rewrite replace_token_nonempty by (destruct front; discriminate).
  pose proof (rt_loop_covering source translation tag d s e front back
                a b c c' status Hcov Has Hse Heb) as Hloop.
  cbv zeta in Hloop. erewrite bind_ok by exact Hloop.
  cbn [updated_draft updated_meta translation_offset].
  rewrite !map_app, map_resolve_lit, resolve_leading, resolve_trailing,
    resolve_shifted.
  reflexivity.
Qed.

(** X1. Splicer locality.  When the token lies inside the segment
    [((a, b), (c, c'), status)] of a covering meta, the segments before it
    are returned as they were, the segment is replaced by its untranslated
    prefix, the replacement and its untranslated suffix (prefix and suffix
    taken from the source text), and the segments after it keep source
    range and status while their target range moves by the change of
    length. *)
Theorem replace_token_locality
    (source translation tag draft : str) (front back : list segment)
    (a b c c' : Z) (status : str) (s e : Z) :
  covers source draft (front ++ ((a, b), (c, c'), status) :: back) ->
  a <= s -> s < e -> e <= b ->
  let t0 := c + (s - a) in
  let t1 := t0 + len translation in
  replace_token source (s, e) translation (Some draft)
    (Some (front ++ ((a, b), (c, c'), status) :: back)) tag
  = Ok (draft<[0 : c]> ++ source<[a : s]> ++ translation
          ++ source<[e : b]> ++ draft<[c' : len draft]>,
        front ++ prefix_segment s a c ++ [((s, e), (t0, t1), tag)]
          ++ suffix_segment e b t1
          ++ map (shift_segment (t1 + (b - e) - c')) back).
Proof.
  intros Hcov Has Hse Heb t0 t1.
  rewrite replace_token_nonempty by (destruct front; discriminate).
  pose proof (rt_loop_covering source translation tag draft s e front back
                a b c c' status Hcov Has Hse Heb) as Hloop.
  cbv zeta in Hloop. erewrite bind_ok by exact Hloop.
  cbn [updated_draft updated_meta translation_offset].
  rewrite !map_app, map_resolve_lit, resolve_leading, resolve_trailing,
    resolve_shifted.
  reflexivity.
Qed.

Lemma replace_token_locality_scenario :
  replace_token (py "abc def ghi") (4, 7) (py "XY") (Some (py "abc def ghi"))
    (Some ([((0, 4), (0, 4), untranslated)]
             ++ ((4, 8), (4, 8), untranslated)
             :: [((8, 11), (8, 11), confirmed)])) suggestion
  = Ok (py "abc XY ghi",
        [((0, 4), (0, 4), untranslated); ((4, 7), (4, 6), suggestion);
         ((7, 8), (6, 7), untranslated); ((8, 11), (7, 10), confirmed)]).
Proof.
  refine (replace_token_locality (py "abc def ghi") (py "XY") suggestion
            (py "abc def ghi") [((0, 4), (0, 4), untranslated)]
            [((8, 11), (8, 11), confirmed)] 4 8 4 8 untranslated 4 7
            _ _ _ _).
  - unfold covers; simpl. repeat split; try reflexivity; lia.
  - lia.
  - lia.
  - lia.
Defined.

Lemma covers_split source d (front back : list segment) a b c c' status :
  covers source d (front ++ ((a, b), (c, c'), status) :: back) ->
  (chain 0 (map src_of front) a /\ a <= b
   /\ chain b (map src_of back) (len source))
  /\ (chain 0 (map dst_of front) c /\ c <= c'
      /\ chain c' (map dst_of back) (len d))
  /\ 0 <= a /\ b <= len source /\ 0 <= c /\ c' <= len d.
Proof.
  intros [Hsrc Hdst].
  rewrite map_app in Hsrc, Hdst. simpl in Hsrc, Hdst.
  apply chain_app in Hsrc. destruct Hsrc as (x & Hs1 & Hs2 & Hs3 & Hs4).
  apply chain_app in Hdst. destruct Hdst as (y & Hd1 & Hd2 & Hd3 & Hd4).
  change (a = x) in Hs2. change (x <= b) in Hs3.
  change (chain b (map src_of back) (len source)) in Hs4.
  change (c = y) in Hd2. change (y <= c') in Hd3.
  change (chain c' (map dst_of back) (len d)) in Hd4. subst x y.
  pose proof (chain_le _ _ _ Hs1). pose proof (chain_le _ _ _ Hs4).
  pose proof (chain_le _ _ _ Hd1). pose proof (chain_le _ _ _ Hd4).
  repeat split; assumption.
Qed.

Lemma prefix_segment_src s a c :
  a <= s -> chain a (map src_of (prefix_segment s a c)) s.
Proof.
  intros H. unfold prefix_segment. destruct (Z.eqb_spec s a); simpl; lia.
Qed.

Lemma prefix_segment_dst s a c :
  a <= s -> chain c (map dst_of (prefix_segment s a c)) (c + (s - a)).
Proof.
  intros H. unfold prefix_segment. destruct (Z.eqb_spec s a); simpl; lia.
Qed.

Lemma suffix_segment_src e b t1 :
  e <= b -> chain e (map src_of (suffix_segment e b t1)) b.
Proof.
  intros H. unfold suffix_segment. destruct (Z.eqb_spec e b); simpl; lia.
Qed.

Lemma suffix_segment_dst e b t1 :
  e <= b -> chain t1 (map dst_of (suffix_segment e b t1)) (t1 + (b - e)).
Proof.
  intros H. unfold suffix_segment. destruct (Z.eqb_spec e b); simpl; lia.
Qed.

(** X2. The first replacement in a sentence.  With no meta yet ([None] or
    the empty list) the draft argument is ignored: for a token anywhere in
    the sentence, its ends included, the draft becomes the source with the
    token replaced, the meta is the replacement between what is left of
    the sentence on either side, and it covers source and draft. *)
Theorem replace_token_fresh
    (source translation tag : str) (draft : option str)
    (draft_meta : option (list segment)) (s e : Z) :
  draft_meta = None \/ draft_meta = Some [] ->
  0 <= s -> s < e -> e <= len source ->
  let new_draft :=
    source<[0 : s]> ++ translation ++ source<[e : len source]> in
  let new_meta :=
    prefix_segment s 0 0 ++ [((s, e), (s, s + len translation), tag)]
      ++ suffix_segment e (len source) (s + len translation) in
  replace_token source (s, e) translation draft draft_meta tag
  = Ok (new_draft, new_meta)
  /\ covers source new_draft new_meta.
Proof.
  intros Hmeta H0s Hse Hen new_draft new_meta. split.
  - assert (E : replace_token source (s, e) translation draft draft_meta tag
                = replace_token source (s, e) translation (Some source)
                    (Some [((0, len source), (0, len source), untranslated)])
                    tag)
      by (destruct Hmeta as [-> | ->]; reflexivity).
    rewrite E. unfold replace_token. simpl.
    rewrite rt_step_inside by lia. simpl.
    rewrite map_app, map_cons, resolve_leading, resolve_trailing.
    cbn [resolve fst snd]. rewrite !Z.sub_0_r. reflexivity.
  - subst new_draft new_meta. unfold covers. rewrite !map_app. split.
    + apply chain_app. exists s. split; [apply prefix_segment_src; lia|].
      simpl. repeat split; try lia.
      apply suffix_segment_src; lia.
    + apply chain_app. exists s. split.
      * replace s with (0 + (s - 0)) at 2 by lia.
        apply prefix_segment_dst; lia.
      * simpl.
        pose proof (len_nonneg translation).
        repeat split; try lia.
        rewrite !len_app, !len_slice by lia.
        replace (s - 0 + (len translation + (len source - e)))
          with (s + len translation + (len source - e)) by lia.
        apply suffix_segment_dst; lia.
Qed.

Lemma replace_token_fresh_scenario :
  replace_token (py "abc def") (0, 3) (py "XYZW") None None confirmed
  = Ok (py "XYZW def",
        [((0, 3), (0, 4), confirmed); ((3, 7), (4, 8), untranslated)])
  /\ covers (py "abc def") (py "XYZW def")
       [((0, 3), (0, 4), confirmed); ((3, 7), (4, 8), untranslated)].
Proof.
  refine (replace_token_fresh (py "abc def") (py "XYZW") confirmed None None
            0 3 _ _ _ _).
  - left; reflexivity.
  - lia.
  - lia.
  - vm_compute. discriminate.
Defined.

(** X3. Replacing a token by its own source text in a segment whose draft
    text is its source text (as in every untranslated segment of a draft
    that covers) leaves the draft as it was. *)
Theorem replace_token_same_text_keeps_draft
    (source tag draft : str) (front back : list segment)
    (a b c c' : Z) (status : str) (s e : Z) :
  covers source draft (front ++ ((a, b), (c, c'), status) :: back) ->
  a <= s -> s < e -> e <= b ->
  draft<[c : c']> = source<[a : b]> ->
  exists new_meta,
    replace_token source (s, e) source<[s : e]> (Some draft)
      (Some (front ++ ((a, b), (c, c'), status) :: back)) tag
    = Ok (draft, new_meta).
Proof.
  intros Hcov Has Hse Heb Hsync.
  pose proof (replace_token_spliced source source<[s : e]> tag draft front
                back a b c c' status s e Hcov Has Hse Heb) as H.
  cbv zeta in H. rewrite H. eexists. f_equal. f_equal.
  destruct (covers_split _ _ _ _ _ _ _ _ _ Hcov)
    as (_ & (_ & Hcc & _) & Ha & Hb & Hc & Hc').
  rewrite (app_assoc source<[a : s]>), slice_adjacent by lia.
  rewrite (app_assoc source<[a : e]>), slice_adjacent by lia.
  rewrite <- Hsync.
  rewrite (app_assoc draft<[0 : c]>), slice_adjacent by lia.
  rewrite slice_adjacent by lia. apply slice_all.
Qed.

Lemma replace_token_same_text_scenario :
  exists new_meta,
    replace_token (py "abc def ghi") (4, 7) (py "abc def ghi")<[4 : 7]>
      (Some (py "XY def ghi"))
      (Some ([((0, 3), (0, 2), confirmed)]
               ++ ((3, 11), (2, 10), untranslated) :: [])) suggestion
    = Ok (py "XY def ghi", new_meta).
Proof.
  apply (replace_token_same_text_keeps_draft (py "abc def ghi") suggestion
           (py "XY def ghi") [((0, 3), (0, 2), confirmed)] []
           3 11 2 10 untranslated 4 7).
  - unfold covers; simpl. repeat split; try reflexivity; lia.
  - lia.
  - lia.
  - lia.
  - reflexivity.
Defined.

(** A token that starts in the segment and ends after it: only the part up
    to the token and the translation are written, and [offset_diff] is not
    touched. *)
Lemma rt_step_starts_inside source s e translation draft tag st
    a b c c' status :
  a <= s -> s < b -> b < e ->
  rt_step source (s, e) translation draft tag st ((a, b), (c, c'), status)
  = Ok (mk_rt (updated_draft st ++ source<[a : s]> ++ translation)
              (updated_meta st ++ leading s a c)
              (Some (c + (s - a)), snd (translation_offset st))
              (offset_diff st)).
Proof.
  intros Has Hsb Hbe.
  unfold rt_step, src_of, dst_of, status_of, intersects; simpl.
  replace (Z.max s a <? Z.min e b) with true
    by (symmetry; apply Z.ltb_lt; lia).
  unfold rt_begin, rt_end, leading; simpl.
  replace (e =? b) with false by (symmetry; apply Z.eqb_neq; lia).
  replace (e <? b) with false by (symmetry; apply Z.ltb_ge; lia).
  destruct (Z.eqb_spec s a) as [->|Hne]; simpl.
  - rewrite slice_empty, Z.sub_diag, Z.add_0_r, app_nil_r. reflexivity.
  - replace (s >? a) with true by (symmetry; apply Z.gtb_lt; lia).
    simpl. rewrite <- ?app_assoc. reflexivity.
Qed.

(** A token that started in an earlier segment and ends in this one. *)
Lemma rt_step_ends_inside source s e translation draft tag st
    a b c c' status t0 :
  s < a -> a < e -> e <= b -> 0 <= e -> b <= len source ->
  fst (translation_offset st) = Some t0 ->
  let t1 := t0 + len translation in
  rt_step source (s, e) translation draft tag st ((a, b), (c, c'), status)
  = Ok (mk_rt (updated_draft st ++ source<[e : b]>)
              (updated_meta st ++ [((s, e), None, tag)] ++ trailing e b t1)
              (Some t0, Some t1)
              (Some (t1 + (b - e) - c'))).
Proof.
  intros Hsa Hae Heb He Hb Ht t1. subst t1.
  unfold rt_step, src_of, dst_of, status_of, intersects; simpl.
  replace (Z.max s a <? Z.min e b) with true
    by (symmetry; apply Z.ltb_lt; lia).
  unfold rt_begin, rt_end, trailing; simpl.
  replace (s =? a) with false by (symmetry; apply Z.eqb_neq; lia).
  replace (s >? a) with false by (symmetry; rewrite Z.gtb_ltb; apply Z.ltb_ge; lia).
  rewrite Ht.
  destruct (Z.eqb_spec e b) as [->|Hne]; simpl.
  - rewrite slice_empty, Z.sub_diag, Z.add_0_r, !app_nil_r. reflexivity.
  - replace (e <? b) with true by (symmetry; apply Z.ltb_lt; lia).
    rewrite len_slice by lia. reflexivity.
Qed.

(** X4. A token that starts inside the last segment of a covering meta and
    runs past the end of the sentence is not refused: the draft is cut
    after the translation, and the returned meta ends before the token,
    with no entry for the replacement. *)
Theorem replace_token_past_end_truncates
    (source translation tag draft : str) (front : list segment)
    (a b c c' : Z) (status : str) (s e : Z) :
  covers source draft (front ++ [((a, b), (c, c'), status)]) ->
  a <= s -> s < b -> b < e ->
  replace_token source (s, e) translation (Some draft)
    (Some (front ++ [((a, b), (c, c'), status)])) tag
  = Ok (draft<[0 : c]> ++ source<[a : s]> ++ translation,
        front ++ prefix_segment s a c).
Proof.
  intros Hcov Has Hsb Hbe.
  destruct (covers_split _ _ _ _ _ _ _ _ _ Hcov)
    as ((Hs1 & _ & _) & (Hd1 & Hcc & _) & Ha & Hb & Hc & Hc').
  rewrite replace_token_nonempty by (destruct front; discriminate).
  rewrite rt_loop_app, rt_loop_before; [|lia|].
  2:{ intros m Hm.
      destruct (chain_bounds _ _ _ (src_of m) Hs1 (in_map src_of _ _ Hm)).
      lia. }
  simpl. rewrite rt_step_starts_inside by lia. simpl.
  rewrite map_app, map_resolve_lit, resolve_leading.
  rewrite dst_slices_chain, (chain_slices draft _ _ _ Hd1) by lia.
  reflexivity.
Qed.

Lemma replace_token_past_end_scenario :
  replace_token (py "abc def") (4, 9) (py "XY") (Some (py "PQ def"))
    (Some ([((0, 3), (0, 2), confirmed)]
             ++ [((3, 7), (2, 6), untranslated)])) confirmed
  = Ok (py "PQ XY",
        [((0, 3), (0, 2), confirmed); ((3, 4), (2, 3), untranslated)]).
Proof.
  refine (replace_token_past_end_truncates (py "abc def") (py "XY") confirmed
            (py "PQ def") [((0, 3), (0, 2), confirmed)] 3 7 2 6 untranslated
            4 9 _ _ _ _).
  - unfold covers; simpl. repeat split; try reflexivity; lia.
  - lia.
  - lia.
  - lia.
Defined.

(** With no start written yet, the loop over a covering rest of the meta
    stops at the segment in which the token ends. *)
Lemma rt_loop_no_start source s e translation d tag : forall rs st p,
  s < 0 -> 0 <= p -> p < e ->
  chain p (map src_of rs) (len source) -> e <= len source ->
  fst (translation_offset st) = None ->
  rt_loop source (s, e) translation (Some d) tag st rs = Raise TypeError.
Proof.
  induction rs as [|m rs IH]; intros st p Hs Hp Hpe Hch Hen Hnone;
    simpl in Hch.
  - lia.
  - destruct m as [[[a b] [c c']] status].
    destruct Hch as (Ha & Hab & Hrest).
    change (a = p) in Ha. change (p <= b) in Hab.
    change (chain b (map src_of rs) (len source)) in Hrest. subst a.
    simpl. unfold rt_step, src_of, dst_of, status_of, intersects; simpl.
    destruct (Z.ltb_spec (Z.max s p) (Z.min e b)) as [Hint|Hint].
    + unfold rt_begin; simpl.
      replace (s =? p) with false by (symmetry; apply Z.eqb_neq; lia).
      replace (s >? p) with false
        by (symmetry; rewrite Z.gtb_ltb; apply Z.ltb_ge; lia).
      unfold rt_end; simpl. rewrite Hnone.
      destruct (Z.eqb_spec e b); [reflexivity|].
      destruct (Z.ltb_spec e b); [reflexivity|].
      simpl. apply (IH st b); trivial; lia.
    + replace (b <? e) with true by (symmetry; apply Z.ltb_lt; lia).
      simpl. apply (IH _ b); trivial; lia.
Qed.

(** X5. A token whose start is negative is refused by accident: on a
    covering meta, whatever the segment in which the token ends, the
    start of the translation is still [None] when its end is computed. *)
Theorem replace_token_negative_start
    (source translation tag draft : str) (meta : list segment) (s e : Z) :
  covers source draft meta ->
  s < 0 -> 0 < e -> e <= len source ->
  replace_token source (s, e) translation (Some draft) (Some meta) tag
  = Raise TypeError.
Proof.
  intros [Hsrc _] Hs He Hen.
  assert (Hne : meta <> []) by (intros ->; simpl in Hsrc; lia).
  rewrite replace_token_nonempty by assumption.
  rewrite (rt_loop_no_start source s e translation draft tag meta rt_init 0)
    by (trivial; lia).
  reflexivity.
Qed.

Lemma replace_token_negative_start_scenario :
  replace_token (py "abc def") (-1, 3) (py "XY") (Some (py "abc def"))
    (Some [((0, 7), (0, 7), untranslated)]) confirmed
  = Raise TypeError.
Proof.
  apply (replace_token_negative_start (py "abc def") (py "XY") confirmed
           (py "abc def") [((0, 7), (0, 7), untranslated)] (-1) 3).
  - unfold covers; simpl. repeat split; try reflexivity; lia.
  - lia.
  - lia.
  - vm_compute. discriminate.
Defined.

(** X6. A token that spans two adjacent segments is not refused either:
    the two segments are merged around the replacement, the result covers
    source and draft as for a token inside one segment. *)
Theorem replace_token_merges_two_segments
    (source translation tag draft : str) (front back : list segment)
    (a1 b1 c1 c1' : Z) (status1 : str) (a2 b2 c2 c2' : Z) (status2 : str)
    (s e : Z) :
  covers source draft
    (front ++ ((a1, b1), (c1, c1'), status1)
       :: ((a2, b2), (c2, c2'), status2) :: back) ->
  a1 <= s -> s < b1 -> b1 < e -> e <= b2 ->
  let t0 := c1 + (s - a1) in
  let t1 := t0 + len translation in
  let new_draft :=
    draft<[0 : c1]> ++ source<[a1 : s]> ++ translation
      ++ source<[e : b2]> ++ draft<[c2' : len draft]> in
  let new_meta :=
    front ++ prefix_segment s a1 c1 ++ [((s, e), (t0, t1), tag)]
      ++ suffix_segment e b2 t1
      ++ map (shift_segment (t1 + (b2 - e) - c2')) back in
  replace_token source (s, e) translation (Some draft)
    (Some (front ++ ((a1, b1), (c1, c1'), status1)
             :: ((a2, b2), (c2, c2'), status2) :: back)) tag
  = Ok (new_draft, new_meta)
  /\ covers source new_draft new_meta.
Proof.
  intros Hcov Has Hsb Hbe Heb t0 t1 new_draft new_meta.
  destruct (covers_split _ _ _ _ _ _ _ _ _ Hcov)
    as ((Hs1 & Hab1 & Hs2) & (Hd1 & Hcc1 & Hd2) & Ha & Hb & Hc & Hc').
  simpl in Hs2, Hd2.
  destruct Hs2 as (Hs2a & Hs2b & Hs2c). destruct Hd2 as (Hd2a & Hd2b & Hd2c).
  change (a2 = b1) in Hs2a. change (b1 <= b2) in Hs2b.
  change (chain b2 (map src_of back) (len source)) in Hs2c.
  change (c2 = c1') in Hd2a. change (c1' <= c2') in Hd2b.
  change (chain c2' (map dst_of back) (len draft)) in Hd2c.
  subst a2 c2.
  pose proof (chain_le _ _ _ Hs2c). pose proof (chain_le _ _ _ Hd2c).
  pose proof (len_nonneg translation).
  assert (Hrun :
    replace_token source (s, e) translation (Some draft)
      (Some (front ++ ((a1, b1), (c1, c1'), status1)
               :: ((b1, b2), (c1', c2'), status2) :: back)) tag
    = Ok (new_draft, new_meta)).
  { rewrite replace_token_nonempty by (destruct front; discriminate).
    rewrite rt_loop_app, rt_loop_before; [|lia|].
    2:{ intros m Hm.
        destruct (chain_bounds _ _ _ (src_of m) Hs1 (in_map src_of _ _ Hm)).
        lia. }
    cbn [bind rt_loop].
    rewrite rt_step_starts_inside by lia. cbn [bind].
    rewrite rt_step_ends_inside with (t0 := t0) by (trivial; lia).
    cbn [bind].
    rewrite rt_loop_after with (delta := t1 + (b2 - e) - c2');
      [|reflexivity|].
    2:{ intros m Hm.
        destruct (chain_bounds _ _ _ (src_of m) Hs2c (in_map src_of _ _ Hm)).
        lia. }
    cbn [bind updated_draft updated_meta translation_offset rt_init].
    rewrite !map_app, map_resolve_lit, resolve_leading, resolve_trailing,
      resolve_shifted.
    rewrite !dst_slices_chain.
    rewrite (chain_slices draft _ _ _ Hd1), (chain_slices draft _ _ _ Hd2c)
      by lia.
    subst new_draft new_meta. cbn [map resolve fst snd app].
    rewrite <- !app_assoc. reflexivity. }
  split; [exact Hrun|].
  subst new_draft new_meta. unfold covers. rewrite !map_app. split.
  - apply chain_app. exists a1. split; [assumption|].
    apply chain_app. exists s. split; [apply prefix_segment_src; lia|].
    simpl. repeat split; try lia.
    apply chain_app. exists b2. split; [apply suffix_segment_src; lia|].
    rewrite map_map. simpl. exact Hs2c.
  - apply chain_app. exists c1. split; [assumption|].
    apply chain_app. exists t0. split; [apply prefix_segment_dst; lia|].
    simpl. repeat split; try (subst t1; lia).
    apply chain_app. exists (t1 + (b2 - e)).
    split; [apply suffix_segment_dst; lia|].
    rewrite !len_app, !len_slice by lia.
    replace (map dst_of (map (shift_segment (t1 + (b2 - e) - c2')) back))
      with (map (fun r => (fst r + (t1 + (b2 - e) - c2'),
                           snd r + (t1 + (b2 - e) - c2')))
              (map dst_of back))
      by (rewrite !map_map; reflexivity).
    replace (t1 + (b2 - e)) with (c2' + (t1 + (b2 - e) - c2')) at 1 by lia.
    replace (c1 - 0 + (s - a1 + (len translation
               + (b2 - e + (len draft - c2')))))
      with (len draft + (t1 + (b2 - e) - c2')) by (subst t1 t0; lia).
    apply chain_shift. assumption.
Qed.

Lemma replace_token_merges_scenario :
  replace_token (py "abc def ghi") (4, 9) (py "XY") (Some (py "abc def ghi"))
    (Some ([] ++ ((0, 7), (0, 7), untranslated)
              :: ((7, 11), (7, 11), untranslated) :: [])) confirmed
  = Ok (py "abc XYhi",
        [((0, 4), (0, 4), untranslated); ((4, 9), (4, 6), confirmed);
         ((9, 11), (6, 8), untranslated)])
  /\ covers (py "abc def ghi") (py "abc XYhi")
       [((0, 4), (0, 4), untranslated); ((4, 9), (4, 6), confirmed);
        ((9, 11), (6, 8), untranslated)].
Proof.
  refine (replace_token_merges_two_segments (py "abc def ghi") (py "XY")
            confirmed (py "abc def ghi") [] [] 0 7 0 7 untranslated
            7 11 7 11 untranslated 4 9 _ _ _ _ _).
  - unfold covers; simpl. repeat split; try reflexivity; lia.
  - lia.
  - lia.
  - lia.
  - lia.
Defined.

(** ** The tokenizer: words, tokens and offsets *)

Lemma split_aux_no_space : forall w acc,
  Forall (fun c => isspace c = false) w ->
  split_aux acc w = match acc ++ w with [] => [] | x => [x] end.
Proof.
  induction w as [|c w IH]; intros acc H; simpl.
  - rewrite app_nil_r. destruct acc; reflexivity.
  - inversion H as [|? ? Hc Hw]; subst. rewrite Hc.
    rewrite IH by assumption. rewrite <- app_assoc. reflexivity.
Qed.

Lemma split_word w : is_word w -> split w = [w].
Proof.
  intros [Hne Hw]. unfold split. rewrite split_aux_no_space by assumption.
  simpl. destruct w; [congruence | reflexivity].
Qed.

Lemma split_aux_space sp t : isspace sp = true ->
  forall s acc, split_aux acc (s ++ sp :: t) = split_aux acc s ++ split t.
Proof.
  intros Hsp. induction s as [|c s IH]; intros acc; simpl.
  - rewrite Hsp. destruct acc; reflexivity.
  - destruct (isspace c).
    + destruct acc; rewrite IH; reflexivity.
    + apply IH.
Qed.

Lemma split_aux_words : forall s acc,
  Forall (fun c => isspace c = false) acc ->
  Forall is_word (split_aux acc s).
Proof.
  induction s as [|c s IH]; intros acc Hacc; simpl.
  - destruct acc; constructor; [|constructor].
    split; [discriminate | assumption].
  - destruct (isspace c) eqn:Hc.
    + destruct acc as [|x acc].
      * apply IH. constructor.
      * constructor; [split; [discriminate | assumption]|].
        apply IH. constructor.
    + apply IH. apply Forall_app. split; [assumption|].
      constructor; [assumption | constructor].
Qed.

Lemma split_words s : Forall is_word (split s).
Proof. apply split_aux_words. constructor. Qed.

Lemma split_lstrip s : split (lstrip s) = split s.
Proof.
  induction s as [|c s IH]; simpl; [reflexivity|].
  destruct (isspace c) eqn:Hc; [|reflexivity].
  rewrite IH. unfold split. simpl. now rewrite Hc.
Qed.

Lemma split_rev_lstrip r : split (rev (lstrip r)) = split (rev r).
Proof.
  induction r as [|c r IH]; simpl; [reflexivity|].
  destruct (isspace c) eqn:Hc; [|reflexivity].
  rewrite IH. unfold split. rewrite (split_aux_space c [] Hc).
  unfold split. simpl. now rewrite app_nil_r.
Qed.

Lemma split_strip s : split (strip s) = split s.
Proof.
  unfold strip. rewrite split_rev_lstrip, rev_involutive. apply split_lstrip.
Qed.

Lemma split_add_word cur w :
  is_word w -> split (cur ++ space ++ w) = split cur ++ [w].
Proof.
  intros Hw. unfold space. simpl. unfold split at 1.
  rewrite (split_aux_space 32%N w eq_refl).
  rewrite (split_word w) by assumption. reflexivity.
Qed.

Lemma flat_map_split_words words :
  Forall is_word words -> flat_map split words = words.
Proof.
  induction 1 as [|w words Hw _ IH]; simpl; [reflexivity|].
  rewrite split_word by assumption. now rewrite IH.
Qed.

Lemma find_phrases_loop_words stop_words : forall words phrases cur state,
  Forall is_word words ->
  flat_map split (find_phrases_loop stop_words words phrases cur state)
  = flat_map split phrases ++ split cur ++ words.
Proof.
  induction words as [|word rest IH]; intros phrases cur state Hw; simpl.
  - rewrite flat_map_app. simpl.
    now rewrite split_strip, !app_nil_r.
  - inversion Hw as [|? ? Hword Hrest]; subst.
    assert (Hadd : forall st,
      flat_map split
        (find_phrases_loop stop_words rest phrases (cur ++ space ++ word) st)
      = flat_map split phrases ++ split cur ++ word :: rest).
    { intros st. rewrite IH by assumption.
      rewrite split_add_word by assumption.
      now rewrite <- app_assoc. }
    assert (Hemit : forall st,
      flat_map split
        (find_phrases_loop stop_words rest (phrases ++ [strip cur]) word st)
      = flat_map split phrases ++ split cur ++ word :: rest).
    { intros st. rewrite IH by assumption.
      rewrite flat_map_app. simpl.
      rewrite split_strip, app_nil_r, (split_word word) by assumption.
      now rewrite <- app_assoc. }
    destruct state.
    + destruct (str_in word (prepositions stop_words)); apply Hadd.
    + destruct (str_in word (postpositions stop_words)); [apply Hadd|].
      destruct (str_in word (prepositions stop_words)); apply Hemit.
Qed.

(** X7. The phrase builder neither loses nor reorders nor invents words:
    whatever the stopwords, and with or without phrase building, splitting
    the returned phrases at whitespace gives the words of the text in
    their order. *)
Theorem find_phrases_keeps_words
    (text : str) (stop_words : stopwords) (include_phrases : bool) :
  flat_map split (find_phrases text stop_words include_phrases) = split text.
Proof.
  unfold find_phrases. destruct include_phrases; simpl.
  - rewrite find_phrases_loop_words by apply split_words.
    reflexivity.
  - apply flat_map_split_words, split_words.
Qed.

(** One pass of the recording loop keeps a property of occurrences that
    every located phrase has. *)
Lemma record_phrases_each (Q : str -> occurrence -> Prop) sent
    include_stopwords sw_list :
  (forall phrase start off,
     str_eqb (strip phrase) [] = false ->
     negb include_stopwords && str_in phrase sw_list = false ->
     find (in_sentence sent) phrase start = Some off ->
     Q phrase (mk_occurrence (in_sentenceId sent)
                 (Z.of_nat off, Z.of_nat off + len phrase))) ->
  forall phrases start tokens tokens',
  each_occurrence Q tokens ->
  record_phrases sent include_stopwords sw_list phrases start tokens
  = Ok tokens' ->
  each_occurrence Q tokens'.
Proof.
  intros HQ. induction phrases as [|phrase rest IH];
    intros start tokens tokens' Hall; simpl.
  - intros [= <-]. exact Hall.
  - destruct (str_eqb (strip phrase) []) eqn:Hblank; [apply IH; exact Hall|].
    destruct (negb include_stopwords && str_in phrase sw_list) eqn:Hsw;
      [apply IH; exact Hall|].
    destruct (find (in_sentence sent) phrase start) as [off|] eqn:Hfind;
      [|discriminate].
    apply IH. clear IH.
    pose proof (HQ phrase start off Hblank Hsw Hfind) as Hnew.
    intros token info occ Hin Hocc.
    destruct (dict_get phrase tokens) as [old|] eqn:Hget;
      apply In_dict_set in Hin; destruct Hin as [[-> ->] | Hin];
      try (now apply (Hall token info occ)).
    + simpl in Hocc. apply in_app_or in Hocc.
      destruct Hocc as [Hold | [<- | []]]; [|exact Hnew].
      apply (Hall phrase old occ); [now apply dict_get_In | exact Hold].
    + simpl in Hocc. destruct Hocc as [<- | []]. exact Hnew.
Qed.

(** Every key of the result has at least one occurrence. *)
Lemma record_phrases_occurs sent include_stopwords sw_list :
  forall phrases start tokens tokens',
  (forall token info, In (token, info) tokens -> occurrences info <> []) ->
  record_phrases sent include_stopwords sw_list phrases start tokens
  = Ok tokens' ->
  forall token info, In (token, info) tokens' -> occurrences info <> [].
Proof.
  induction phrases as [|phrase rest IH];
    intros start tokens tokens' Hall; simpl.
  - intros [= <-]. exact Hall.
  - destruct (str_eqb (strip phrase) []); [apply IH; exact Hall|].
    destruct (negb include_stopwords && str_in phrase sw_list);
      [apply IH; exact Hall|].
    destruct (find (in_sentence sent) phrase start) as [off|];
      [|discriminate].
    apply IH. clear IH. intros token info Hin.
    destruct (dict_get phrase tokens) as [old|];
      apply In_dict_set in Hin; destruct Hin as [[-> ->] | Hin];
      try (now apply (Hall token info)); simpl.
    + destruct (occurrences old); discriminate.
    + discriminate.
Qed.

Lemma tokenize_loop_each (Q : str -> occurrence -> Prop) memory_trie
    punctuations stop_words include_phrases include_stopwords :
  forall sent_list tokens tokens',
  (forall sent, In sent sent_list ->
   forall phrase start off,
     str_eqb (strip phrase) [] = false ->
     negb include_stopwords
     && str_in phrase (prepositions stop_words ++ postpositions stop_words)
     = false ->
     find (in_sentence sent) phrase start = Some off ->
     Q phrase (mk_occurrence (in_sentenceId sent)
                 (Z.of_nat off, Z.of_nat off + len phrase))) ->
  each_occurrence Q tokens
  /\ (forall token info, In (token, info) tokens -> occurrences info <> []) ->
  tokenize_loop memory_trie punctuations stop_words include_phrases
    include_stopwords sent_list tokens = Ok tokens' ->
  each_occurrence Q tokens'
  /\ (forall token info, In (token, info) tokens' -> occurrences info <> []).
Proof.
  induction sent_list as [|sent rest IH]; intros tokens tokens' HQ [H1 H2];
    simpl.
  - intros [= <-]. split; assumption.
  - destruct (sentence_phrases memory_trie punctuations stop_words
                include_phrases sent) as [phrases|]; simpl; [|discriminate].
    destruct (record_phrases sent include_stopwords
                (prepositions stop_words ++ postpositions stop_words)
                phrases 0 tokens) as [tokens1|] eqn:Hrec; simpl;
      [|discriminate].
    apply IH.
    + intros s Hs. apply HQ. right. exact Hs.
    + split.
      * eapply record_phrases_each; [|exact H1|exact Hrec].
        apply HQ. left. reflexivity.
      * eapply record_phrases_occurs; [exact H2|exact Hrec].
Qed.

(** X8. No token of the result is blank, every token has at least one
    occurrence, and when stopwords are excluded no token is one of the
    prepositions or postpositions. *)
Theorem tokenize_tokens_are_proper
    (db_ : Session) (utils : utils_module) (src_lang : str)
    (sent_list : list sentence_input)
    (use_translation_memory include_phrases include_stopwords : bool)
    (punctuations : option (list char)) (stop_words : option stopwords)
    (tokens : list (str * token_info)) :
  tokenize db_ utils src_lang sent_list use_translation_memory
    include_phrases include_stopwords punctuations stop_words = Ok tokens ->
  proper_tokens include_stopwords
    (effective_stopwords utils src_lang stop_words) tokens.
Proof.
  unfold tokenize. intros H token info Hin.
  fold (effective_stopwords utils src_lang stop_words) in H.
  set (sw := effective_stopwords utils src_lang stop_words) in *.
  apply (tokenize_loop_each
           (fun phrase _ =>
              strip phrase <> []
              /\ (include_stopwords = false ->
                  str_in phrase (prepositions sw ++ postpositions sw)
                  = false))) in H.
  - destruct H as [H1 H2]. pose proof (H2 token info Hin) as Hocc.
    split; [exact Hocc|].
    destruct (occurrences info) as [|occ occs] eqn:E; [congruence|].
    apply (H1 token info occ Hin). rewrite E. left. reflexivity.
  - intros sent _ phrase start off Hblank Hsw _. split.
    + intros Hs. rewrite Hs in Hblank. discriminate.
    + intros ->. exact Hsw.
  - split; [intros ? ? ? [] | intros ? ? []].
Qed.

Lemma tokenize_tokens_are_proper_scenario :
  proper_tokens false
    (effective_stopwords scenario_utils (py "hi") (Some fresh_stopwords))
    [(py "जीवन", mk_token_info [mk_occurrence 1 (0, 4)] []);
     (py "के वचन को", mk_token_info [mk_occurrence 1 (5, 14)] []);
     (py "देखो", mk_token_info [mk_occurrence 1 (15, 19)] [])].
Proof.
  apply (tokenize_tokens_are_proper empty_store scenario_utils (py "hi")
           [mk_sentence_input 1 fresh_sentence] false true false None
           (Some fresh_stopwords)).
  vm_compute. reflexivity.
Defined.

Lemma find_at_in_range sub : forall s i off,
  find_at s sub i = Some off ->
  (i <= off)%nat /\ (off + length sub <= i + length s)%nat.
Proof.
  intros s i off H. apply find_at_sound in H.
  destruct H as (k & -> & Hk & Hs).
  apply startswith_length in Hs. rewrite length_skipn in Hs. lia.
Qed.

Lemma find_in_range (s sub : str) (start off : nat) :
  find s sub start = Some off ->
  (start <= off)%nat /\ (off + length sub <= length s)%nat.
Proof.
  unfold find. destruct (Nat.leb_spec start (length s)) as [Hle|];
    [|discriminate].
  intros Hf. apply find_at_in_range in Hf. rewrite length_skipn in Hf. lia.
Qed.

(** X9. Every recorded offset is a range of its sentence as long as the
    token: [0 <= start], [end = start + len token] and
    [end <= len sentence], for a sentence of the list with the recorded
    id. *)
Theorem tokenize_offsets_in_range
    (db_ : Session) (utils : utils_module) (src_lang : str)
    (sent_list : list sentence_input)
    (use_translation_memory include_phrases include_stopwords : bool)
    (punctuations : option (list char)) (stop_words : option stopwords)
    (tokens : list (str * token_info)) :
  tokenize db_ utils src_lang sent_list use_translation_memory
    include_phrases include_stopwords punctuations stop_words = Ok tokens ->
  each_occurrence (occurrence_in_range sent_list) tokens.
Proof.
  unfold tokenize. intros H.
  apply (tokenize_loop_each (occurrence_in_range sent_list)) in H.
  - destruct H as [H1 _]. exact H1.
  - intros sent Hsent phrase start off _ _ Hfind.
    apply find_in_range in Hfind. exists sent. simpl.
    repeat split; trivial; unfold len; lia.
  - split; [intros ? ? ? [] | intros ? ? []].
Qed.

Lemma tokenize_offsets_in_range_scenario :
  each_occurrence (occurrence_in_range [mk_sentence_input 1 fresh_sentence])
    [(py "जीवन", mk_token_info [mk_occurrence 1 (0, 4)] []);
     (py "के वचन को", mk_token_info [mk_occurrence 1 (5, 14)] []);
     (py "देखो", mk_token_info [mk_occurrence 1 (15, 19)] [])].
Proof.
  apply (tokenize_offsets_in_range empty_store scenario_utils (py "hi")
           [mk_sentence_input 1 fresh_sentence] false true false None
           (Some fresh_stopwords)).
  vm_compute. reflexivity.
Defined.

(** ** Context extraction and the lookup without a model *)

Lemma len_slice_last {A} (l : list A) (k : Z) :
  1 <= k -> len l<[- k :]> = Z.min k (len l).
Proof.
  intros Hk. unfold slice, clamp_index.
  replace (- k <? 0) with true by (symmetry; apply Z.ltb_lt; lia).
  unfold len. rewrite length_firstn, length_skipn. lia.
Qed.

Lemma len_slice_first {A} (l : list A) (k : Z) :
  0 <= k -> len l<[: k]> = Z.min k (len l).
Proof.
  intros Hk. unfold slice, clamp_index.
  replace (k <? 0) with false by (symmetry; apply Z.ltb_ge; lia).
  unfold len. rewrite length_firstn, length_skipn. simpl. lia.
Qed.

Lemma list_getitem_middle {A} (front rear : list A) (x : A) :
  list_getitem (front ++ [x] ++ rear) (len front) = Ok x.
Proof.
  unfold list_getitem, len. cbv zeta.
  assert (E : (Z.of_nat (length front) <? 0) = false)
    by (apply Z.ltb_ge; lia).
  rewrite !E.
  rewrite Nat2Z.id, nth_error_app2, Nat.sub_diag by lia. reflexivity.
Qed.

Lemma extract_context_at_index
    (token : str) (offset : offset) (sentence : str) (window_size : Z)
    (punctuations : list char) (index : Z) (context : list str) :
  extract_context token offset sentence window_size punctuations
  = Ok (index, context) ->
  list_getitem context index = Ok token.
Proof.
  unfold extract_context.
  destruct (compile_class punctuations) as [cls|]; [|discriminate].
  cbn [bind]. cbv zeta. intros [= <- <-]. apply list_getitem_middle.
Qed.

(** X10. When the punctuations, joined between square brackets, compile to
    a character class, [extract_context] returns; the context it returns
    holds the token at the returned index; and for a window of at least 2
    there are at most [W/2] (rounded down) words before the token and at
    most [W + 1] words in all. *)
Theorem extract_context_window
    (token : str) (offset : offset) (sentence : str) (window_size : Z)
    (punctuations : list char) (cls : char_class) :
  compile_class punctuations = Ok cls ->
  exists index context,
    extract_context token offset sentence window_size punctuations
    = Ok (index, context)
    /\ list_getitem context index = Ok token
    /\ 0 <= index
    /\ (2 <= window_size ->
        index <= window_size / 2 /\ len context <= window_size + 1).
Proof.
  intros Hcls. unfold extract_context. rewrite Hcls. cbn [bind]. cbv zeta.
  set (front := split (filter (fun c => negb (class_matches cls c))
                         sentence<[: fst offset]>)).
  set (rear := split (filter (fun c => negb (class_matches cls c))
                        sentence<[snd offset :]>)).
  set (front' := if window_size <=? 2 * len front
                 then front<[- (window_size / 2) :]> else front).
  set (rear' := if window_size <=? 2 * len rear
                then rear<[: (window_size + 1) / 2]> else rear).
  eexists; eexists. split; [reflexivity|].
  split; [apply list_getitem_middle|].
  split; [apply len_nonneg|].
  intros HW.
  pose proof (Z.div_mod window_size 2 ltac:(lia)) as Hdm.
  pose proof (Z.mod_pos_bound window_size 2 ltac:(lia)) as Hmb.
  pose proof (Z.div_mod (window_size + 1) 2 ltac:(lia)) as Hdm1.
  pose proof (Z.mod_pos_bound (window_size + 1) 2 ltac:(lia)) as Hmb1.
  pose proof (len_nonneg front). pose proof (len_nonneg rear).
  assert (Hf : len front' <= window_size / 2).
  { subst front'. destruct (Z.leb_spec window_size (2 * len front)).
    - rewrite len_slice_last by lia. lia.
    - lia. }
  assert (Hr : len rear' <= (window_size + 1) / 2).
  { subst rear'. destruct (Z.leb_spec window_size (2 * len rear)).
    - rewrite len_slice_first by lia. lia.
    - lia. }
  split; [exact Hf|].
  rewrite !len_app. change (len [token]) with 1. lia.
Qed.

(** A class with a range: the letters are stripped, and the token is
    alone in its context. *)
Lemma extract_context_window_scenario :
  exists index context,
    extract_context (py "d") (6, 7) (py "a b c d e f g h") 5 (py "!-z")
    = Ok (index, context)
    /\ list_getitem context index = Ok (py "d")
    /\ 0 <= index
    /\ (2 <= 5 -> index <= 5 / 2 /\ len context <= 5 + 1).
Proof.
  apply (extract_context_window (py "d") (6, 7) (py "a b c d e f g h") 5
           (py "!-z") (false, [Range 33%N 122%N])).
  vm_compute. reflexivity.
Defined.

Lemma split_on_aux_nonempty sep : forall s cur, split_on_aux sep cur s <> [].
Proof.
  induction s as [|c s IH]; intros cur; simpl; [discriminate|].
  destruct (c =? sep)%N; [discriminate | apply IH].
Qed.

Lemma empty_trie_has_nothing {V} (key : str) :
  Pygtrie.has_subtrie (@Pygtrie.empty V) key = false
  /\ Pygtrie.has_key (@Pygtrie.empty V) key = false.
Proof.
  unfold Pygtrie.has_subtrie, Pygtrie.has_key, Pygtrie.path_from_key,
    split_on.
  pose proof (split_on_aux_nonempty Pygtrie.separator key []) as Hne.
  destruct (split_on_aux Pygtrie.separator [] key); [congruence|].
  split; reflexivity.
Qed.

Lemma score_keys_empty_trie : forall keys trans total,
  score_keys Pygtrie.empty keys trans total = Ok (trans, total).
Proof.
  induction keys as [|key rest IH]; intros trans total; simpl;
    [reflexivity|].
  destruct (empty_trie_has_nothing (V := senses) key) as [-> ->].
  simpl. apply IH.
Qed.

Lemma get_translation_suggestion_empty
    (index : token_ref) (context : list str) :
  get_translation_suggestion index context Pygtrie.empty
  = (_ <- resolve_token index context ;; Ok []).
Proof.
  unfold get_translation_suggestion, resolve_token.
  destruct index as [word | i].
  - destruct (list_index word context); simpl; [|reflexivity].
    rewrite score_keys_empty_trie. reflexivity.
  - destruct (list_getitem context i); simpl; [|reflexivity].
    rewrite score_keys_empty_trie. reflexivity.
Qed.

(** X11. An empty trie suggests nothing: the lookup fails only if the
    token cannot be found in the context (index out of range, or word
    absent), and otherwise returns the empty list. *)
Theorem lookup_in_empty_trie (index : token_ref) (context : list str) :
  get_translation_suggestion index context Pygtrie.empty
  = (_ <- resolve_token index context ;; Ok []).
Proof.
  unfold get_translation_suggestion, resolve_token.
  destruct index as [word | i].
  - destruct (list_index word context); simpl; [|reflexivity].
    rewrite score_keys_empty_trie. reflexivity.
  - destruct (list_getitem context i); simpl; [|reflexivity].
    rewrite score_keys_empty_trie. reflexivity.
Qed.

Lemma translate_occurrence_without_model utils sent token occ d out :
  draft sent = Some d -> d <> [] ->
  translate_occurrence utils Pygtrie.empty sent token occ = Ok out ->
  out = sent.
Proof.
  intros Hd Hne. unfold translate_occurrence.
  destruct (extract_context token (occ_offset occ) (sentence sent) 5
              (utils_punctuations utils ++ utils_numbers utils))
    as [[index context]|] eqn:Hctx; [|discriminate].
  apply extract_context_at_index in Hctx. cbn [bind].
  rewrite get_translation_suggestion_empty. unfold resolve_token.
  rewrite Hctx.
  simpl. rewrite Hd. destruct d; [congruence|]. now intros [= <-].
Qed.

Lemma translate_tokens_without_model utils sent d :
  draft sent = Some d -> d <> [] ->
  forall tokens out,
    translate_tokens utils Pygtrie.empty sent tokens = Ok out -> out = sent.
Proof.
  intros Hd Hne.
  assert (Hoccs : forall token occs out,
            translate_occurrences utils Pygtrie.empty sent token occs
            = Ok out -> out = sent).
  { intros token. induction occs as [|occ occs IHo]; intros out; simpl.
    - now intros [= <-].
    - destruct (translate_occurrence utils Pygtrie.empty sent token occ)
        as [sent'|] eqn:Hocc; simpl; [|discriminate].
      apply (translate_occurrence_without_model utils sent token occ d)
        in Hocc; trivial.
      subst sent'. apply IHo. }
  induction tokens as [|[token info] rest IH]; intros out; simpl.
  - now intros [= <-].
  - destruct (translate_occurrences utils Pygtrie.empty sent token
                (occurrences info)) as [sent'|] eqn:Ho; simpl;
      [|discriminate].
    apply Hoccs in Ho. subst sent'. apply IH.
Qed.

(** X12. Without a model (nothing cached for the source language, no
    snapshot file) [auto_translate] changes no sentence that has a
    non-empty draft: whenever the call returns, what it returns is the
    list it was given. *)
Theorem auto_translate_without_model
    (db_ : Session) (utils : utils_module)
    (suggestion_trie_in_mem : list (str * suggestion_trie))
    (sentence_list out : list draft_row) (source_lang target_lang : language)
    (punctuations : option (list char)) (stop_words : option stopwords) :
  dict_get (code source_lang) suggestion_trie_in_mem = None ->
  Forall (fun row => exists d, draft row = Some d /\ d <> []) sentence_list ->
  auto_translate db_ utils suggestion_trie_in_mem false sentence_list
    source_lang target_lang punctuations stop_words = Ok out ->
  auto_translate db_ utils suggestion_trie_in_mem false sentence_list
    source_lang target_lang punctuations stop_words = Ok sentence_list.
Proof.
  intros Hcache Hrows Hout. rewrite Hout. f_equal. revert Hout.
  unfold auto_translate, load_suggestion_trie.
  rewrite Hcache. simpl.
  generalize (match punctuations with
              | Some (_ :: _) => punctuations
              | _ => None
              end).
  intros punct. revert out.
  induction Hrows as [|row rows (d & Hd & Hne) _ IH]; intros out; simpl.
  - intros [= <-]. reflexivity.
  - destruct (tokenize db_ utils (code source_lang)
                [mk_sentence_input (sentenceId row) (sentence row)]
                true true true punct stop_words) as [tokens|]; simpl;
      [|discriminate].
    destruct (translate_tokens utils Pygtrie.empty row tokens) as [row'|]
      eqn:Hrow; simpl; [|discriminate].
    apply (translate_tokens_without_model utils row d Hd Hne) in Hrow.
    subst row'.
    destruct (translate_sentences db_ utils Pygtrie.empty (code source_lang)
                punct stop_words rows) as [rest|]; simpl; [|discriminate].
    intros [= <-]. f_equal. apply IH. reflexivity.
Qed.

(** A call that returns: the tokens of ["a b c"] are looked up in the
    empty trie, and the confirmed row comes back as it was. *)
Lemma auto_translate_without_model_scenario :
  auto_translate empty_store scenario_utils [] false [confirmed_row]
    english hindi None None
  = Ok [confirmed_row].
Proof.
  apply (auto_translate_without_model empty_store scenario_utils []
           [confirmed_row] [confirmed_row] english hindi None None).
  - reflexivity.
  - constructor; [|constructor]. eexists. split; [reflexivity|discriminate].
  - vm_compute. reflexivity.
Defined.

(** ** Key enumeration *)

Lemma In_insert_desc {A} (key_lt : A -> A -> bool) (x z : A) : forall l,
  In z (insert_desc key_lt x l) <-> z = x \/ In z l.
Proof.
  induction l as [|y r IH]; simpl.
  - intuition congruence.
  - destruct (key_lt x y); simpl; rewrite ?IH; intuition congruence.
Qed.

Lemma In_sorted_desc {A} (key_lt : A -> A -> bool) (z : A) : forall l,
  In z (sorted_desc key_lt l) <-> In z l.
Proof.
  induction l as [|x r IH]; simpl; [tauto|].
  rewrite In_insert_desc. fold (sorted_desc key_lt r). rewrite IH.
  intuition congruence.
Qed.

Lemma sorted_desc_nonempty {A} (key_lt : A -> A -> bool) (l : list A) :
  l <> [] -> sorted_desc key_lt l <> [].
Proof.
  destruct l as [|x r]; [congruence|]. intros _ H.
  assert (Hin : In x (sorted_desc key_lt (x :: r)))
    by (apply In_sorted_desc; left; reflexivity).
  rewrite H in Hin. exact Hin.
Qed.

Lemma insert_desc_len x : forall l,
  desc_len l -> desc_len (insert_desc by_len_lt x l).
Proof.
  induction l as [|y r IH]; simpl; intros H.
  - split; [intros ? []|exact I].
  - destruct H as [Hy Hr]. unfold by_len_lt at 1.
    destruct (Z.ltb_spec (len x) (len y)); simpl.
    + split; [|apply IH; exact Hr].
      intros z Hz. apply In_insert_desc in Hz.
      destruct Hz as [-> | Hz]; [lia | apply Hy; exact Hz].
    + split; [|split; assumption].
      intros z [<- | Hz]; [lia|]. specialize (Hy z Hz). lia.
Qed.

Lemma sorted_desc_len l : desc_len (sorted_desc by_len_lt l).
Proof.
  induction l as [|x r IH]; simpl; [exact I|].
  apply insert_desc_len. exact IH.
Qed.

Lemma take_longest_incl k : forall l p, In k (take_longest l p) -> In k l.
Proof.
  induction l as [|x r IH]; simpl; intros p H; [exact H|].
  destruct (len x <? p); [destruct H|].
  destruct H as [<- | H]; [left; reflexivity|right; eapply IH; exact H].
Qed.

Lemma take_longest_same : forall l p,
  desc_len l -> (forall y, In y l -> len y <= p) ->
  forall k, In k (take_longest l p) -> len k = p.
Proof.
  induction l as [|x r IH]; simpl; intros p Hd Hp k Hk; [destruct Hk|].
  destruct Hd as [Hx Hr].
  destruct (Z.ltb_spec (len x) p); [destruct Hk|].
  pose proof (Hp x (or_introl eq_refl)) as Hxp.
  destruct Hk as [<- | Hk]; [lia|].
  rewrite (IH (len x) Hr Hx k Hk). lia.
Qed.

Lemma finish_keys_incl keys only_longest k :
  In k (finish_keys keys only_longest) -> In k keys.
Proof.
  unfold finish_keys. destruct only_longest; simpl; intros H.
  - apply take_longest_incl in H. apply In_sorted_desc in H. exact H.
  - apply In_sorted_desc in H. exact H.
Qed.

Lemma finish_keys_all keys k :
  In k keys -> In k (finish_keys keys false).
Proof. intros H. unfold finish_keys; simpl. now apply In_sorted_desc. Qed.

Lemma finish_keys_same_len keys : same_len (finish_keys keys true).
Proof.
  unfold finish_keys; simpl.
  pose proof (sorted_desc_len keys) as Hd.
  destruct (sorted_desc by_len_lt keys) as [|x r]; [intros ? ? []|].
  simpl in *. destruct Hd as [Hx Hr].
  pose proof (len_nonneg x).
  destruct (Z.ltb_spec (len x) 0); [lia|].
  assert (Hall : forall k, In k (x :: take_longest r (len x)) ->
                           len k = len x).
  { intros k [<- | Hk]; [reflexivity|].
    apply (take_longest_same r (len x) Hr Hx k Hk). }
  intros k1 k2 H1 H2. rewrite (Hall k1 H1), (Hall k2 H2). reflexivity.
Qed.

Lemma finish_keys_nonempty keys only_longest :
  keys <> [] -> finish_keys keys only_longest <> [].
Proof.
  intros Hne. unfold finish_keys.
  pose proof (sorted_desc_nonempty by_len_lt keys Hne) as Hs.
  destruct only_longest; simpl; [|exact Hs].
  destruct (sorted_desc by_len_lt keys) as [|x r]; [congruence|].
  simpl. pose proof (len_nonneg x).
  destruct (Z.ltb_spec (len x) 0); [lia | discriminate].
Qed.

(** The equations of [form_trie_keys_rec]. *)
Lemma form_trie_keys_rec_nil_nil prefix prev_keys only_longest :
  form_trie_keys_rec [] [] prefix prev_keys only_longest
  = finish_keys prev_keys only_longest.
Proof. reflexivity. Qed.

Lemma form_trie_keys_rec_cons_nil l ls prefix prev_keys only_longest :
  form_trie_keys_rec (l :: ls) [] prefix prev_keys only_longest
  = form_trie_keys_body (form_trie_keys_rec ls []) prefix
      (Some (left_mark ++ l)) None prev_keys only_longest.
Proof. reflexivity. Qed.

Lemma form_trie_keys_rec_nil_cons r rs prefix prev_keys only_longest :
  form_trie_keys_rec [] (r :: rs) prefix prev_keys only_longest
  = form_trie_keys_body (form_trie_keys_rec [] rs) prefix
      None (Some (right_mark ++ r)) prev_keys only_longest.
Proof. reflexivity. Qed.

Lemma form_trie_keys_rec_cons_cons l ls r rs prefix prev_keys only_longest :
  form_trie_keys_rec (l :: ls) (r :: rs) prefix prev_keys only_longest
  = form_trie_keys_body (form_trie_keys_rec ls rs) prefix
      (Some (left_mark ++ l)) (Some (right_mark ++ r)) prev_keys
      only_longest.
Proof. reflexivity. Qed.

(** Induction along the calls of [form_trie_keys_rec]. *)
Lemma form_trie_keys_calls (P : list str -> list str -> Prop) :
  P [] [] ->
  (forall l ls, P ls [] -> P (l :: ls) []) ->
  (forall r rs, P [] rs -> P [] (r :: rs)) ->
  (forall l ls r rs, P ls rs -> P (l :: ls) (r :: rs)) ->
  forall to_left to_right, P to_left to_right.
Proof.
  intros H00 H10 H01 H11.
  induction to_left as [|l ls IH]; intros to_right.
  - induction to_right as [|r rs IHr]; auto.
  - destruct to_right as [|r rs]; auto.
Qed.

Lemma form_trie_keys_shape to_left to_right prefix prev_keys only_longest :
  exists keys,
    form_trie_keys_rec to_left to_right prefix prev_keys only_longest
    = finish_keys keys only_longest.
Proof.
  destruct to_left, to_right;
    [rewrite form_trie_keys_rec_nil_nil
    |rewrite form_trie_keys_rec_nil_cons
    |rewrite form_trie_keys_rec_cons_nil
    |rewrite form_trie_keys_rec_cons_cons];
    unfold form_trie_keys_body; eexists; reflexivity.
Qed.

Lemma snoc_nonempty {A} (l : list A) (x : A) : l ++ [x] <> [].
Proof. destruct l; discriminate. Qed.

Lemma form_trie_keys_body_nonempty rec prefix a b prev_keys only_longest :
  (forall p k o, k <> [] -> rec p k o <> []) ->
  prev_keys <> [] \/ a <> None \/ b <> None ->
  form_trie_keys_body rec prefix a b prev_keys only_longest <> [].
Proof.
  intros Hrec H. unfold form_trie_keys_body. apply finish_keys_nonempty.
  destruct a as [a|], b as [b|].
  - apply Hrec, Hrec. rewrite app_assoc. apply snoc_nonempty.
  - apply Hrec, snoc_nonempty.
  - apply Hrec, snoc_nonempty.
  - destruct H as [H | [H | H]]; congruence.
Qed.

Lemma form_trie_keys_rec_nonempty : forall to_left to_right,
  forall prefix prev_keys only_longest,
  prev_keys <> [] ->
  form_trie_keys_rec to_left to_right prefix prev_keys only_longest <> [].
Proof.
  apply (form_trie_keys_calls
           (fun l r => forall prefix prev_keys only_longest,
              prev_keys <> [] ->
              form_trie_keys_rec l r prefix prev_keys only_longest <> [])).
  - intros. rewrite form_trie_keys_rec_nil_nil.
    now apply finish_keys_nonempty.
  - intros l ls IH prefix prev_keys ol Hne.
    rewrite form_trie_keys_rec_cons_nil.
    apply form_trie_keys_body_nonempty; auto.
  - intros r rs IH prefix prev_keys ol Hne.
    rewrite form_trie_keys_rec_nil_cons.
    apply form_trie_keys_body_nonempty; auto.
  - intros l ls r rs IH prefix prev_keys ol Hne.
    rewrite form_trie_keys_rec_cons_cons.
    apply form_trie_keys_body_nonempty; auto.
Qed.

(** X13. In learning mode the enumeration returns at least one key (given
    at least one to start from), and all the keys it returns have the same
    length: shorter keys never reach the trie. *)
Theorem learning_keys_same_length
    (prefix : str) (to_left to_right prev_keys : list str) :
  prev_keys <> [] ->
  form_trie_keys prefix to_left to_right prev_keys true <> []
  /\ same_len (form_trie_keys prefix to_left to_right prev_keys true).
Proof.
  intros Hne. unfold form_trie_keys. split.
  - now apply form_trie_keys_rec_nonempty.
  - destruct (form_trie_keys_shape to_left to_right prefix prev_keys true)
      as [keys ->].
    apply finish_keys_same_len.
Qed.

Lemma learning_keys_same_length_scenario :
  form_trie_keys (py "b") [py "a"] [py "c"; py "d"] [py "b"] true <> []
  /\ same_len (form_trie_keys (py "b") [py "a"] [py "c"; py "d"] [py "b"]
                 true).
Proof.
  apply (learning_keys_same_length (py "b") [py "a"] [py "c"; py "d"]
           [py "b"]).
  discriminate.
Defined.

Lemma form_trie_keys_body_incl rec prefix a b prev_keys :
  (forall p k, incl k (rec p k false)) ->
  incl prev_keys (form_trie_keys_body rec prefix a b prev_keys false).
Proof.
  intros Hrec k Hk. unfold form_trie_keys_body. apply finish_keys_all.
  destruct a as [a|], b as [b|].
  - apply Hrec, Hrec. apply in_or_app. left.
    apply Hrec. apply in_or_app. left.
    apply Hrec. apply in_or_app. left. exact Hk.
  - apply Hrec. apply in_or_app. left. exact Hk.
  - apply Hrec. apply in_or_app. left. exact Hk.
  - exact Hk.
Qed.

Lemma form_trie_keys_rec_incl : forall to_left to_right,
  forall prefix prev_keys,
  incl prev_keys (form_trie_keys_rec to_left to_right prefix prev_keys false).
Proof.
  apply (form_trie_keys_calls
           (fun l r => forall prefix prev_keys,
              incl prev_keys
                (form_trie_keys_rec l r prefix prev_keys false))).
  - intros prefix prev_keys k Hk. rewrite form_trie_keys_rec_nil_nil.
    now apply finish_keys_all.
  - intros l ls IH prefix prev_keys. rewrite form_trie_keys_rec_cons_nil.
    apply form_trie_keys_body_incl. exact IH.
  - intros r rs IH prefix prev_keys. rewrite form_trie_keys_rec_nil_cons.
    apply form_trie_keys_body_incl. exact IH.
  - intros l ls r rs IH prefix prev_keys.
    rewrite form_trie_keys_rec_cons_cons.
    apply form_trie_keys_body_incl. exact IH.
Qed.

(** X14. In lookup mode no key is dropped: every key given to start from,
    the bare token in particular, is among the returned keys, which come
    longest first. *)
Theorem lookup_keys_keep_all
    (prefix : str) (to_left to_right prev_keys : list str) :
  incl prev_keys (form_trie_keys prefix to_left to_right prev_keys false)
  /\ desc_len (form_trie_keys prefix to_left to_right prev_keys false).
Proof.
  unfold form_trie_keys. split.
  - apply form_trie_keys_rec_incl.
  - destruct (form_trie_keys_shape to_left to_right prefix prev_keys false)
      as [keys ->].
    unfold finish_keys; simpl. apply sorted_desc_len.
Qed.

Lemma form_trie_keys_body_modes rec prefix a b prev_keys prev_keys' :
  (forall p k k', incl k k' -> incl (rec p k true) (rec p k' false)) ->
  incl prev_keys prev_keys' ->
  incl (form_trie_keys_body rec prefix a b prev_keys true)
       (form_trie_keys_body rec prefix a b prev_keys' false).
Proof.
  intros Hrec Hprev k Hk. unfold form_trie_keys_body in *.
  apply finish_keys_all. apply finish_keys_incl in Hk. revert k Hk.
  assert (Hsnoc : forall (x : str) l l', incl l l' ->
                                         incl (l ++ [x]) (l' ++ [x])).
  { intros x l l' H. apply incl_app; [apply incl_appl; exact H|].
    apply incl_appr, incl_refl. }
  destruct a as [a|], b as [b|].
  - apply Hrec, Hrec. rewrite !app_assoc.
    apply Hsnoc, Hsnoc, Hrec, Hsnoc, Hrec, Hsnoc, Hprev.
  - apply Hrec, Hsnoc, Hprev.
  - apply Hrec, Hsnoc, Hprev.
  - exact Hprev.
Qed.

Lemma form_trie_keys_rec_modes : forall to_left to_right,
  forall prefix prev_keys prev_keys',
  incl prev_keys prev_keys' ->
  incl (form_trie_keys_rec to_left to_right prefix prev_keys true)
       (form_trie_keys_rec to_left to_right prefix prev_keys' false).
Proof.
  apply (form_trie_keys_calls
           (fun l r => forall prefix prev_keys prev_keys',
              incl prev_keys prev_keys' ->
              incl (form_trie_keys_rec l r prefix prev_keys true)
                   (form_trie_keys_rec l r prefix prev_keys' false))).
  - intros prefix prev_keys prev_keys' H k Hk.
    rewrite form_trie_keys_rec_nil_nil in *.
    apply finish_keys_all, H. eapply finish_keys_incl. exact Hk.
  - intros l ls IH prefix prev_keys prev_keys' H.
    rewrite !form_trie_keys_rec_cons_nil.
    apply form_trie_keys_body_modes; assumption.
  - intros r rs IH prefix prev_keys prev_keys' H.
    rewrite !form_trie_keys_rec_nil_cons.
    apply form_trie_keys_body_modes; assumption.
  - intros l ls r rs IH prefix prev_keys prev_keys' H.
    rewrite !form_trie_keys_rec_cons_cons.
    apply form_trie_keys_body_modes; assumption.
Qed.

(** X15. Every key under which a sample is learnt is among the keys looked
    up for the same token in the same context: what is stored for a
    context can be found again from it. *)
Theorem learning_keys_are_looked_up
    (prefix : str) (to_left to_right prev_keys : list str) :
  incl (form_trie_keys prefix to_left to_right prev_keys true)
       (form_trie_keys prefix to_left to_right prev_keys false).
Proof.
  unfold form_trie_keys. apply form_trie_keys_rec_modes, incl_refl.
Qed.

(** ** The memory trie *)

Lemma str_eqb_neq (a b : str) : str_eqb a b = false <-> a <> b.
Proof.
  split.
  - intros H E. apply str_eqb_eq in E. congruence.
  - intros H. destruct (str_eqb a b) eqn:E; [|reflexivity].
    apply str_eqb_eq in E. contradiction.
Qed.

Lemma dict_get_update_child_same {V} (step : str)
    (f : Pygtrie.node V -> Pygtrie.node V) : forall ch,
  dict_get step (Pygtrie.update_child step f ch)
  = Some (f (match dict_get step ch with
             | Some c => c
             | None => Pygtrie.empty
             end)).
Proof.
  induction ch as [|[k c] ch IH]; simpl.
  - rewrite (proj2 (str_eqb_eq step step) eq_refl). reflexivity.
  - destruct (str_eqb step k) eqn:E; simpl; rewrite E; [reflexivity|].
    exact IH.
Qed.

Lemma dict_get_update_child_other {V} (step step' : str)
    (f : Pygtrie.node V -> Pygtrie.node V) : forall ch,
  step' <> step ->
  dict_get step' (Pygtrie.update_child step f ch) = dict_get step' ch.
Proof.
  intros ch Hne. induction ch as [|[k c] ch IH]; simpl.
  - now rewrite (proj2 (str_eqb_neq step' step) Hne).
  - destruct (str_eqb step k) eqn:E; simpl.
    + apply str_eqb_eq in E. subst k.
      now rewrite (proj2 (str_eqb_neq step' step) Hne).
    + destruct (str_eqb step' k); [reflexivity | exact IH].
Qed.

Lemma set_path_has_value {V} (v : V) : forall path n,
  has_value path (Pygtrie.set_path path v n).
Proof.
  induction path as [|step rest IH]; intros n; unfold has_value; simpl.
  - eauto.
  - rewrite dict_get_update_child_same. apply IH.
Qed.

Lemma set_path_keeps_value {V} (v : V) : forall path' path n,
  has_value path' n -> has_value path' (Pygtrie.set_path path v n).
Proof.
  induction path' as [|step' rest' IH]; intros path n (x & ch & H);
    unfold has_value in *; simpl in *.
  - injection H as ->. destruct path; simpl; eauto.
  - destruct path as [|step rest]; simpl; [rewrite H; eauto|].
    destruct (dict_get step' (Pygtrie.children_of n)) as [c|] eqn:E;
      [|discriminate].
    destruct (str_eqb step' step) eqn:Es.
    + apply str_eqb_eq in Es. subst step'.
      rewrite dict_get_update_child_same, E. apply IH. eauto.
    + apply str_eqb_neq in Es.
      rewrite dict_get_update_child_other, E by assumption. eauto.
Qed.

Lemma has_key_has_value {V} (t : Pygtrie.node V) (key : str) :
  Pygtrie.has_key t key = true <-> has_value (Pygtrie.path_from_key key) t.
Proof.
  unfold Pygtrie.has_key, has_value. split.
  - destruct (Pygtrie.get_node (Pygtrie.path_from_key key) t)
      as [[[v|] ch]|]; try discriminate. eauto.
  - intros (v & ch & ->). reflexivity.
Qed.

Lemma build_memory_trie_fold token : forall translation_memory t,
  In token translation_memory \/ Pygtrie.has_key t (memory_key token) = true ->
  Pygtrie.has_key
    (fold_left
       (fun memory_trie tok =>
          Pygtrie.setitem memory_trie
            (re_sub_runs isspace [Pygtrie.separator] false tok) 0)
       translation_memory t)
    (memory_key token) = true.
Proof.
  induction translation_memory as [|tok rest IH]; intros t H; simpl.
  - destruct H as [[] | H]. exact H.
  - apply IH. destruct H as [[-> | H] | H]; [right|left; exact H|right].
    + apply has_key_has_value. apply set_path_has_value.
    + apply has_key_has_value. apply set_path_keeps_value.
      apply has_key_has_value. exact H.
Qed.

Lemma split_aux_nonempty c : forall s cur,
  In c s -> isspace c = false -> split_aux cur s <> [].
Proof.
  induction s as [|x s IH]; intros cur Hin Hc; [contradiction|].
  simpl. destruct Hin as [-> | Hin].
  - rewrite Hc. clear IH. revert cur. generalize c.
    induction s as [|y s IHs]; intros c0 cur; simpl.
    + destruct (cur ++ [c0]) eqn:E; [|discriminate].
      destruct cur; discriminate.
    + destruct (isspace y).
      * destruct (cur ++ [c0]) eqn:E; [|discriminate].
        destruct cur; discriminate.
      * apply IHs.
  - destruct (isspace x).
    + destruct cur; [now apply IH | discriminate].
    + now apply IH.
Qed.

Lemma ends_word_tail c r :
  ends_word (c :: r) -> r <> [] -> ends_word r.
Proof.
  unfold ends_word. simpl. intros H Hr.
  destruct (rev r) as [|x l] eqn:E.
  - apply (f_equal (@rev char)) in E. rewrite rev_involutive in E.
    contradiction.
  - exact H.
Qed.

Lemma ends_word_has_word s :
  ends_word s -> s <> [] -> exists c, In c s /\ isspace c = false.
Proof.
  unfold ends_word. intros H Hs.
  destruct (rev s) as [|x l] eqn:E.
  - apply (f_equal (@rev char)) in E. rewrite rev_involutive in E.
    contradiction.
  - exists x. split; [|exact H].
    apply in_rev. rewrite E. now left.
Qed.

Lemma join_cons sep w ws :
  ws <> [] -> join sep (w :: ws) = w ++ sep ++ join sep ws.
Proof. destruct ws; [contradiction | reflexivity]. Qed.

(** On a text that does not end in whitespace, replacing the runs of
    whitespace by the separator joins the words by it. *)
Lemma re_sub_runs_joins : forall s,
  (forall cur, cur <> [] -> ends_word s ->
     cur ++ re_sub_runs isspace [Pygtrie.separator] false s
     = join [Pygtrie.separator] (split_aux cur s))
  /\ (s <> [] -> ends_word s ->
      re_sub_runs isspace [Pygtrie.separator] true s
      = join [Pygtrie.separator] (split_aux [] s)).
Proof.
  induction s as [|c r [IHa IHb]].
  - split; [|congruence]. intros cur Hcur _. simpl.
    rewrite app_nil_r. destruct cur; [contradiction | reflexivity].
  - assert (Hr : isspace c = true -> ends_word (c :: r) ->
                 r <> [] /\ ends_word r).
    { intros Hc He. assert (r <> []).
      { intros ->. unfold ends_word in He. simpl in He. congruence. }
      split; [assumption | now apply (ends_word_tail c)]. }
    assert (Hr' : ends_word (c :: r) -> ends_word r).
    { intros He. destruct r as [|x r']; [exact I|].
      apply (ends_word_tail c); [exact He | discriminate]. }
    split.
    + intros cur Hcur He. simpl. destruct (isspace c) eqn:Hc.
      * destruct (Hr eq_refl He) as [Hne He'].
        destruct cur as [|x cur]; [contradiction|].
        destruct (ends_word_has_word r He' Hne) as (z & Hz & Hzs).
        rewrite join_cons by (now apply (split_aux_nonempty z)).
        rewrite (IHb Hne He'). reflexivity.
      * rewrite <- (IHa (cur ++ [c])).
        -- now rewrite <- app_assoc.
        -- destruct cur; discriminate.
        -- now apply Hr'.
    + intros _ He. simpl. destruct (isspace c) eqn:Hc.
      * destruct (Hr eq_refl He) as [Hne He']. now apply IHb.
      * rewrite <- (IHa [c]); [reflexivity | discriminate | now apply Hr'].
Qed.

Lemma memory_key_joins_words c r :
  isspace c = false -> ends_word (c :: r) ->
  memory_key (c :: r) = join [Pygtrie.separator] (split (c :: r)).
Proof.
  intros Hc He. unfold memory_key, split. simpl. rewrite Hc.
  destruct (re_sub_runs_joins r) as [Ha _].
  rewrite <- (Ha [c]).
  - reflexivity.
  - discriminate.
  - destruct r as [|x r']; [exact I|].
    apply (ends_word_tail c); [exact He | discriminate].
Qed.

(** X16. Every token of the translation memory that neither begins nor
    ends with whitespace is a key of the memory trie under its words joined
    by the separator, the key under which [tokenize] looks a phrase up,
    whatever the other tokens and their order. *)
Theorem build_memory_trie_holds_tokens
    (translation_memory : list str) (c : char) (rest : str) :
  In (c :: rest) translation_memory ->
  isspace c = false -> ends_word (c :: rest) ->
  Pygtrie.has_key (build_memory_trie translation_memory)
    (join [Pygtrie.separator] (split (c :: rest)))
  = true.
Proof.
  intros H Hc He. rewrite <- memory_key_joins_words by assumption.
  unfold build_memory_trie. apply build_memory_trie_fold.
  left. exact H.
Qed.

Lemma build_memory_trie_holds_tokens_scenario :
  Pygtrie.has_key
    (build_memory_trie [py "जीवन के वचन"; py "जीवन   का"; py "no"])
    (join [Pygtrie.separator] (split (py "जीवन   का")))
  = true.
Proof.
  apply (build_memory_trie_holds_tokens
           [py "जीवन के वचन"; py "जीवन   का"; py "no"]
           0x91C%N (skipn 1 (py "जीवन   का"))).
  - right. left. reflexivity.
  - reflexivity.
  - reflexivity.
Defined.

(** A token that begins with whitespace is filed under a key that begins
    with the separator, not under its words joined by it. *)
Example build_memory_trie_leading_space :
  Pygtrie.has_key (build_memory_trie [py " a b"]) (py "/a/b") = true
  /\ Pygtrie.has_key (build_memory_trie [py " a b"]) (py "a/b") = false.
Proof. split; reflexivity. Qed.

(** ** Training data *)

Lemma training_data_of_row_spec utils source window_size :
  forall metas acc out,
  training_data_of_row utils source window_size metas acc = Ok out ->
  exists new,
    out = acc ++ new
    /\ length new
       = length (filter (fun m => str_eqb (status_of m) confirmed) metas)
    /\ Forall (fun item =>
         exists seg,
           In seg (filter (fun m => str_eqb (status_of m) confirmed) metas)
           /\ list_getitem (snd item) (fst item)
              = Ok source<[fst (src_of seg) : snd (src_of seg)]>) new.
Proof.
  induction metas as [|meta rest IH]; intros acc out;
    cbn [training_data_of_row filter].
  - intros [= <-]. exists []. rewrite app_nil_r. repeat split. constructor.
  - destruct (str_eqb (status_of meta) confirmed) eqn:E.
    + destruct (extract_context
                  source<[fst (src_of meta) : snd (src_of meta)]>
                  (src_of meta) source window_size
                  (utils_punctuations utils ++ utils_numbers utils))
        as [[index context]|] eqn:Hctx; [|discriminate].
      apply extract_context_at_index in Hctx. cbn [bind]. intros H.
      destruct (IH _ _ H) as (new & -> & Hlen & Hall).
      exists ((index, context) :: new). rewrite <- app_assoc.
      split; [reflexivity|]. split; [simpl; now rewrite Hlen|].
      constructor.
      * exists meta. split; [left; reflexivity | exact Hctx].
      * eapply Forall_impl; [|exact Hall].
        intros item (seg & Hin & Hitem). exists seg.
        split; [right; exact Hin | exact Hitem].
    + apply IH.
Qed.

Lemma training_data_loop_spec utils window_size : forall rows acc out,
  training_data_loop utils rows window_size acc = Ok out ->
  exists new,
    out = acc ++ new
    /\ length new = length (flat_map confirmed_segments rows)
    /\ Forall (sample_of_confirmed rows) new.
Proof.
  induction rows as [|row rest IH]; intros acc out; simpl.
  - intros [= <-]. exists []. rewrite app_nil_r. repeat split. constructor.
  - unfold confirmed_segments at 1.
    destruct (draftMeta row) as [metas|] eqn:Hm; [|discriminate].
    destruct (training_data_of_row utils (sentence row) window_size metas acc)
      as [acc1|] eqn:Hrow; [|discriminate].
    apply training_data_of_row_spec in Hrow.
    destruct Hrow as (new1 & -> & Hlen1 & Hall1). cbn [bind].
    intros H. apply IH in H. destruct H as (new2 & -> & Hlen2 & Hall2).
    exists (new1 ++ new2). rewrite <- app_assoc. split; [reflexivity|].
    split; [rewrite !length_app; lia|].
    apply Forall_app. split.
    + eapply Forall_impl; [|exact Hall1].
      intros item (seg & Hin & Hitem). exists row, seg.
      split; [left; reflexivity|]. split; [|exact Hitem].
      unfold confirmed_segments. rewrite Hm. exact Hin.
    + eapply Forall_impl; [|exact Hall2].
      intros item (r & seg & Hr & Hin & Hitem). exists r, seg.
      split; [right; exact Hr|]. split; assumption.
Qed.

(** X17. The training data drawn from drafts has one sample per confirmed
    segment, and each sample is a context window holding, at its index, the
    source text of such a segment.  (A sample carries no translation.) *)
Theorem training_data_from_confirmed_segments
    (utils : utils_module) (sentence_list : list draft_row)
    (window_size : Z) (training_data : list (Z * list str)) :
  get_training_data_from_drafts utils sentence_list window_size
  = Ok training_data ->
  length training_data = length (flat_map confirmed_segments sentence_list)
  /\ Forall (sample_of_confirmed sentence_list) training_data.
Proof.
  unfold get_training_data_from_drafts. intros H.
  apply training_data_loop_spec in H. destruct H as (new & -> & Hlen & Hall).
  simpl. split; assumption.
Qed.

Lemma training_data_scenario :
  length [(1, [py "a"; py "b"; py "c"])]
  = length (flat_map confirmed_segments [confirmed_row])
  /\ Forall (sample_of_confirmed [confirmed_row])
       [(1, [py "a"; py "b"; py "c"])].
Proof.
  apply (training_data_from_confirmed_segments scenario_utils
           [confirmed_row] 5).
  vm_compute. reflexivity.
Defined.

(** ** Progress *)

Lemma count_segments_grows : forall segments c s u,
  let '(c', s', u') := count_segments segments (c, s, u) in
  c <= c' /\ s <= s' /\ u <= u'
  /\ ((exists seg, In seg segments
                   /\ 1 < snd (src_of seg) - fst (src_of seg)) ->
      c + s + u < c' + s' + u').
Proof.
  induction segments as [|seg rest IH]; intros c s u; simpl.
  - repeat split; try lia. intros (seg & [] & _).
  - set (n := snd (src_of seg) - fst (src_of seg)).
    assert (Hstep : forall c1 s1 u1,
              c <= c1 -> s <= s1 -> u <= u1 ->
              (1 < n -> c + s + u < c1 + s1 + u1) ->
              let '(c', s', u') := count_segments rest (c1, s1, u1) in
              c <= c' /\ s <= s' /\ u <= u'
              /\ ((exists seg0, (seg = seg0 \/ In seg0 rest)
                     /\ 1 < snd (src_of seg0) - fst (src_of seg0)) ->
                  c + s + u < c' + s' + u')).
    { intros c1 s1 u1 Hc Hs Hu Hn. specialize (IH c1 s1 u1).
      destruct (count_segments rest (c1, s1, u1)) as [[c' s'] u'].
      destruct IH as (H1 & H2 & H3 & H4).
      repeat split; try lia.
      intros (seg0 & [<- | Hin] & Hlong).
      - specialize (Hn Hlong). lia.
      - assert (c1 + s1 + u1 < c' + s' + u') by (apply H4; eauto). lia. }
    destruct (Z.leb_spec n 1).
    + apply Hstep; lia.
    + destruct (str_eqb (status_of seg) confirmed);
        [|destruct (str_eqb (status_of seg) suggestion)];
        apply Hstep; lia.
Qed.

Lemma count_rows_grows : forall draft_rows c s u,
  0 <= c -> 0 <= s -> 0 <= u ->
  Forall (fun row => draftMeta row <> None) draft_rows ->
  exists c' s' u',
    count_rows draft_rows (c, s, u) = Ok (c', s', u')
    /\ 0 <= c' /\ 0 <= s' /\ 0 <= u'
    /\ ((exists row segments seg,
           In row draft_rows /\ draftMeta row = Some segments
           /\ In seg segments
           /\ 1 < snd (src_of seg) - fst (src_of seg)) ->
        c + s + u < c' + s' + u')
    /\ c + s + u <= c' + s' + u'.
Proof.
  induction draft_rows as [|row rest IH]; intros c s u Hc Hs Hu Hall; simpl.
  - exists c, s, u. repeat split; try lia.
    intros (row & segments & seg & [] & _).
  - inversion Hall as [|? ? Hrow Hrest]; subst.
    destruct (draftMeta row) as [segments|] eqn:Hm; [|congruence].
    pose proof (count_segments_grows segments c s u) as Hg.
    destruct (count_segments segments (c, s, u)) as [[c1 s1] u1].
    destruct Hg as (H1 & H2 & H3 & H4).
    destruct (IH c1 s1 u1 ltac:(lia) ltac:(lia) ltac:(lia) Hrest)
      as (c' & s' & u' & Hrun & Hc' & Hs' & Hu' & Hlong & Hle).
    exists c', s', u'. repeat split; try assumption; try lia.
    intros (r & segs & seg & [<- | Hr] & Hsegs & Hseg & Hn).
    + rewrite Hm in Hsegs. injection Hsegs as <-.
      assert (c + s + u < c1 + s1 + u1) by (apply H4; eauto). lia.
    + assert (c1 + s1 + u1 < c' + s' + u') by (apply Hlong; eauto 8). lia.
Qed.

(** X18. The progress of an existing project is computed (no error)
    whenever every row has a meta and some segment is longer than one
    character. *)
Theorem progress_is_computed
    (project_row : translation_project) (draft_rows : list draft_row)
    (row : draft_row) (segments : list segment) (seg : segment) :
  Forall (fun r => draftMeta r <> None) draft_rows ->
  In row draft_rows -> draftMeta row = Some segments -> In seg segments ->
  1 < snd (src_of seg) - fst (src_of seg) ->
  exists p, obtain_agmt_progress (Some project_row) draft_rows = Ok p.
Proof.
  intros Hall Hrow Hm Hseg Hlong. unfold obtain_agmt_progress.
  destruct (count_rows_grows draft_rows 0 0 0 ltac:(lia) ltac:(lia)
              ltac:(lia) Hall)
    as (c & s & u & -> & Hc & Hs & Hu & Hgrow & _).
  assert (Hpos : 0 < c + s + u) by (apply Hgrow; eauto 8).
  simpl. unfold true_div.
  replace (c + s + u =? 0) with false by (symmetry; apply Z.eqb_neq; lia).
  simpl. eexists. reflexivity.
Qed.

Lemma progress_is_computed_scenario :
  exists p,
    obtain_agmt_progress (Some (mk_project 1 (py "demo"))) [confirmed_row]
    = Ok p.
Proof.
  apply (progress_is_computed (mk_project 1 (py "demo")) [confirmed_row]
           confirmed_row
           [((0, 2), (0, 2), untranslated); ((2, 3), (2, 3), confirmed);
            ((3, 5), (3, 5), untranslated)]
           ((0, 2), (0, 2), untranslated)).
  - constructor; [discriminate | constructor].
  - left; reflexivity.
  - reflexivity.
  - left; reflexivity.
  - simpl; lia.
Defined.

(** ** Exports *)

Lemma export_segments_spec sentence d : forall metas i r0 r1 al,
  exists al',
    export_segments sentence (Some d) i metas (r0, r1, al)
    = Ok (r0 ++ map (fun m => JStr sentence<[fst (src_of m) : snd (src_of m)]>)
                  metas,
          r1 ++ map (fun m => JStr d<[fst (dst_of m) : snd (dst_of m)]>)
                  metas,
          al ++ al')
    /\ length al' = length metas.
Proof.
  induction metas as [|meta rest IH]; intros i r0 r1 al; simpl.
  - exists []. rewrite !app_nil_r. split; reflexivity.
  - destruct (IH (i + 1)
                (r0 ++ [JStr sentence<[fst (src_of meta) : snd (src_of meta)]>])
                (r1 ++ [JStr d<[fst (dst_of meta) : snd (dst_of meta)]>])
                (al ++ [JDict (alignment_entry i meta)]))
      as (al' & -> & Hlen).
    exists (JDict (alignment_entry i meta) :: al').
    rewrite <- !app_assoc. split; [reflexivity|]. simpl. now rewrite Hlen.
Qed.

(** X19. For a row whose meta covers sentence and draft, the export loop
    succeeds, the source tokens it emits spell the sentence, the target
    tokens spell the draft, and there is one alignment per segment. *)
Theorem export_tokens_spell_texts
    (row_sentence row_draft : str) (metas : list segment) :
  covers row_sentence row_draft metas ->
  exists r0_tokens r1_tokens alignments,
    export_segments row_sentence (Some row_draft) 0 metas ([], [], [])
    = Ok (r0_tokens, r1_tokens, alignments)
    /\ concat (map json_text r0_tokens) = row_sentence
    /\ concat (map json_text r1_tokens) = row_draft
    /\ length alignments = length metas.
Proof.
  intros [Hsrc Hdst].
  destruct (export_segments_spec row_sentence row_draft metas 0 [] [] [])
    as (al & -> & Hlen).
  do 3 eexists. split; [reflexivity|]. simpl. rewrite !map_map. simpl.
  repeat split.
  - etransitivity; [|apply slice_all].
    etransitivity;
      [|apply (chain_slices row_sentence _ _ _ Hsrc); unfold len; lia].
    rewrite map_map. reflexivity.
  - etransitivity; [|apply slice_all].
    etransitivity;
      [|apply (chain_slices row_draft _ _ _ Hdst); unfold len; lia].
    rewrite map_map. reflexivity.
  - exact Hlen.
Qed.

Lemma export_tokens_scenario :
  exists r0_tokens r1_tokens alignments,
    export_segments (py "a b c") (Some (py "a X c")) 0
      [((0, 2), (0, 2), untranslated); ((2, 3), (2, 3), confirmed);
       ((3, 5), (3, 5), untranslated)] ([], [], [])
    = Ok (r0_tokens, r1_tokens, alignments)
    /\ concat (map json_text r0_tokens) = py "a b c"
    /\ concat (map json_text r1_tokens) = py "a X c"
    /\ length alignments
       = length [((0, 2), (0, 2), untranslated); ((2, 3), (2, 3), confirmed);
                 ((3, 5), (3, 5), untranslated)].
Proof.
  apply (export_tokens_spell_texts (py "a b c") (py "a X c")).
  unfold covers; simpl. repeat split; try reflexivity; lia.
Defined.

Lemma list_getitem_last {A} (l : list A) :
  (exists x, list_getitem l (-1) = Ok x) <-> l <> [].
Proof.
  unfold list_getitem, len. cbv zeta.
  change (-1 <? 0) with true. cbv iota.
  destruct l as [|a l].
  - simpl. split; [intros [x H]; discriminate | congruence].
  - split; [discriminate|]. intros _.
    replace (-1 + Z.of_nat (length (a :: l)) <? 0) with false
      by (symmetry; apply Z.ltb_ge; simpl length; lia).
    destruct (nth_error (a :: l)
                (Z.to_nat (-1 + Z.of_nat (length (a :: l)))))
      as [x|] eqn:E; [exists x; reflexivity|].
    apply nth_error_None in E. simpl length in E. lia.
Qed.

Lemma obtain_draft_text_loop_runs punctuations : forall rows text prev_id,
  (exists out, obtain_draft_text_loop punctuations rows text prev_id = Ok out)
  <-> drafts_written rows.
Proof.
  unfold drafts_written.
  induction rows as [|row rest IH]; intros text prev_id; simpl.
  - split; [constructor | eauto].
  - destruct (draft row) as [d|] eqn:Hd; simpl.
    + pose proof (list_getitem_last d) as Hlast.
      destruct (list_getitem d (-1)) as [last|e] eqn:Hl; simpl.
      * rewrite IH. split.
        -- intros H. constructor; [|exact H].
           exists d. split; [exact Hd|]. apply Hlast. eauto.
        -- intros H. inversion H; assumption.
      * split; [intros [out H]; discriminate|].
        intros H. inversion H as [|? ? (d' & Hd' & Hne) _]; subst.
        rewrite Hd in Hd'. injection Hd' as <-.
        apply Hlast in Hne. destruct Hne as [x Hx]. discriminate.
    + split; [intros [out H]; discriminate|].
      intros H. inversion H as [|? ? (d' & Hd' & _) _]; subst.
      rewrite Hd in Hd'. discriminate.
Qed.

(** The pattern is compiled before the loop: tables that do not compile
    stop the export whatever the sentences, the empty list included. *)
Lemma obtain_draft_text_needs_class utils sentence_list e :
  compile_class (utils_punctuations utils ++ utils_numbers utils) = Raise e ->
  obtain_draft_text utils sentence_list = Raise e.
Proof. intros H. unfold obtain_draft_text. now rewrite H. Qed.

Example obtain_draft_text_without_class :
  obtain_draft_text (mk_utils [] [] (fun _ => mk_stopwords [] [])) []
  = Raise ReError
  /\ drafts_written [].
Proof. split; [reflexivity | constructor]. Qed.

(** X20. When the punctuation and number tables compile to a character
    class, the plain-text export returns a text exactly when every draft
    is a non-empty string: a null draft stops it with a [TypeError], an
    empty one with an [IndexError] on its last character. *)
Theorem obtain_draft_text_runs
    (utils : utils_module) (sentence_list : list draft_row)
    (cls : char_class) :
  compile_class (utils_punctuations utils ++ utils_numbers utils) = Ok cls ->
  ((exists text, obtain_draft_text utils sentence_list = Ok text)
   <-> drafts_written sentence_list).
Proof.
  intros Hcls. unfold obtain_draft_text. rewrite Hcls. cbn [bind].
  apply obtain_draft_text_loop_runs.
Qed.

Lemma obtain_draft_text_runs_scenario :
  (exists text,
     obtain_draft_text scenario_utils [confirmed_row; emptied_row] = Ok text)
  <-> drafts_written [confirmed_row; emptied_row].
Proof.
  apply (obtain_draft_text_runs scenario_utils [confirmed_row; emptied_row]
           (false, map Literal (py ",.;:!?।0123456789"))).
  vm_compute. reflexivity.
Defined.

Lemma obtain_draft_csv_runs_from : forall rows text,
  (exists out, obtain_draft_csv rows text = Ok out)
  <-> Forall (fun row => draft row <> None) rows.
Proof.
  induction rows as [|row rest IH]; intros text; simpl.
  - split; [constructor | eauto].
  - destruct (draft row) as [d|] eqn:Hd; simpl.
    + rewrite IH. split.
      * intros H. constructor; [congruence | exact H].
      * intros H. inversion H; assumption.
    + split; [intros [out H]; discriminate|].
      intros H. inversion H; congruence.
Qed.

(** X21. The CSV export returns a text exactly when no draft is null. *)
Theorem obtain_draft_csv_runs (sentence_list : list draft_row) :
  (exists text, obtain_draft_csv sentence_list [] = Ok text)
  <-> Forall (fun row => draft row <> None) sentence_list.
Proof. apply obtain_draft_csv_runs_from. Qed.

(** ** Confirming and suggesting for a project *)

Lemma confirm_segment_spec m :
  src_of (confirm_segment m) = src_of m
  /\ dst_of (confirm_segment m) = dst_of m
  /\ status_of (confirm_segment m) <> suggestion
  /\ (status_of m <> suggestion -> confirm_segment m = m)
  /\ (status_of m = suggestion -> status_of (confirm_segment m) = confirmed).
Proof.
  unfold confirm_segment.
  destruct (str_eqb (status_of m) suggestion) eqn:E.
  - apply str_eqb_eq in E. repeat split; try reflexivity.
    + simpl. discriminate.
    + congruence.
  - apply str_eqb_neq in E. repeat split; try reflexivity; tauto.
Qed.

Lemma confirm_row_spec row row' :
  confirm_row row = Ok row' -> confirmed_version row row'.
Proof.
  unfold confirm_row. destruct (draftMeta row) as [metas|] eqn:Hm;
    [|discriminate].
  intros [= <-]. unfold confirmed_version. simpl.
  repeat split. exists metas, (map confirm_segment metas).
  split; [exact Hm|]. split; [reflexivity|].
  repeat split.
  - rewrite map_map. apply map_ext. intros m. apply confirm_segment_spec.
  - rewrite map_map. apply map_ext. intros m. apply confirm_segment_spec.
  - apply Forall_map. apply Forall_forall. intros m _.
    apply confirm_segment_spec.
  - clear Hm. induction metas as [|m metas IH]; simpl; constructor;
      [|exact IH].
    split; apply confirm_segment_spec.
Qed.

Lemma confirm_rows_spec : forall rows out,
  confirm_rows rows = Ok out -> Forall2 confirmed_version rows out.
Proof.
  induction rows as [|row rest IH]; intros out; simpl.
  - intros [= <-]. constructor.
  - destruct (confirm_row row) as [row'|] eqn:Hrow; simpl; [|discriminate].
    destruct (confirm_rows rest) as [rest'|]; simpl; [|discriminate].
    intros [= <-]. constructor; [now apply confirm_row_spec | now apply IH].
Qed.

Lemma confirmed_version_ids rows out :
  Forall2 confirmed_version rows out ->
  map sentenceId out = map sentenceId rows.
Proof.
  induction 1 as [|row row' rows rows' Hrow _ IH]; simpl; [reflexivity|].
  destruct Hrow as (-> & _). now rewrite IH.
Qed.

Lemma confirm_all_returns
    (db_ : Store) (memory : Session) (utils : utils_module)
    (suggestion_trie_in_mem : list (str * suggestion_trie))
    (file_exists : bool) (project_id : Z) (books : list str)
    (sentence_id_range sentence_id_list : list Z) (out : list draft_row) :
  agmt_suggest_translations db_ memory utils suggestion_trie_in_mem
    file_exists project_id books sentence_id_range sentence_id_list true
  = Returns out ->
  exists draft_rows,
    obtain_agmt_source db_ project_id books sentence_id_range
      sentence_id_list = Ok draft_rows
    /\ confirm_rows draft_rows = Ok out.
Proof.
  unfold agmt_suggest_translations.
  destruct (store_project db_ project_id); [|discriminate].
  destruct (obtain_agmt_source db_ project_id books sentence_id_range
              sentence_id_list) as [draft_rows|]; [|discriminate].
  destruct (confirm_rows draft_rows) as [rows'|] eqn:E; simpl;
    [|discriminate].
  intros [= <-]. exists draft_rows. split; [reflexivity | exact E].
Qed.

(** X22. Confirming all suggestions of the selected rows keeps their
    sentences, drafts and ranges, leaves no segment tagged [suggestion],
    and touches no other segment. *)
Theorem confirm_all_suggestions
    (db_ : Store) (memory : Session) (utils : utils_module)
    (suggestion_trie_in_mem : list (str * suggestion_trie))
    (file_exists : bool) (project_id : Z) (books : list str)
    (sentence_id_range sentence_id_list : list Z) (out : list draft_row) :
  agmt_suggest_translations db_ memory utils suggestion_trie_in_mem
    file_exists project_id books sentence_id_range sentence_id_list true
  = Returns out ->
  exists draft_rows,
    obtain_agmt_source db_ project_id books sentence_id_range
      sentence_id_list = Ok draft_rows
    /\ Forall2 confirmed_version draft_rows out.
Proof.
  intros H. apply confirm_all_returns in H.
  destruct H as (draft_rows & Hsrc & Hrows).
  exists draft_rows. split; [exact Hsrc|]. now apply confirm_rows_spec.
Qed.

Lemma translate_occurrence_id utils sugg_trie sent token occ out :
  translate_occurrence utils sugg_trie sent token occ = Ok out ->
  sentenceId out = sentenceId sent.
Proof.
  unfold translate_occurrence.
  destruct (extract_context token (occ_offset occ) (sentence sent) 5
              (utils_punctuations utils ++ utils_numbers utils))
    as [[index context]|]; [|discriminate].
  cbn [bind].
  destruct (get_translation_suggestion (Index index) context sugg_trie)
    as [[|[top score] rest]|]; cbn [bind]; [| |discriminate].
  - destruct (draft sent) as [[|x d]|]; now intros [= <-].
  - destruct (replace_token (sentence sent) (occ_offset occ) top
                (draft sent) (draftMeta sent) suggestion)
      as [[new_draft meta]|]; cbn [bind]; [|discriminate].
    now intros [= <-].
Qed.

Lemma translate_tokens_id utils sugg_trie : forall tokens sent out,
  translate_tokens utils sugg_trie sent tokens = Ok out ->
  sentenceId out = sentenceId sent.
Proof.
  assert (Hoccs : forall token occs sent out,
            translate_occurrences utils sugg_trie sent token occs = Ok out ->
            sentenceId out = sentenceId sent).
  { intros token. induction occs as [|occ occs IHo]; intros sent out; simpl.
    - now intros [= <-].
    - destruct (translate_occurrence utils sugg_trie sent token occ)
        as [sent'|] eqn:Hocc; simpl; [|discriminate].
      apply translate_occurrence_id in Hocc. intros H.
      apply IHo in H. congruence. }
  induction tokens as [|[token info] rest IH]; intros sent out; simpl.
  - now intros [= <-].
  - destruct (translate_occurrences utils sugg_trie sent token
                (occurrences info)) as [sent'|] eqn:Ho; simpl;
      [|discriminate].
    apply Hoccs in Ho. intros H. apply IH in H. congruence.
Qed.

Lemma auto_translate_ids db_ utils suggestion_trie_in_mem file_exists
    sentence_list source_lang target_lang punctuations stop_words out :
  auto_translate db_ utils suggestion_trie_in_mem file_exists sentence_list
    source_lang target_lang punctuations stop_words = Ok out ->
  map sentenceId out = map sentenceId sentence_list.
Proof.
  unfold auto_translate.
  destruct (load_suggestion_trie suggestion_trie_in_mem file_exists
              source_lang) as [sugg_trie|]; [|discriminate].
  cbn [bind].
  generalize (match punctuations with
              | Some (_ :: _) => punctuations
              | _ => None
              end).
  intros punct. revert out.
  induction sentence_list as [|sent rest IH]; intros out; simpl.
  - now intros [= <-].
  - destruct (tokenize db_ utils (code source_lang)
                [mk_sentence_input (sentenceId sent) (sentence sent)]
                true true true punct stop_words) as [tokens|]; simpl;
      [|discriminate].
    destruct (translate_tokens utils sugg_trie sent tokens) as [sent'|]
      eqn:Hsent; simpl; [|discriminate].
    apply translate_tokens_id in Hsent.
    destruct (translate_sentences db_ utils sugg_trie (code source_lang)
                punct stop_words rest) as [rest'|]; simpl; [|discriminate].
    intros [= <-]. simpl. rewrite Hsent. f_equal. now apply IH.
Qed.

(** Whatever [confirm_all], the rows returned have the sentence ids of the
    rows selected. *)
Lemma agmt_suggest_translations_ids
    (db_ : Store) (memory : Session) (utils : utils_module)
    (suggestion_trie_in_mem : list (str * suggestion_trie))
    (file_exists : bool) (project_id : Z) (books : list str)
    (sentence_id_range sentence_id_list : list Z) (confirm_all : bool)
    (out : list draft_row) :
  agmt_suggest_translations db_ memory utils suggestion_trie_in_mem
    file_exists project_id books sentence_id_range sentence_id_list
    confirm_all = Returns out ->
  exists draft_rows,
    obtain_agmt_source db_ project_id books sentence_id_range
      sentence_id_list = Ok draft_rows
    /\ map sentenceId out = map sentenceId draft_rows.
Proof.
  unfold agmt_suggest_translations.
  destruct (store_project db_ project_id) as [project_row|]; [|discriminate].
  destruct (obtain_agmt_source db_ project_id books sentence_id_range
              sentence_id_list) as [draft_rows|]; [|discriminate].
  intros H. exists draft_rows. split; [reflexivity|].
  destruct confirm_all.
  - destruct (confirm_rows draft_rows) as [rows'|] eqn:E; simpl in H;
      [|discriminate].
    injection H as <-. apply confirm_rows_spec in E.
    now apply confirmed_version_ids.
  - destruct (project_metaData project_row) as [metaData|]; [|discriminate].
    destruct (dict_has (py "stopwords") metaData); [discriminate|].
    destruct (dict_has (py "punctuations") metaData); [discriminate|].
    destruct (auto_translate memory utils suggestion_trie_in_mem file_exists
                draft_rows (project_sourceLanguage project_row)
                (project_targetLanguage project_row) None None)
      as [rows'|] eqn:E; simpl in H; [|discriminate].
    injection H as <-. now apply auto_translate_ids in E.
Qed.

(** X23. The range of sentence ids given to [agmt_suggest_translations]
    reaches [obtain_agmt_source] as its id list: with no books and no id
    list, whether the call confirms or translates, a range [[lo, hi]]
    selects the rows whose id is [lo] or [hi], not those in between. *)
Theorem suggest_range_selects_end_points
    (db_ : Store) (memory : Session) (utils : utils_module)
    (suggestion_trie_in_mem : list (str * suggestion_trie))
    (file_exists : bool) (project_id lo hi : Z) (confirm_all : bool)
    (out : list draft_row) :
  agmt_suggest_translations db_ memory utils suggestion_trie_in_mem
    file_exists project_id [] [lo; hi] [] confirm_all
  = Returns out ->
  map sentenceId out
  = filter (fun id => (id =? lo) || (id =? hi))
      (map sentenceId (store_drafts db_ project_id)).
Proof.
  intros H. apply agmt_suggest_translations_ids in H.
  destruct H as (draft_rows & Hsrc & Hids).
  unfold obtain_agmt_source in Hsrc. injection Hsrc as <-.
  rewrite Hids. clear.
  generalize (store_drafts db_ project_id). intros rows.
  induction rows as [|row rows IH]; [reflexivity|].
  cbn [map filter existsb]. rewrite orb_false_r.
  destruct ((sentenceId row =? lo) || (sentenceId row =? hi));
    cbn [map]; cbn [existsb] in IH; now rewrite IH.
Qed.

(** X24. A list of a single sentence id reaches [obtain_agmt_source] as
    its range, whose second bound does not exist: for an existing project
    and no books the call fails with an [IndexError]. *)
Theorem suggest_single_id_fails
    (db_ : Store) (memory : Session) (utils : utils_module)
    (suggestion_trie_in_mem : list (str * suggestion_trie))
    (file_exists : bool) (project_id id : Z)
    (sentence_id_range : list Z) (confirm_all : bool)
    (project_row : project) :
  store_project db_ project_id = Some project_row ->
  agmt_suggest_translations db_ memory utils suggestion_trie_in_mem
    file_exists project_id [] sentence_id_range [id] confirm_all
  = Raises (Known IndexError).
Proof.
  intros Hp. unfold agmt_suggest_translations. rewrite Hp.
  unfold obtain_agmt_source. reflexivity.
Qed.

(** X25. When the project's metadata defines stopwords or punctuations,
    suggesting (other than confirming) fails with an [AttributeError]
    before any sentence is translated: the entries are read as attributes
    of the dictionary. *)
Theorem suggest_with_project_tables_fails
    (db_ : Store) (memory : Session) (utils : utils_module)
    (suggestion_trie_in_mem : list (str * suggestion_trie))
    (file_exists : bool) (project_id : Z) (books : list str)
    (sentence_id_range sentence_id_list : list Z)
    (project_row : project) (metaData : list (str * json))
    (draft_rows : list draft_row) :
  store_project db_ project_id = Some project_row ->
  project_metaData project_row = Some metaData ->
  obtain_agmt_source db_ project_id books sentence_id_range sentence_id_list
  = Ok draft_rows ->
  dict_has (py "stopwords") metaData = true
  \/ dict_has (py "punctuations") metaData = true ->
  agmt_suggest_translations db_ memory utils suggestion_trie_in_mem
    file_exists project_id books sentence_id_range sentence_id_list false
  = Raises AttributeError.
Proof.
  intros Hp Hmd Hsrc Hmeta. unfold agmt_suggest_translations.
  rewrite Hp, Hsrc, Hmd.
  destruct (dict_has (py "stopwords") metaData); [reflexivity|].
  destruct Hmeta as [Hmeta | ->]; [discriminate | reflexivity].
Qed.

(** ** The statements on suggesting, on the scenario store *)

Lemma confirm_all_suggestions_scenario :
  exists draft_rows,
    obtain_agmt_source scenario_db 1 [] [11] [] = Ok draft_rows
    /\ Forall2 confirmed_version draft_rows [accepted_row].
Proof.
  apply (confirm_all_suggestions scenario_db empty_store scenario_utils []
           false 1 [] [11] [] [accepted_row]).
  vm_compute. reflexivity.
Defined.

(** The call that translates (the default), on a project whose rows 10,
    11 and 12 are all in the range. *)
Lemma suggest_range_scenario :
  map sentenceId [numbered_row 10; numbered_row 12]
  = filter (fun id => (id =? 10) || (id =? 12))
      (map sentenceId (store_drafts plain_db 3)).
Proof.
  apply (suggest_range_selects_end_points plain_db empty_store
           scenario_utils [] false 3 10 12 false
           [numbered_row 10; numbered_row 12]).
  vm_compute. reflexivity.
Defined.

Lemma suggest_single_id_scenario :
  agmt_suggest_translations scenario_db empty_store scenario_utils [] false
    1 [] [] [11] false
  = Raises (Known IndexError).
Proof.
  apply (suggest_single_id_fails scenario_db empty_store scenario_utils []
           false 1 11 [] false (mk_project_row 1 2 english hindi None)).
  reflexivity.
Defined.

Lemma suggest_with_project_tables_scenario :
  agmt_suggest_translations scenario_db empty_store scenario_utils [] false
    2 [] [] [] false
  = Raises AttributeError.
Proof.
  apply (suggest_with_project_tables_fails scenario_db empty_store
           scenario_utils [] false 2 [] [] []
           (mk_project_row 1 2 english hindi
              (Some [(py "stopwords", JDict [])]))
           [(py "stopwords", JDict [])] []).
  - reflexivity.
  - reflexivity.
  - reflexivity.
  - left. vm_compute. reflexivity.
Defined.

(** ** Saving translations *)

Lemma slice_middle {A} (p q r : list A) :
  (p ++ q ++ r)<[len p : len p + len q]> = q.
Proof.
  pose proof (len_nonneg p). pose proof (len_nonneg q).
  pose proof (len_nonneg r).
  rewrite slice_in_range by (rewrite ?len_app; lia).
  replace (len p + len q - len p) with (len q) by lia.
  unfold len. rewrite !Nat2Z.id.
  rewrite skipn_app, skipn_all, Nat.sub_diag. simpl.
  rewrite firstn_app, firstn_all, Nat.sub_diag. simpl.
  apply app_nil_r.
Qed.

(** The part [[x, y)] of a text that is built around the same part of
    another. *)
Lemma slice_embedded {A} (d p r : list A) (x y x' : Z) :
  0 <= x -> x <= y -> y <= len d -> len p = x' ->
  (p ++ d<[x : y]> ++ r)<[x' : x' + (y - x)]> = d<[x : y]>.
Proof.
  intros Hx Hxy Hy <-.
  rewrite <- (len_slice d x y) at 1 by assumption.
  apply slice_middle.
Qed.

Lemma replace_token_effective row t translation tag d meta :
  effective row = Some (d, meta) ->
  replace_token (sentence row) t translation (draft row) (draftMeta row) tag
  = replace_token (sentence row) t translation (Some d) (Some meta) tag.
Proof.
  unfold effective.
  destruct (draftMeta row) as [[|m ms]|]; try (intros [= <- <-]; reflexivity).
  destruct (draft row); [|discriminate]. intros [= <- <-]. reflexivity.
Qed.

Lemma map_src_shift delta back :
  map src_of (map (shift_segment delta) back) = map src_of back.
Proof. rewrite map_map. apply map_ext. intros m. reflexivity. Qed.

Lemma map_dst_shift delta back :
  map dst_of (map (shift_segment delta) back)
  = map (fun r => (fst r + delta, snd r + delta)) (map dst_of back).
Proof. rewrite !map_map. apply map_ext. intros m. reflexivity. Qed.

Lemma spliced_covers
    (source translation tag d : str) (front back : list segment)
    (a b c c' : Z) (status : str) (s e : Z) :
  covers source d (front ++ ((a, b), (c, c'), status) :: back) ->
  a <= s -> s < e -> e <= b ->
  covers source
    (d<[0 : c]> ++ source<[a : s]> ++ translation
       ++ source<[e : b]> ++ d<[c' : len d]>)
    (front ++ prefix_segment s a c
       ++ [((s, e), (c + (s - a), c + (s - a) + len translation), tag)]
       ++ suffix_segment e b (c + (s - a) + len translation)
       ++ map (shift_segment
                 (c + (s - a) + len translation + (b - e) - c')) back).
Proof.
  intros Hcov Has Hse Heb.
  apply covers_split in Hcov.
  destruct Hcov as ((Hs1 & Hab & Hs2) & (Hd1 & Hcc & Hd2) & Ha & Hb & Hc & Hc').
  pose proof (len_nonneg translation) as Htr.
  set (t0 := c + (s - a)). set (t1 := t0 + len translation).
  set (delta := t1 + (b - e) - c').
  split.
  - rewrite !map_app, map_src_shift.
    apply chain_app. exists a. split; [assumption|].
    apply chain_app. exists s. split; [apply prefix_segment_src; lia|].
    simpl. unfold src_of at 1 2; simpl. repeat split; try lia.
    apply chain_app. exists b. split; [apply suffix_segment_src; lia|].
    assumption.
  - replace (len (d<[0 : c]> ++ source<[a : s]> ++ translation
                    ++ source<[e : b]> ++ d<[c' : len d]>))
      with (len d + delta)
      by (rewrite !len_app, !len_slice by lia; subst delta t1 t0; lia).
    rewrite !map_app, map_dst_shift.
    apply chain_app. exists c. split; [assumption|].
    apply chain_app. exists t0. split; [apply prefix_segment_dst; lia|].
    simpl. unfold dst_of at 1 2; simpl.
    repeat split; try (subst t1; lia).
    apply chain_app. exists (t1 + (b - e)).
    split; [apply suffix_segment_dst; lia|].
    replace (t1 + (b - e)) with (c' + delta) by (subst delta; lia).
    apply chain_shift. assumption.
Qed.

Lemma slice_embedded_at {A} (d p r : list A) (x y x' y' : Z) :
  0 <= x -> x <= y -> y <= len d -> len p = x' -> y' = x' + (y - x) ->
  (p ++ d<[x : y]> ++ r)<[x' : y']> = d<[x : y]>.
Proof. intros Hx Hxy Hy Hp ->. now apply slice_embedded. Qed.

(** One replacement inside a segment of a covering meta: it succeeds,
    the meta still covers, the new segment holds the translation, every
    range apart from the token that lay inside a segment still does, and
    every segment apart from the token keeps range, status and text. *)
Lemma replace_token_step
    (source translation tag d : str) (meta : list segment) (m : segment)
    (s e : Z) :
  covers source d meta -> In m meta -> inside (s, e) m ->
  exists d' meta',
    replace_token source (s, e) translation (Some d) (Some meta) tag
    = Ok (d', meta')
    /\ meta' <> []
    /\ covers source d' meta'
    /\ (exists dst, In ((s, e), dst, tag) meta'
                    /\ d'<[fst dst : snd dst]> = translation)
    /\ (forall t' m', In m' meta -> inside t' m' -> apart (s, e) t' ->
          exists m'', In m'' meta' /\ inside t' m'')
    /\ (forall m', In m' meta -> fst (src_of m') < snd (src_of m') ->
          apart (s, e) (src_of m') ->
          exists m'', In m'' meta' /\ src_of m'' = src_of m'
            /\ status_of m'' = status_of m'
            /\ d'<[fst (dst_of m'') : snd (dst_of m'')]>
               = d<[fst (dst_of m') : snd (dst_of m')]>).
Proof.
  intros Hcov Hin Hins.
  destruct (in_split _ _ Hin) as (front & back & ->).
  destruct m as [[[a b] [c c']] status].
  destruct Hins as (Has & Hse & Heb).
  change (a <= s) in Has. change (s < e) in Hse. change (e <= b) in Heb.
  pose proof (replace_token_spliced source translation tag d front back
                a b c c' status s e Hcov Has Hse Heb) as Hrt.
  pose proof (spliced_covers source translation tag d front back
                a b c c' status s e Hcov Has Hse Heb) as Hcov'.
  apply covers_split in Hcov.
  destruct Hcov as ((Hs1 & Hab & Hs2) & (Hd1 & Hcc & Hd2) & Ha & Hb & Hc & Hc').
  pose proof (len_nonneg translation) as Htr.
  pose proof (len_nonneg d) as Hlen.
  set (t0 := c + (s - a)) in *. set (t1 := t0 + len translation) in *.
  set (delta := t1 + (b - e) - c') in *.
  eexists; eexists. split; [exact Hrt|].
  split.
  { intros Hnil. apply (f_equal (@length segment)) in Hnil.
    rewrite !length_app in Hnil. simpl in Hnil. lia. }
  split; [exact Hcov'|].
  split; [|split].
  - exists (t0, t1). split.
    + apply in_or_app; right. apply in_or_app; right. left. reflexivity.
    + cbn [fst snd].
      rewrite (app_assoc (d<[0 : c]>)). subst t1.
      replace t0 with (len (d<[0 : c]> ++ source<[a : s]>))
        by (rewrite len_app, !len_slice by lia; subst t0; lia).
      apply slice_middle.
  - intros [s' e'] m' Hm' (H1 & H2 & H3) Hap.
    cbn [fst snd] in H1, H2, H3. unfold apart in Hap. cbn [fst snd] in Hap.
    apply in_app_or in Hm'. destruct Hm' as [Hm' | [<- | Hm']].
    + exists m'. split; [apply in_or_app; now left|].
      repeat split; assumption.
    + change (a <= s') in H1. change (e' <= b) in H3.
      destruct Hap as [Hap | Hap].
      * exists ((e, b), (t1, t1 + (b - e)), untranslated). split.
        -- apply in_or_app; right. apply in_or_app; right. right. cbn [app].
           apply in_or_app; left. unfold suffix_segment.
           destruct (Z.eqb_spec e b); [lia | simpl; now left].
        -- repeat split; cbn [fst snd src_of]; simpl; lia.
      * exists ((a, s), (c, c + (s - a)), untranslated). split.
        -- apply in_or_app; right. apply in_or_app; left.
           unfold prefix_segment.
           destruct (Z.eqb_spec s a); [lia | simpl; now left].
        -- repeat split; cbn [fst snd src_of]; simpl; lia.
    + exists (shift_segment delta m'). split.
      * apply in_or_app; right. apply in_or_app; right. right. cbn [app].
        apply in_or_app; right. now apply in_map.
      * repeat split; assumption.
  - intros m' Hm' Hne Hap. unfold apart in Hap. cbn [fst snd] in Hap.
    apply in_app_or in Hm'. destruct Hm' as [Hm' | [<- | Hm']].
    + exists m'. split; [apply in_or_app; now left|].
      split; [reflexivity|]. split; [reflexivity|].
      destruct (chain_bounds _ _ _ (dst_of m') Hd1 (in_map dst_of _ _ Hm'))
        as (Hx & Hxy & Hy).
      set (x := fst (dst_of m')) in *. set (y := snd (dst_of m')) in *.
      replace (d<[0 : c]>) with (d<[0 : x]> ++ d<[x : y]> ++ d<[y : c]>)
        by (rewrite !slice_adjacent by lia; reflexivity).
      rewrite <- !app_assoc.
      apply slice_embedded_at; try lia. rewrite len_slice by lia. lia.
    + change (e <= a \/ b <= s) in Hap. lia.
    + exists (shift_segment delta m'). split.
      * apply in_or_app; right. apply in_or_app; right. right. cbn [app].
        apply in_or_app; right. now apply in_map.
      * split; [reflexivity|]. split; [reflexivity|].
        destruct (chain_bounds _ _ _ (dst_of m') Hd2 (in_map dst_of _ _ Hm'))
          as (Hx & Hxy & Hy).
        change (fst (dst_of (shift_segment delta m')))
          with (fst (dst_of m') + delta).
        change (snd (dst_of (shift_segment delta m')))
          with (snd (dst_of m') + delta).
        set (x := fst (dst_of m')) in *. set (y := snd (dst_of m')) in *.
        replace (d<[c' : len d]>)
          with (d<[c' : x]> ++ d<[x : y]> ++ d<[y : len d]>)
          by (rewrite !slice_adjacent by lia; reflexivity).
        replace (d<[0 : c]> ++ source<[a : s]> ++ translation
                   ++ source<[e : b]>
                   ++ d<[c' : x]> ++ d<[x : y]> ++ d<[y : len d]>)
          with ((d<[0 : c]> ++ source<[a : s]> ++ translation
                   ++ source<[e : b]> ++ d<[c' : x]>)
                  ++ d<[x : y]> ++ d<[y : len d]>)
          by (rewrite <- !app_assoc; reflexivity).
        apply slice_embedded_at; try lia.
        rewrite !len_app, !len_slice by lia. subst delta t1 t0. lia.
Qed.

Lemma find_row_id id rows row :
  find_row id rows = Some row -> sentenceId row = id.
Proof.
  unfold find_row. intros H. apply find_some in H.
  destruct H as [_ H]. now apply Z.eqb_eq in H.
Qed.

Lemma find_row_update id new_row : forall rows row,
  find_row id rows = Some row -> sentenceId new_row = id ->
  forall id', find_row id' (update_row id new_row rows)
              = if id' =? id then Some new_row else find_row id' rows.
Proof.
  unfold find_row.
  induction rows as [|r rows IH]; intros row Hf Hid id'; [discriminate|].
  cbn [update_row List.find] in *.
  destruct (Z.eqb_spec (sentenceId r) id) as [E|E].
  - cbn [List.find]. rewrite Hid, E.
    destruct (Z.eqb_spec id id') as [->|N].
    + now rewrite Z.eqb_refl.
    + destruct (Z.eqb_spec id' id); [congruence | reflexivity].
  - cbn [List.find].
    destruct (Z.eqb_spec (sentenceId r) id') as [E'|E'].
    + destruct (Z.eqb_spec id' id); [congruence | reflexivity].
    + now apply (IH row).
Qed.

Lemma apart_sym t t' : apart t t' -> apart t' t.
Proof. unfold apart. tauto. Qed.

Lemma effective_of_meta row d meta :
  draft row = Some d -> draftMeta row = Some meta -> meta <> [] ->
  effective row = Some (d, meta).
Proof.
  unfold effective. intros -> -> Hne. destruct meta; [contradiction|].
  reflexivity.
Qed.

(** One step of a batch. *)
Lemma batch_step rows done id t translation pend :
  batch_state rows done ((id, t, translation) :: pend) ->
  exists row d' meta',
    find_row id rows = Some row
    /\ replace_token (sentence row) t translation (draft row)
         (draftMeta row) confirmed = Ok (d', meta')
    /\ batch_state
         (update_row id
            (mk_row (sentenceId row) (surrogateId row) (sentence row)
               (Some d') (Some meta')) rows)
         (done ++ [(id, t, translation)]) pend.
Proof.
  intros (Happ & Hsep & Hdone & Hclear).
  inversion Happ as [|? ? Hhead Hpend]; subst.
  inversion Hsep as [|? ? Hfirst Hsep']; subst.
  destruct Hhead as (row & d & meta & Hfind & Heff & Hcov & m & Hm & Hins).
  destruct t as [s e].
  destruct (replace_token_step (sentence row) translation confirmed d meta
              m s e Hcov Hm Hins)
    as (d' & meta' & Hrt & Hne & Hcov' & (dst & Hnew & Hslice) & Hkeep & Hold).
  exists row, d', meta'. split; [exact Hfind|].
  split; [now rewrite (replace_token_effective row (s, e) translation
                         confirmed d meta Heff)|].
  pose proof (find_row_id _ _ _ Hfind) as Hid.
  set (new_row := mk_row (sentenceId row) (surrogateId row) (sentence row)
                    (Some d') (Some meta')).
  pose proof (find_row_update id new_row rows row Hfind Hid) as Hupd.
  repeat split.
  - apply Forall_forall. intros [[id' t'] tr'] Hin.
    rewrite Forall_forall in Hpend, Hfirst.
    specialize (Hpend _ Hin). specialize (Hfirst _ Hin).
    destruct Hpend as (row1 & d1 & meta1 & Hf1 & He1 & Hc1 & m1 & Hm1 & Hi1).
    destruct (Z.eqb_spec id' id) as [->|N].
    + rewrite Hfind in Hf1. injection Hf1 as <-.
      rewrite Heff in He1. injection He1 as <- <-.
      destruct (Hkeep t' m1 Hm1 Hi1 (Hfirst eq_refl)) as (m2 & Hm2 & Hi2).
      exists new_row, d', meta'. rewrite Hupd, Z.eqb_refl.
      split; [reflexivity|].
      split; [now apply effective_of_meta|].
      split; [exact Hcov'|]. now exists m2.
    + exists row1, d1, meta1. rewrite Hupd.
      destruct (Z.eqb_spec id' id); [contradiction|].
      split; [exact Hf1|]. split; [exact He1|]. split; [exact Hc1|].
      now exists m1.
  - exact Hsep'.
  - apply Forall_app. split.
    + apply Forall_forall. intros [[id0 t0] tr0] Hin.
      rewrite Forall_forall in Hdone, Hclear.
      specialize (Hdone _ Hin). destruct (Hclear _ Hin) as [Hne0 Hcl].
      destruct Hdone
        as (row0 & d0 & meta0 & Hf0 & Hd0 & Hm0 & Hc0 & m0 & Hin0 & Hsrc0
            & Hst0 & Hsl0).
      destruct (Z.eqb_spec id0 id) as [->|N].
      * rewrite Hfind in Hf0. injection Hf0 as <-.
        assert (He0 : effective row = Some (d0, meta0)).
        { apply effective_of_meta; trivial. intros ->. contradiction. }
        rewrite Heff in He0. injection He0 as <- <-.
        pose proof (Forall_inv Hcl) as Hhd.
        cbn [fst snd] in Hhd, Hne0.
        destruct (Hold m0 Hin0) as (m2 & Hm2 & Hsrc2 & Hst2 & Hsl2).
        { rewrite Hsrc0. exact Hne0. }
        { rewrite Hsrc0. apply apart_sym. now apply Hhd. }
        exists new_row, d', meta'. rewrite Hupd, Z.eqb_refl.
        split; [reflexivity|]. split; [reflexivity|].
        split; [reflexivity|]. split; [exact Hcov'|].
        exists m2. split; [exact Hm2|]. split; [congruence|].
        split; congruence.
      * exists row0, d0, meta0. rewrite Hupd.
        destruct (Z.eqb_spec id0 id); [contradiction|].
        split; [exact Hf0|]. split; [exact Hd0|]. split; [exact Hm0|].
        split; [exact Hc0|]. now exists m0.
    + constructor; [|constructor].
      exists new_row, d', meta'. rewrite Hupd, Z.eqb_refl.
      split; [reflexivity|]. split; [reflexivity|].
      split; [reflexivity|]. split; [exact Hcov'|].
      exists ((s, e), dst, confirmed). split; [exact Hnew|].
      split; [reflexivity|]. split; [reflexivity | exact Hslice].
  - apply Forall_app. split.
    + apply Forall_forall. intros r Hin.
      rewrite Forall_forall in Hclear. destruct (Hclear _ Hin) as [Hne0 Hcl].
      split; [exact Hne0|]. now inversion Hcl.
    + constructor; [|constructor]. split.
      * destruct Hins as (_ & Hse & _). exact Hse.
      * exact Hfirst.
Qed.

Lemma save_occurrences_batch translation : forall occs rows db_content
    done pend,
  batch_state rows done
    (map (fun occur => (occ_sentenceId occur, occ_offset occur, translation))
       occs ++ pend) ->
  exists rows',
    save_occurrences translation occs rows db_content
    = Ok (rows', db_content ++ map occ_sentenceId occs)
    /\ batch_state rows'
         (done
            ++ map (fun occur =>
                      (occ_sentenceId occur, occ_offset occur, translation))
                 occs)
         pend.
Proof.
  induction occs as [|occur occs IH]; intros rows db_content done pend H.
  - exists rows. simpl. rewrite !app_nil_r. split; [reflexivity | exact H].
  - cbn [map app] in H. apply batch_step in H.
    destruct H as (row & d' & meta' & Hfind & Hrt & Hst).
    destruct (IH _ (db_content ++ [occ_sentenceId occur]) _ _ Hst)
      as (rows' & Hrun & Hst').
    exists rows'. cbn [save_occurrences map]. rewrite Hfind, Hrt.
    cbn [bind]. rewrite Hrun. rewrite <- !app_assoc in *.
    split; [reflexivity|]. exact Hst'.
Qed.

Lemma save_tokens_batch src trg use_data : forall token_translations rows
    memory db_content done,
  batch_state rows done (requested token_translations) ->
  exists rows' memory',
    save_tokens src trg use_data token_translations rows memory db_content
    = Ok (rows', memory',
          db_content
            ++ map (fun r => fst (fst r)) (requested token_translations))
    /\ batch_state rows' (done ++ requested token_translations) [].
Proof.
  induction token_translations as [|token rest IH];
    intros rows memory db_content done H.
  - exists rows, memory. simpl. rewrite !app_nil_r.
    split; [reflexivity | exact H].
  - unfold requested in H. cbn [flat_map] in H. fold (requested rest) in H.
    apply (save_occurrences_batch _ _ _ db_content) in H.
    destruct H as (rows1 & Hrun & Hst).
    destruct (IH rows1
                (if use_data
                 then update_memory src trg (tt_token token)
                        (tt_translation token) (len (tt_occurrences token))
                        memory
                 else memory)
                (db_content ++ map occ_sentenceId (tt_occurrences token))
                _ Hst) as (rows' & memory' & Hrun' & Hst').
    exists rows', memory'. cbn [save_tokens]. rewrite Hrun. cbn [bind].
    rewrite Hrun'. unfold requested. cbn [flat_map]. fold (requested rest).
    rewrite map_app, map_map. rewrite <- !app_assoc in *. cbn [fst].
    split; [reflexivity | exact Hst'].
Qed.

(** X26. A batch of replacements is applied as a whole.  When every
    requested range lies inside a segment of the covering meta of its
    sentence (a sentence without meta counts as one untranslated segment)
    and no two ranges of one sentence meet, the call succeeds, and in the
    rows it leaves every requested range is a confirmed segment of a
    covering meta whose part of the draft is the requested translation. *)
Theorem save_agmt_translations_applies_batch
    (db_ : Store) (project_id : Z)
    (token_translations : list token_translation) (project_row : project) :
  store_project db_ project_id = Some project_row ->
  Forall (applicable (store_drafts db_ project_id))
    (requested token_translations) ->
  separate (requested token_translations) ->
  exists db' out,
    save_agmt_translations db_ project_id token_translations true
    = Ok (db', Some out)
    /\ Forall (translated (store_drafts db' project_id))
         (requested token_translations).
Proof.
  intros Hp Happ Hsep. unfold save_agmt_translations. rewrite Hp.
  destruct (save_tokens_batch (project_source_lang_id project_row)
              (project_target_lang_id project_row)
              (use_data_for_learning project_row) token_translations
              (store_drafts db_ project_id) (store_memory db_) [] [])
    as (rows' & memory' & Hrun & Hst).
  { repeat split; trivial; constructor. }
  rewrite Hrun. cbn [bind]. eexists; eexists. split; [reflexivity|].
  cbn [store_drafts]. rewrite Z.eqb_refl.
  destruct Hst as (_ & _ & Hdone & _). exact Hdone.
Qed.

Lemma In_insert_id id x : forall ids,
  In x (insert_id id ids) <-> x = id \/ In x ids.
Proof.
  induction ids as [|y ids IH]; simpl.
  - intuition congruence.
  - destruct (Z.ltb_spec id y); [simpl; intuition congruence|].
    destruct (Z.eqb_spec id y); simpl; [intuition congruence|].
    rewrite IH. intuition congruence.
Qed.

Lemma insert_id_increasing id : forall ids,
  increasing ids -> increasing (insert_id id ids).
Proof.
  induction ids as [|y ids IH]; simpl; intros H.
  - split; [constructor | exact I].
  - destruct H as [Hy Hids]. destruct (Z.ltb_spec id y).
    + simpl. split; [|split; assumption].
      constructor; [assumption|].
      rewrite Forall_forall in *. intros z Hz. specialize (Hy z Hz). lia.
    + destruct (Z.eqb_spec id y); simpl; [split; assumption|].
      split; [|now apply IH].
      rewrite Forall_forall in *. intros z Hz.
      apply In_insert_id in Hz. destruct Hz as [-> | Hz]; [lia | now apply Hy].
Qed.

Lemma sorted_set_spec ids :
  increasing (sorted_set ids) /\ same_members (sorted_set ids) ids.
Proof.
  unfold sorted_set, same_members.
  induction ids as [|id ids [IH1 IH2]]; simpl.
  - split; [exact I | tauto].
  - split; [now apply insert_id_increasing|].
    intros x. rewrite In_insert_id, IH2. intuition congruence.
Qed.

Lemma rows_of_present rows : forall ids,
  Forall (fun id => find_row id rows <> None) ids ->
  map sentenceId (rows_of rows ids) = ids
  /\ Forall (fun row => find_row (sentenceId row) rows = Some row)
       (rows_of rows ids).
Proof.
  unfold rows_of.
  induction ids as [|id ids IH]; intros H; simpl.
  - split; [reflexivity | constructor].
  - inversion H as [|? ? Hid Hids]; subst.
    destruct (IH Hids) as [IH1 IH2].
    destruct (find_row id rows) as [row|] eqn:Hf; [|contradiction].
    pose proof (find_row_id _ _ _ Hf) as E. simpl. split.
    + now rewrite E, IH1.
    + constructor; [now rewrite E | exact IH2].
Qed.

Lemma save_occurrences_content translation : forall occs rows db_content
    rows' db_content',
  save_occurrences translation occs rows db_content
  = Ok (rows', db_content') ->
  Forall (fun id => find_row id rows <> None) db_content ->
  db_content' = db_content ++ map occ_sentenceId occs
  /\ Forall (fun id => find_row id rows' <> None) db_content'.
Proof.
  induction occs as [|occur occs IH]; intros rows dbc rows' dbc' H Hp.
  - injection H as <- <-. simpl. rewrite app_nil_r. now split.
  - cbn [save_occurrences] in H.
    destruct (find_row (occ_sentenceId occur) rows) as [row|] eqn:Hf;
      [|discriminate].
    destruct (replace_token (sentence row) (occ_offset occur) translation
                (draft row) (draftMeta row) confirmed) as [[d' meta']|];
      [|discriminate].
    cbn [bind] in H. apply IH in H.
    + destruct H as [-> H]. rewrite <- app_assoc in *.
      split; [reflexivity | exact H].
    + pose proof (find_row_update (occ_sentenceId occur)
                    (mk_row (sentenceId row) (surrogateId row) (sentence row)
                       (Some d') (Some meta'))
                    rows row Hf (find_row_id _ _ _ Hf)) as Hupd.
      apply Forall_app. split.
      * rewrite Forall_forall in *. intros id Hid. rewrite Hupd.
        destruct (id =? occ_sentenceId occur); [discriminate | now apply Hp].
      * constructor; [|constructor]. rewrite Hupd, Z.eqb_refl. discriminate.
Qed.

Lemma save_tokens_content src trg use_data : forall token_translations rows
    memory db_content rows' memory' db_content',
  save_tokens src trg use_data token_translations rows memory db_content
  = Ok (rows', memory', db_content') ->
  Forall (fun id => find_row id rows <> None) db_content ->
  db_content'
  = db_content ++ map (fun r => fst (fst r)) (requested token_translations)
  /\ Forall (fun id => find_row id rows' <> None) db_content'.
Proof.
  induction token_translations as [|token rest IH];
    intros rows memory dbc rows' memory' dbc' H Hp.
  - injection H as <- <- <-. simpl. rewrite app_nil_r. now split.
  - cbn [save_tokens] in H.
    destruct (save_occurrences (tt_translation token) (tt_occurrences token)
                rows dbc) as [[rows1 dbc1]|] eqn:Hocc; [|discriminate].
    cbn [bind] in H.
    apply save_occurrences_content in Hocc; [|exact Hp].
    destruct Hocc as [-> Hp1].
    apply IH in H; [|exact Hp1]. destruct H as [-> H].
    split; [|exact H].
    unfold requested. cbn [flat_map]. fold (requested rest).
    rewrite map_app, map_map, <- app_assoc. reflexivity.
Qed.

(** X27. The drafts returned after saving are the stored rows of the
    sentences named in the request, each once, in ascending order of
    sentence id. *)
Theorem save_agmt_translations_returns_saved_rows
    (db_ db' : Store) (project_id : Z)
    (token_translations : list token_translation) (out : list draft_row) :
  save_agmt_translations db_ project_id token_translations true
  = Ok (db', Some out) ->
  increasing (map sentenceId out)
  /\ same_members (map sentenceId out)
       (map (fun r => fst (fst r)) (requested token_translations))
  /\ Forall (fun row =>
               find_row (sentenceId row) (store_drafts db' project_id)
               = Some row) out.
Proof.
  unfold save_agmt_translations.
  destruct (store_project db_ project_id) as [project_row|]; [|discriminate].
  destruct (save_tokens (project_source_lang_id project_row)
              (project_target_lang_id project_row)
              (use_data_for_learning project_row) token_translations
              (store_drafts db_ project_id) (store_memory db_) [])
    as [[[rows memory] db_content]|] eqn:Hrun; [|discriminate].
  cbn [bind]. intros [= <- <-]. cbn [store_drafts]. rewrite Z.eqb_refl.
  apply save_tokens_content in Hrun; [|constructor].
  destruct Hrun as [-> Hp]. cbn [app] in *.
  destruct (sorted_set_spec
              (map (fun r => fst (fst r)) (requested token_translations)))
    as [Hinc Hmem].
  destruct (rows_of_present rows
              (sorted_set
                 (map (fun r => fst (fst r)) (requested token_translations))))
    as [Hids Hrows].
  { rewrite Forall_forall in *. intros id Hid. apply Hp. now apply Hmem. }
  rewrite Hids. repeat split; trivial; apply Hmem.
Qed.

(** ** The translation memory *)

Lemma dict_get_set_same {V} (k : str) (v : V) : forall d,
  dict_get k (dict_set k v d) = Some v.
Proof.
  induction d as [|[k' v'] d IH]; simpl.
  - now rewrite (proj2 (str_eqb_eq k k) eq_refl).
  - destruct (str_eqb k k') eqn:E; simpl; rewrite E; [reflexivity | exact IH].
Qed.

Lemma dict_get_set_other {V} (k k0 : str) (v : V) : forall d,
  k <> k0 -> dict_get k (dict_set k0 v d) = dict_get k d.
Proof.
  intros d N. induction d as [|[k' v'] d IH]; simpl.
  - destruct (str_eqb k k0) eqn:E; [|reflexivity].
    apply str_eqb_eq in E. contradiction.
  - destruct (str_eqb k0 k') eqn:E0; simpl.
    + apply str_eqb_eq in E0. subst k'.
      destruct (str_eqb k k0) eqn:E; [|reflexivity].
      apply str_eqb_eq in E. contradiction.
    + now rewrite IH.
Qed.

Lemma same_entry_token src trg token token0 r :
  same_entry src trg token0 r = true -> token <> token0 ->
  same_entry src trg token r = false.
Proof.
  unfold same_entry. intros H N.
  apply andb_true_iff in H. destruct H as [_ H]. apply str_eqb_eq in H.
  destruct (str_eqb (mem_token r) token) eqn:E.
  - apply str_eqb_eq in E. congruence.
  - apply andb_false_r.
Qed.

Lemma str_eqb_sym (a b : str) : str_eqb a b = str_eqb b a.
Proof.
  destruct (str_eqb a b) eqn:E1; destruct (str_eqb b a) eqn:E2;
    try reflexivity.
  - apply str_eqb_eq in E1. apply str_eqb_neq in E2. congruence.
  - apply str_eqb_eq in E2. apply str_eqb_neq in E1. congruence.
Qed.

Lemma count_translation_none src trg token0 translation0 n : forall memory,
  count_translation src trg token0 translation0 n memory = None ->
  List.find (same_entry src trg token0) memory = None.
Proof.
  induction memory as [|r memory IH]; [reflexivity|].
  cbn [count_translation List.find].
  destruct (same_entry src trg token0 r); [discriminate|].
  destruct (count_translation src trg token0 translation0 n memory);
    [discriminate|].
  intros _. now apply IH.
Qed.

Lemma count_translation_some src trg token translation token0 translation0
    n : forall memory memory',
  count_translation src trg token0 translation0 n memory = Some memory' ->
  frequency src trg token translation memory'
  = frequency src trg token translation memory
    + (if str_eqb token0 token && str_eqb translation0 translation
       then n else 0).
Proof.
  unfold frequency.
  induction memory as [|r memory IH]; intros memory'; [discriminate|].
  cbn [count_translation].
  destruct (same_entry src trg token0 r) eqn:E0.
  - intros [= <-]. cbn [List.find].
    unfold same_entry at 1.
    cbn [mem_source_lang_id mem_target_lang_id mem_token mem_translations].
    fold (same_entry src trg token r).
    destruct (str_eqb token0 token) eqn:Et.
    + apply str_eqb_eq in Et. subst token0. rewrite E0.
      cbn [andb mem_translations].
      destruct (str_eqb translation0 translation) eqn:E2.
      * apply str_eqb_eq in E2. subst translation0.
        rewrite dict_get_set_same.
        destruct (dict_get translation (mem_translations r)); lia.
      * apply str_eqb_neq in E2.
        rewrite dict_get_set_other by congruence. lia.
    + apply str_eqb_neq in Et.
      rewrite (same_entry_token src trg token token0 r E0) by congruence.
      cbn [andb]. lia.
  - destruct (count_translation src trg token0 translation0 n memory)
      as [rest'|]; [|discriminate].
    intros [= <-]. cbn [List.find].
    destruct (same_entry src trg token r) eqn:E; [|now apply IH].
    destruct (str_eqb token0 token) eqn:Et; [|cbn [andb]; lia].
    apply str_eqb_eq in Et. congruence.
Qed.

Lemma frequency_append src trg token translation token0 translation0 n md :
  forall memory,
  List.find (same_entry src trg token0) memory = None ->
  frequency src trg token translation
    (memory ++ [mk_memory_row src trg token0 [(translation0, n)] md])
  = frequency src trg token translation memory
    + (if str_eqb token0 token && str_eqb translation0 translation
       then n else 0).
Proof.
  unfold frequency.
  induction memory as [|r memory IH]; cbn [app List.find].
  - intros _. unfold same_entry.
    cbn [mem_source_lang_id mem_target_lang_id mem_token mem_translations].
    rewrite !Z.eqb_refl. cbn [andb].
    destruct (str_eqb token0 token); cbn [andb]; [|reflexivity].
    cbn [mem_translations dict_get].
    rewrite (str_eqb_sym translation translation0).
    destruct (str_eqb translation0 translation); reflexivity.
  - destruct (same_entry src trg token0 r) eqn:E0; [discriminate|].
    intros Hnone.
    destruct (same_entry src trg token r) eqn:E; [|now apply IH].
    destruct (str_eqb token0 token) eqn:Et; [|cbn [andb]; lia].
    apply str_eqb_eq in Et. congruence.
Qed.

(** What the memory holds once a translation is counted. *)
Lemma frequency_update_memory src trg token translation token0 translation0
    n memory :
  frequency src trg token translation
    (update_memory src trg token0 translation0 n memory)
  = frequency src trg token translation memory
    + (if str_eqb token0 token && str_eqb translation0 translation
       then n else 0).
Proof.
  unfold update_memory.
  destruct (count_translation src trg token0 translation0 n memory)
    as [memory'|] eqn:Hc.
  - now apply count_translation_some.
  - apply frequency_append. now apply count_translation_none in Hc.
Qed.

Lemma save_tokens_memory src trg use_data token translation :
  forall token_translations rows memory db_content rows' memory' db_content',
  save_tokens src trg use_data token_translations rows memory db_content
  = Ok (rows', memory', db_content') ->
  frequency src trg token translation memory'
  = frequency src trg token translation memory
    + (if use_data
       then times_requested token translation token_translations else 0).
Proof.
  induction token_translations as [|tt rest IH];
    intros rows memory dbc rows' memory' dbc' H.
  - injection H as <- <- <-. simpl. destruct use_data; lia.
  - cbn [save_tokens] in H.
    destruct (save_occurrences (tt_translation tt) (tt_occurrences tt)
                rows dbc) as [[rows1 dbc1]|]; [|discriminate].
    cbn [bind] in H. apply IH in H. rewrite H. clear H.
    destruct use_data; [|lia].
    rewrite frequency_update_memory. cbn [times_requested fold_right].
    fold (times_requested token translation rest).
    destruct (str_eqb (tt_token tt) token
              && str_eqb (tt_translation tt) translation); lia.
Qed.

(** X28. Saving counts the request in the translation memory: for every
    token and translation, the frequency held for the languages of the
    project grows by the number of occurrences the request translates so,
    and by nothing when the project does not allow learning from its
    data. *)
Theorem save_agmt_translations_counts_translations
    (db_ db' : Store) (project_id : Z)
    (token_translations : list token_translation) (return_drafts : bool)
    (project_row : project) (returned : option (list draft_row))
    (token translation : str) :
  store_project db_ project_id = Some project_row ->
  save_agmt_translations db_ project_id token_translations return_drafts
  = Ok (db', returned) ->
  frequency (project_source_lang_id project_row)
    (project_target_lang_id project_row) token translation (store_memory db')
  = frequency (project_source_lang_id project_row)
      (project_target_lang_id project_row) token translation
      (store_memory db_)
    + (if use_data_for_learning project_row
       then times_requested token translation token_translations else 0).
Proof.
  intros Hp. unfold save_agmt_translations. rewrite Hp.
  destruct (save_tokens (project_source_lang_id project_row)
              (project_target_lang_id project_row)
              (use_data_for_learning project_row) token_translations
              (store_drafts db_ project_id) (store_memory db_) [])
    as [[[rows memory] db_content]|] eqn:Hrun; [|discriminate].
  cbn [bind]. intros [= <- _]. cbn [store_memory].
  now apply (save_tokens_memory _ _ _ _ _ _ _ _ _ _ _ _ Hrun).
Qed.

(** ** The statements on saving, on the scenario store *)

Lemma save_batch_scenario :
  exists db' out,
    save_agmt_translations scenario_db 1 scenario_request true
    = Ok (db', Some out)
    /\ Forall (translated (store_drafts db' 1)) (requested scenario_request).
Proof.
  apply (save_agmt_translations_applies_batch scenario_db 1 scenario_request
           (mk_project_row 1 2 english hindi None)).
  - reflexivity.
  - repeat constructor.
    + exists suggested_row, (py "a X c"),
        [((0, 2), (0, 2), untranslated); ((2, 3), (2, 3), suggestion);
         ((3, 5), (3, 5), untranslated)].
      split; [reflexivity|]. split; [reflexivity|].
      split; [vm_compute; repeat split; discriminate|].
      exists ((0, 2), (0, 2), untranslated).
      split; [simpl; tauto | vm_compute; repeat split; discriminate].
    + exists suggested_row, (py "a X c"),
        [((0, 2), (0, 2), untranslated); ((2, 3), (2, 3), suggestion);
         ((3, 5), (3, 5), untranslated)].
      split; [reflexivity|]. split; [reflexivity|].
      split; [vm_compute; repeat split; discriminate|].
      exists ((3, 5), (3, 5), untranslated).
      split; [simpl; tauto | vm_compute; repeat split; discriminate].
    + exists (numbered_row 10), (py "abc"),
        [((0, 3), (0, 3), untranslated)].
      split; [reflexivity|]. split; [reflexivity|].
      split; [vm_compute; repeat split; discriminate|].
      exists ((0, 3), (0, 3), untranslated).
      split; [simpl; tauto | vm_compute; repeat split; discriminate].
  - unfold separate, apart. simpl.
    repeat constructor; simpl; intros; lia.
Defined.

Lemma save_returns_scenario :
  increasing (map sentenceId scenario_saved_rows)
  /\ same_members (map sentenceId scenario_saved_rows)
       (map (fun r => fst (fst r)) (requested scenario_request))
  /\ Forall (fun row =>
               find_row (sentenceId row)
                 (store_drafts (fst scenario_saved) 1) = Some row)
       scenario_saved_rows.
Proof.
  apply (save_agmt_translations_returns_saved_rows scenario_db
           (fst scenario_saved) 1 scenario_request scenario_saved_rows).
  vm_compute. reflexivity.
Defined.

Lemma save_counts_scenario :
  frequency 1 2 (py "c") (py "C") (store_memory (fst scenario_saved))
  = frequency 1 2 (py "c") (py "C") (store_memory scenario_db)
    + (if use_data_for_learning (mk_project_row 1 2 english hindi None)
       then times_requested (py "c") (py "C") scenario_request else 0).
Proof.
  apply (save_agmt_translations_counts_translations scenario_db
           (fst scenario_saved) 1 scenario_request true
           (mk_project_row 1 2 english hindi None)
           (Some scenario_saved_rows) (py "c") (py "C")).
  - reflexivity.
  - vm_compute. reflexivity.
Defined.

(** ** Replacing in given sentences *)

Lemma rt_step_errors source tok translation draft tag st m e :
  rt_step source tok translation draft tag st m = Raise e ->
  e = TypeError \/ e = UnboundLocalError.
Proof.
  unfold rt_step, rt_end, draft_slice.
  repeat match goal with
         | |- context [if ?c then _ else _] => destruct c
         | |- context [match ?x with _ => _ end] => destruct x
         end; simpl; intros H; try discriminate; injection H as <-; auto.
Qed.

Lemma rt_loop_errors source tok translation draft tag : forall meta st e,
  rt_loop source tok translation draft tag st meta = Raise e ->
  e = TypeError \/ e = UnboundLocalError.
Proof.
  induction meta as [|m meta IH]; intros st e; simpl; [discriminate|].
  destruct (rt_step source tok translation draft tag st m) as [st'|e']
    eqn:Hs; simpl.
  - apply IH.
  - intros [= <-]. now apply rt_step_errors in Hs.
Qed.

Lemma replace_token_errors source tok translation draft meta tag e :
  replace_token source tok translation draft meta tag = Raise e ->
  e = TypeError \/ e = UnboundLocalError.
Proof.
  unfold replace_token.
  destruct meta as [[|m ms]|];
    match goal with
    | |- context [rt_loop ?a ?b ?c ?d ?t ?s ?l] =>
      destruct (rt_loop a b c d t s l) eqn:Hl
    end; simpl; try discriminate; intros [= <-];
    now apply rt_loop_errors in Hl.
Qed.

Lemma bulk_occurrences_errors translation : forall occs us e,
  bulk_occurrences translation occs us = Raise e ->
  e = KeyError \/ e = TypeError \/ e = UnboundLocalError.
Proof.
  induction occs as [|occur occs IH]; intros us e; simpl; [discriminate|].
  destruct (int_dict_get (occ_sentenceId occur) us) as [row|];
    [|intros [= <-]; auto].
  destruct (replace_token (sentence row) (occ_offset occur) translation
              (draft row) (draftMeta row) confirmed) as [[d meta]|e']
    eqn:Hrt; simpl.
  - apply IH.
  - intros [= <-]. apply replace_token_errors in Hrt. tauto.
Qed.

Lemma bulk_tokens_failures source target use_data : forall tts us memory x,
  bulk_tokens source target use_data tts us memory = Raises x ->
  bulk_failure target use_data x.
Proof.
  unfold bulk_failure.
  induction tts as [|token rest IH]; intros us memory x; simpl;
    [discriminate|].
  destruct (bulk_occurrences (tt_translation token) (tt_occurrences token)
              us) as [us'|e] eqn:Ho.
  - destruct use_data; [|apply IH].
    destruct target as [trg|]; [apply IH|].
    intros [= <-]. auto 6.
  - intros [= <-]. apply bulk_occurrences_errors in Ho.
    destruct Ho as [-> | [-> | ->]]; auto.
Qed.

(** X29. Once the source language is found, [replace_bulk_tokens] fails
    in these ways only: a [KeyError] (a sentence id that is not in the
    list), a [TypeError] or an [UnboundLocalError] (from [replace_token]),
    or an [AttributeError], which takes a missing target language and
    [use_data].  It never reports a sentence or a target language as not
    available. *)
Theorem replace_bulk_tokens_failures
    (language_id : str -> option Z) (memory : list memory_row)
    (sentence_list : list draft_row)
    (token_translations : list token_translation) (src_code trg_code : str)
    (use_data : bool) (source : Z) (x : exception) :
  language_id src_code = Some source ->
  replace_bulk_tokens language_id memory sentence_list token_translations
    src_code trg_code use_data = Raises x ->
  bulk_failure (language_id trg_code) use_data x.
Proof.
  intros Hs. unfold replace_bulk_tokens. rewrite Hs.
  destruct (bulk_tokens source (language_id trg_code) use_data
              token_translations
              (fold_left (fun d sent => int_dict_set (sentenceId sent) sent d)
                 sentence_list [])
              memory) as [[us memory']|x'] eqn:Hb; [discriminate|].
  intros [= <-]. now apply bulk_tokens_failures in Hb.
Qed.

Lemma replace_bulk_tokens_failures_scenario :
  bulk_failure (scenario_languages (py "hi")) true (Known KeyError).
Proof.
  apply (replace_bulk_tokens_failures scenario_languages []
           [numbered_row 10] scenario_request (py "en") (py "hi") true 1).
  - reflexivity.
  - vm_compute. reflexivity.
Defined.

Lemma int_dict_set_keys {V} (k : Z) (v : V) : forall d,
  map fst (int_dict_set k v d)
  = if existsb (Z.eqb k) (map fst d) then map fst d else map fst d ++ [k].
Proof.
  induction d as [|[k' v'] d IH]; simpl; [reflexivity|].
  destruct (k =? k'); simpl; [reflexivity|].
  rewrite IH. destruct (existsb (Z.eqb k) (map fst d)); reflexivity.
Qed.

Lemma int_dict_get_keys {V} (k : Z) : forall (d : list (Z * V)) v,
  int_dict_get k d = Some v ->
  existsb (Z.eqb k) (map fst d) = true /\ In (k, v) d.
Proof.
  induction d as [|[k' v'] d IH]; intros v; simpl; [discriminate|].
  destruct (Z.eqb_spec k k') as [->|N]; simpl.
  - intros [= <-]. auto.
  - intros H. destruct (IH _ H). auto.
Qed.

Lemma int_dict_set_keyed k (v : draft_row) : forall d,
  sentenceId v = k ->
  Forall (fun kv => sentenceId (snd kv) = fst kv) d ->
  Forall (fun kv => sentenceId (snd kv) = fst kv) (int_dict_set k v d).
Proof.
  intros d Hv. induction d as [|[k' v'] d IH]; simpl; intros H.
  - constructor; [exact Hv | constructor].
  - inversion H as [|? ? H1 H2]; subst.
    destruct (Z.eqb_spec (sentenceId v) k') as [E|N].
    + constructor; [exact E | exact H2].
    + constructor; [exact H1 | now apply IH].
Qed.

Lemma first_ids_ext : forall ids seen seen',
  (forall x, existsb (Z.eqb x) seen = existsb (Z.eqb x) seen') ->
  first_ids ids seen = first_ids ids seen'.
Proof.
  induction ids as [|id ids IH]; intros seen seen' H; simpl; [reflexivity|].
  rewrite <- (H id). destruct (existsb (Z.eqb id) seen); [now apply IH|].
  f_equal. apply IH. intros x. simpl. now rewrite H.
Qed.

Lemma fold_int_dict_keys : forall (sentence_list : list draft_row) d,
  map fst (fold_left (fun d sent => int_dict_set (sentenceId sent) sent d)
             sentence_list d)
  = map fst d ++ first_ids (map sentenceId sentence_list) (map fst d).
Proof.
  induction sentence_list as [|sent rest IH]; intros d; simpl.
  - now rewrite app_nil_r.
  - rewrite IH, int_dict_set_keys.
    destruct (existsb (Z.eqb (sentenceId sent)) (map fst d)); [reflexivity|].
    rewrite <- app_assoc. simpl. do 2 f_equal.
    apply first_ids_ext. intros x.
    rewrite existsb_app. simpl. rewrite orb_false_r. apply orb_comm.
Qed.

Lemma fold_int_dict_keyed : forall (sentence_list : list draft_row) d,
  Forall (fun kv => sentenceId (snd kv) = fst kv) d ->
  Forall (fun kv => sentenceId (snd kv) = fst kv)
    (fold_left (fun d sent => int_dict_set (sentenceId sent) sent d)
       sentence_list d).
Proof.
  induction sentence_list as [|sent rest IH]; intros d H; simpl;
    [exact H|].
  apply IH. now apply int_dict_set_keyed.
Qed.

Lemma bulk_occurrences_keys translation : forall occs us us',
  bulk_occurrences translation occs us = Ok us' ->
  Forall (fun kv => sentenceId (snd kv) = fst kv) us ->
  map fst us' = map fst us
  /\ Forall (fun kv => sentenceId (snd kv) = fst kv) us'.
Proof.
  induction occs as [|occur occs IH]; intros us us'; simpl.
  - intros [= <-] H. now split.
  - destruct (int_dict_get (occ_sentenceId occur) us) as [row|] eqn:Hg;
      [|discriminate].
    destruct (replace_token (sentence row) (occ_offset occur) translation
                (draft row) (draftMeta row) confirmed) as [[d meta]|];
      simpl; [|discriminate].
    intros H Hk. apply int_dict_get_keys in Hg. destruct Hg as [Hin Hrow].
    rewrite Forall_forall in Hk. pose proof (Hk _ Hrow) as Hid.
    simpl in Hid. apply IH in H.
    + destruct H as [-> H]. split; [|exact H].
      rewrite int_dict_set_keys, Hin. reflexivity.
    + apply int_dict_set_keyed; [exact Hid|]. now apply Forall_forall.
Qed.

Lemma bulk_tokens_keys source target use_data : forall tts us memory us'
    memory',
  bulk_tokens source target use_data tts us memory = Returns (us', memory') ->
  Forall (fun kv => sentenceId (snd kv) = fst kv) us ->
  map fst us' = map fst us
  /\ Forall (fun kv => sentenceId (snd kv) = fst kv) us'.
Proof.
  induction tts as [|token rest IH]; intros us memory us' memory'; simpl.
  - intros [= <- <-] H. now split.
  - destruct (bulk_occurrences (tt_translation token) (tt_occurrences token)
                us) as [us1|] eqn:Ho; [|discriminate].
    intros H Hk. apply bulk_occurrences_keys in Ho; [|exact Hk].
    destruct Ho as [<- Hk1].
    destruct use_data; [destruct target; [|discriminate]|];
      now apply IH in H.
Qed.

(** X30. [replace_bulk_tokens] returns one sentence for each sentence id
    of the list it is given, in the order in which the ids first occur. *)
Theorem replace_bulk_tokens_returns_each_id_once
    (language_id : str -> option Z) (memory memory' : list memory_row)
    (sentence_list out : list draft_row)
    (token_translations : list token_translation) (src_code trg_code : str)
    (use_data : bool) :
  replace_bulk_tokens language_id memory sentence_list token_translations
    src_code trg_code use_data = Returns (out, memory') ->
  map sentenceId out = first_ids (map sentenceId sentence_list) [].
Proof.
  unfold replace_bulk_tokens.
  destruct (language_id src_code) as [source|]; [|discriminate].
  destruct (bulk_tokens source (language_id trg_code) use_data
              token_translations
              (fold_left (fun d sent => int_dict_set (sentenceId sent) sent d)
                 sentence_list [])
              memory) as [[us memory1]|] eqn:Hb; [|discriminate].
  intros [= <- <-].
  apply bulk_tokens_keys in Hb; [|apply fold_int_dict_keyed; constructor].
  destruct Hb as [Hkeys Hk].
  rewrite fold_int_dict_keys in Hkeys. simpl in Hkeys. rewrite <- Hkeys.
  clear Hkeys. induction Hk as [|[k v] us Hkv _ IH]; simpl; [reflexivity|].
  simpl in Hkv. now rewrite Hkv, IH.
Qed.

Lemma replace_bulk_tokens_returns_scenario :
  map sentenceId
    [numbered_row 12;
     mk_row 11 (py "gen,1,11") (py "a b c") (Some (py "A b C"))
       (Some [((0, 1), (0, 1), confirmed); ((1, 4), (1, 4), untranslated);
              ((4, 5), (4, 5), confirmed)]);
     mk_row 10 (py "gen,1") (py "abc") (Some (py "abC"))
       (Some [((0, 2), (0, 2), untranslated); ((2, 3), (2, 3), confirmed)])]
  = first_ids
      (map sentenceId
         [numbered_row 12; suggested_row; numbered_row 10;
          mk_row 11 (py "gen,1,11") (py "a b c") None None])
      [].
Proof.
  apply (replace_bulk_tokens_returns_each_id_once scenario_languages [] []
           _ _ scenario_request (py "en") (py "hi") false).
  vm_compute. reflexivity.
Defined.
